(** * Fundamental-matrix estimation (kornia/geometry/epipolar/fundamental.py)

    A shallow embedding of the batched numerical core of the module:
    [normalize_points], [normalize_transformation], [solve_quadratic],
    [solve_cubic], [run_7point], [run_8point] and [find_fundamental].

    Tensors are lists (a batch is a list of rows), boolean masks are lists of
    booleans, and the scalar arithmetic is kept abstract in the class [Scalar]
    so that the same code runs over the reals (exact arithmetic) and over
    IEEE-754 binary64 (the arithmetic of a float64 tensor). *)

From Stdlib Require Import List Bool Arith ZArith QArith Qreals Reals Lra Lia.
From Stdlib Require Import Floats String Ascii.
Import ListNotations.

Set Implicit Arguments.

Open Scope nat_scope.

(** ** Exceptions and results *)

Inductive exn : Type :=
| AssertionError
| TypeError (msg : string)
| ValueError (msg : string)
| IndexError
| RuntimeError
| ShapeError.

Inductive result (A : Type) : Type :=
| Ok (a : A)
| Raise (e : exn).

Arguments Ok {A} a.
Arguments Raise {A} e.

Definition bind {A B : Type} (m : result A) (k : A -> result B) : result B :=
  match m with
  | Ok a => k a
  | Raise e => Raise e
  end.

Declare Scope result_scope.
Delimit Scope result_scope with result.
Notation "x <- m ;; k" := (bind m (fun x => k))
  (at level 61, m at next level, right associativity) : result_scope.
Open Scope result_scope.

(** ** Scalars

    The operations a tensor element supports.  [lit] reads a numeric literal of
    the source ([0.5], [1e-16], [4], ...); [fpow], [facos], [fcos] and [fpi] are the
    library functions [torch.pow], [torch.acos], [torch.cos] and [math.pi]. *)

Class Scalar (T : Type) : Type := {
  lit : Q -> T;
  fadd : T -> T -> T;
  fsub : T -> T -> T;
  fmul : T -> T -> T;
  fdiv : T -> T -> T;
  fneg : T -> T;
  fabs : T -> T;
  fsqrt : T -> T;
  fpow : T -> T -> T;
  facos : T -> T;
  fcos : T -> T;
  fpi : T;
  feqb : T -> T -> bool;
  fltb : T -> T -> bool;
  fleb : T -> T -> bool
}.

(** The comparisons of constants that the masks of [solve_cubic] rely on: the
    padding values [1] and [0] written next to the compressed quantities must
    not be selected by the masks [== 0], [<= 0] and [> 0]. *)

Class ScalarLaws (T : Type) `{Scalar T} : Prop := {
  one_eqb_zero : feqb (lit 1) (lit 0) = false;
  one_leb_zero : fleb (lit 1) (lit 0) = false;
  zero_ltb_zero : fltb (lit 0) (lit 0) = false
}.

Arguments ScalarLaws T {_}.

Section Tensors.

Context {T : Type} `{Scalar T}.

Definition zero : T := lit 0.
Definition one : T := lit 1.
Definition fgtb (x y : T) : bool := fltb y x.
Definition fneb (x y : T) : bool := negb (feqb x y).

(** *** Elementwise operations on 1-D tensors of equal length *)

Fixpoint map2 {A B C : Type} (f : A -> B -> C) (xs : list A) (ys : list B) : list C :=
  match xs, ys with
  | x :: xs', y :: ys' => f x y :: map2 f xs' ys'
  | _, _ => []
  end.

Definition t_add : list T -> list T -> list T := map2 fadd.
Definition t_sub : list T -> list T -> list T := map2 fsub.
Definition t_mul : list T -> list T -> list T := map2 fmul.
Definition t_div : list T -> list T -> list T := map2 fdiv.
Definition t_neg : list T -> list T := map fneg.
Definition t_abs : list T -> list T := map fabs.
Definition t_sqrt : list T -> list T := map fsqrt.
Definition t_acos : list T -> list T := map facos.
Definition t_cos : list T -> list T := map fcos.
(** [k * t], [k / t], [t / k], [t + k] and [pow(t, k)] with a scalar [k] *)
Definition s_mul (k : T) : list T -> list T := map (fmul k).
Definition s_div (k : T) : list T -> list T := map (fdiv k).
Definition t_div_s (t : list T) (k : T) : list T := map (fun x => fdiv x k) t.
Definition t_add_s (t : list T) (k : T) : list T := map (fun x => fadd x k) t.
Definition t_pow_s (t : list T) (k : T) : list T := map (fun x => fpow x k) t.
(** comparisons of a tensor with a scalar *)
Definition t_eqb_s (t : list T) (k : T) : list bool := map (fun x => feqb x k) t.
Definition t_neb_s (t : list T) (k : T) : list bool := map (fun x => fneb x k) t.
Definition t_ltb_s (t : list T) (k : T) : list bool := map (fun x => fltb x k) t.
Definition t_leb_s (t : list T) (k : T) : list bool := map (fun x => fleb x k) t.
Definition t_gtb_s (t : list T) (k : T) : list bool := map (fun x => fgtb x k) t.
(** [m1 & m2], [~m] and [torch.any(m)] *)
Definition m_and : list bool -> list bool -> list bool := map2 andb.
Definition m_not : list bool -> list bool := map negb.
Definition any (m : list bool) : bool := existsb (fun b => b) m.
Definition count (m : list bool) : nat := List.length (filter (fun b => b) m).

(** *** Boolean-mask indexing

    [gather m xs] is [xs[m]]; [scatter upd m vs t] is [t[m] = vs], where [upd]
    says which columns of a row the assignment writes; [fill upd m t] is the
    assignment of one broadcast scalar.  A mask whose length differs from the
    indexed dimension is an [IndexError]; a value tensor whose length is neither
    the number of selected rows nor one is a [RuntimeError]. *)

Fixpoint gather_go {A : Type} (m : list bool) (xs : list A) : list A :=
  match m, xs with
  | b :: m', x :: xs' => if b then x :: gather_go m' xs' else gather_go m' xs'
  | _, _ => []
  end.

Definition gather {A : Type} (m : list bool) (xs : list A) : result (list A) :=
  if Nat.eqb (List.length m) (List.length xs) then Ok (gather_go m xs) else Raise IndexError.

Fixpoint scatter_go {A V : Type} (upd : A -> V -> A) (m : list bool) (vs : list V)
    (t : list A) : list A :=
  match m, t with
  | b :: m', x :: t' =>
      if b then
        match vs with
        | v :: vs' => upd x v :: scatter_go upd m' vs' t'
        | [] => x :: t'
        end
      else x :: scatter_go upd m' vs t'
  | _, _ => t
  end.

Fixpoint fill_go {A : Type} (upd : A -> A) (m : list bool) (t : list A) : list A :=
  match m, t with
  | b :: m', x :: t' => (if b then upd x else x) :: fill_go upd m' t'
  | _, _ => t
  end.

Definition fill {A : Type} (upd : A -> A) (m : list bool) (t : list A) : result (list A) :=
  if Nat.eqb (List.length m) (List.length t) then Ok (fill_go upd m t) else Raise IndexError.

Definition scatter {A V : Type} (upd : A -> V -> A) (m : list bool) (vs : list V)
    (t : list A) : result (list A) :=
  if negb (Nat.eqb (List.length m) (List.length t)) then Raise IndexError
  else if Nat.eqb (List.length vs) (count m) then Ok (scatter_go upd m vs t)
  else match vs with
       | [v] => Ok (fill_go (fun x => upd x v) m t)
       | _ => Raise RuntimeError
       end.

End Tensors.

(** ** The polynomial solvers *)

Section Solvers.

Context {T : Type} `{Scalar T}.

(** Columns of a coefficient tensor of shape (B,3) or (B,4). *)
Definition qa (r : T * T * T) : T := fst (fst r).
Definition qb (r : T * T * T) : T := snd (fst r).
Definition qc (r : T * T * T) : T := snd r.

Definition ca (r : T * T * T * T) : T := fst (fst (fst r)).
Definition cb (r : T * T * T * T) : T := snd (fst (fst r)).
Definition cc (r : T * T * T * T) : T := snd (fst r).
Definition cd (r : T * T * T * T) : T := snd r.

(** Assignments to one column or to a column range of a solution row. *)
Definition set_q0 (row : T * T) (v : T) : T * T := (v, snd row).
Definition set_q1 (row : T * T) (v : T) : T * T := (fst row, v).
Definition set_c0 (row : T * T * T) (v : T) : T * T * T := (v, snd (fst row), snd row).
Definition set_c01 (row : T * T * T) (v : T * T) : T * T * T := (fst v, snd v, snd row).
Definition set_row {A : Type} (_ v : A) : A := v.

(** [torch.stack([x0, x1, x2], dim=1)] *)
Fixpoint stack3 (x0 x1 x2 : list T) : list (T * T * T) :=
  match x0, x1, x2 with
  | u :: x0', v :: x1', w :: x2' => (u, v, w) :: stack3 x0' x1' x2'
  | _, _, _ => []
  end.

(** [inv_2a = 0.5 / a] (line 101): computed for the whole batch, before and
    independently of the discriminant masks. *)
Definition quadratic_inv_2a (a : list T) : list T := s_div (lit (1 # 2)) a.

Definition solve_quadratic (coeffs : list (T * T * T)) : result (list (T * T)) :=
  let a := map qa coeffs in
  let b := map qb coeffs in
  let c := map qc coeffs in
  (* delta = b * b - 4 * a * c *)
  let delta := t_sub (t_mul b b) (t_mul (s_mul (lit 4) a) c) in
  let mask_negative := t_ltb_s delta zero in
  let mask_zero := t_eqb_s delta zero in
  let inv_2a := quadratic_inv_2a a in
  let solution := repeat (zero, zero) (List.length coeffs) in
  solution <- (if any mask_negative
               then fill (fun _ => (zero, zero)) mask_negative solution
               else Ok solution) ;;
  let sqrt_delta := t_sqrt delta in
  let mask := m_and (m_not mask_negative) (m_not mask_zero) in
  if any mask then
    b_m <- gather mask b ;;
    sqrt_delta_m <- gather mask sqrt_delta ;;
    inv_2a_m <- gather mask inv_2a ;;
    solution <- scatter set_q0 mask
                  (t_mul (t_add (t_neg b_m) sqrt_delta_m) inv_2a_m) solution ;;
    solution <- scatter set_q1 mask
                  (t_mul (t_sub (t_neg b_m) sqrt_delta_m) inv_2a_m) solution ;;
    Ok solution
  else Ok solution.

(** *** The cubic solver, branch by branch *)

(** Q = (3 * c_a - b_a2) / 9 *)
Definition cubic_Q (b_a2 c_a : list T) : list T :=
  t_div_s (t_sub (s_mul (lit 3) c_a) b_a2) (lit 9).

(** R = (9 * b_a * c_a - 27 * d_a - 2 * b_a * b_a2) / 54 *)
Definition cubic_R (b_a b_a2 c_a d_a : list T) : list T :=
  t_div_s
    (t_sub (t_sub (t_mul (s_mul (lit 9) b_a) c_a) (s_mul (lit 27) d_a))
           (t_mul (s_mul (lit 2) b_a) b_a2))
    (lit 54).

(** Lines 187-193: Q == 0 and R != 0. *)
Definition branch_Q_zero (Q R b_a_3 a_Q_zero a_R_zero : list T)
    (solutions : list (T * T * T)) : result (list (T * T * T)) :=
  let mask_Q_zero := m_and (t_eqb_s Q zero) (t_neb_s R zero) in
  let mask_Q_zero_solutions := m_and (t_eqb_s a_Q_zero zero) (t_neb_s a_R_zero zero) in
  if any mask_Q_zero then
    R_m <- gather mask_Q_zero R ;;
    b_a_3_m <- gather mask_Q_zero b_a_3 ;;
    let x0_Q_zero := t_sub (t_pow_s (s_mul (lit 2) R_m) (fdiv (lit 1) (lit 3))) b_a_3_m in
    scatter set_c0 mask_Q_zero_solutions x0_Q_zero solutions
  else Ok solutions.

(** Lines 195-199: Q == 0 and R == 0. *)
Definition branch_QR_zero (Q R b_a_3 a_Q_zero a_R_zero : list T)
    (solutions : list (T * T * T)) : result (list (T * T * T)) :=
  let mask_QR_zero := m_and (t_eqb_s Q zero) (t_eqb_s R zero) in
  let mask_QR_zero_solutions := m_and (t_eqb_s a_Q_zero zero) (t_eqb_s a_R_zero zero) in
  if any mask_QR_zero then
    b_a_3_m <- gather mask_QR_zero b_a_3 ;;
    scatter set_row mask_QR_zero_solutions
      (stack3 (t_neg b_a_3_m) (t_neg b_a_3_m) (t_neg b_a_3_m)) solutions
  else Ok solutions.

(** Lines 201-211: D <= 0 and Q != 0, the trigonometric form. *)
Definition branch_D_zero (Q R Q3 D b_a_3 a_Q_zero a_D_zero : list T)
    (solutions : list (T * T * T)) : result (list (T * T * T)) :=
  let mask_D_zero := m_and (t_leb_s D zero) (t_neb_s Q zero) in
  let mask_D_zero_solutions := m_and (t_leb_s a_D_zero zero) (t_neb_s a_Q_zero zero) in
  if any mask_D_zero then
    R_m <- gather mask_D_zero R ;;
    Q3_m <- gather mask_D_zero Q3 ;;
    Q_m <- gather mask_D_zero Q ;;
    b_a_3_m <- gather mask_D_zero b_a_3 ;;
    let theta_D_zero := t_acos (t_div R_m (t_sqrt (t_neg Q3_m))) in
    let sqrt_Q_D_zero := t_sqrt (t_neg Q_m) in
    let x0_D_zero :=
      t_sub (t_mul (s_mul (lit 2) sqrt_Q_D_zero) (t_cos (t_div_s theta_D_zero (lit 3))))
            b_a_3_m in
    let x1_D_zero :=
      t_sub (t_mul (s_mul (lit 2) sqrt_Q_D_zero)
                   (t_cos (t_div_s (t_add_s theta_D_zero (fmul (lit 2) fpi)) (lit 3))))
            b_a_3_m in
    let x2_D_zero :=
      t_sub (t_mul (s_mul (lit 2) sqrt_Q_D_zero)
                   (t_cos (t_div_s (t_add_s theta_D_zero (fmul (lit 4) fpi)) (lit 3))))
            b_a_3_m in
    scatter set_row mask_D_zero_solutions (stack3 x0_D_zero x1_D_zero x2_D_zero) solutions
  else Ok solutions.

(** Lines 219-230: the Cardano terms AD and BD over the compressed batch. *)
Definition cardano_AD_BD (Q R D : list T) : result (list T * list T) :=
  let AD := map (fun _ => zero) R in
  let BD := map (fun _ => zero) R in
  let R_abs := t_abs R in
  let mask_R_positive := t_gtb_s R_abs (lit (1 # 10000000000000000)) in
  if any mask_R_positive then
    R_abs_m <- gather mask_R_positive R_abs ;;
    D_m <- gather mask_R_positive D ;;
    AD <- scatter set_row mask_R_positive
            (t_pow_s (t_add R_abs_m (t_sqrt D_m)) (fdiv (lit 1) (lit 3))) AD ;;
    let mask_R_positive_ := t_ltb_s R zero in
    AD <- (if any mask_R_positive_ then
             AD_m <- gather mask_R_positive_ AD ;;
             scatter set_row mask_R_positive_ (t_neg AD_m) AD
           else Ok AD) ;;
    Q_m <- gather mask_R_positive Q ;;
    AD_m <- gather mask_R_positive AD ;;
    BD <- scatter set_row mask_R_positive (t_div (t_neg Q_m) AD_m) BD ;;
    Ok (AD, BD)
  else Ok (AD, BD).

(** Lines 213-232: D > 0 and Q != 0. *)
Definition branch_D_positive (Q R D b_a_3 a_Q_zero a_D_positive : list T)
    (solutions : list (T * T * T)) : result (list (T * T * T)) :=
  let mask_D_positive_solution :=
    m_and (t_gtb_s a_D_positive zero) (t_neb_s a_Q_zero zero) in
  let mask_D_positive := m_and (t_gtb_s D zero) (t_neb_s Q zero) in
  if any mask_D_positive then
    ab <- cardano_AD_BD Q R D ;;
    AD_m <- gather mask_D_positive (fst ab) ;;
    BD_m <- gather mask_D_positive (snd ab) ;;
    b_a_3_m <- gather mask_D_positive b_a_3 ;;
    let x0_D_positive := t_sub (t_add AD_m BD_m) b_a_3_m in
    scatter set_c0 mask_D_positive_solution x0_D_positive solutions
  else Ok solutions.

Definition solve_cubic (coeffs : list (T * T * T * T)) : result (list (T * T * T)) :=
  let a := map ca coeffs in
  let b := map cb coeffs in
  let c := map cc coeffs in
  let d := map cd coeffs in
  let zero_tensor := zero in
  let one_tensor := one in
  let solutions := repeat (zero, zero, zero) (List.length coeffs) in
  let mask_a_zero := t_eqb_s a zero in
  let mask_b_zero := t_eqb_s b zero in
  let mask_c_zero := t_eqb_s c zero in
  let mask_zero_order := m_and (m_and mask_a_zero mask_b_zero) mask_c_zero in
  let mask_first_order := m_and (m_and mask_a_zero mask_b_zero) (m_not mask_c_zero) in
  let mask_second_order :=
    m_and (m_and mask_a_zero (m_not mask_b_zero)) (m_not mask_c_zero) in
  solutions <- (if any mask_second_order then
                  rows <- gather mask_second_order coeffs ;;
                  roots <- solve_quadratic (map (fun r => (cb r, cc r, cd r)) rows) ;;
                  scatter set_c01 mask_second_order roots solutions
                else Ok solutions) ;;
  solutions <- (if any mask_first_order
                then fill (fun row => set_c0 row one_tensor) mask_first_order solutions
                else Ok solutions) ;;
  solutions <- (if any mask_zero_order
                then fill (fun row => set_c0 row zero_tensor) mask_zero_order solutions
                else Ok solutions) ;;
  (* normalized form x^3 + a2 * x^2 + a1 * x + a0 = 0, on the rows with a != 0 *)
  a_nz <- gather (m_not mask_a_zero) a ;;
  let inv_a := s_div (lit 1) a_nz in
  b_nz <- gather (m_not mask_a_zero) b ;;
  let b_a := t_mul inv_a b_nz in
  let b_a2 := t_mul b_a b_a in
  c_nz <- gather (m_not mask_a_zero) c ;;
  let c_a := t_mul inv_a c_nz in
  d_nz <- gather (m_not mask_a_zero) d ;;
  let d_a := t_mul inv_a d_nz in
  let Q := cubic_Q b_a2 c_a in
  let R := cubic_R b_a b_a2 c_a d_a in
  let Q3 := t_mul (t_mul Q Q) Q in
  let D := t_add Q3 (t_mul R R) in
  let b_a_3 := s_mul (fdiv (lit 1) (lit 3)) b_a in
  a_Q_zero <- scatter set_row (m_not mask_a_zero) Q (map (fun _ => one) a) ;;
  a_R_zero <- scatter set_row (m_not mask_a_zero) R (map (fun _ => one) a) ;;
  a_D_zero <- scatter set_row (m_not mask_a_zero) D (map (fun _ => one) a) ;;
  solutions <- branch_Q_zero Q R b_a_3 a_Q_zero a_R_zero solutions ;;
  solutions <- branch_QR_zero Q R b_a_3 a_Q_zero a_R_zero solutions ;;
  solutions <- branch_D_zero Q R Q3 D b_a_3 a_Q_zero a_D_zero solutions ;;
  a_D_positive <- scatter set_row (m_not mask_a_zero) D (map (fun _ => zero) a) ;;
  branch_D_positive Q R D b_a_3 a_Q_zero a_D_positive solutions.

End Solvers.

(** ** Point and transformation normalisation *)

Section Geometry.

Context {T : Type} `{Scalar T}.

Definition point : Type := (T * T)%type.
Definition matrix : Type := list (list T).

(** [torch.mean] of a 1-D tensor: the sum divided by the number of elements. *)
Definition t_sum (xs : list T) : T := fold_left fadd xs zero.
Definition t_mean (xs : list T) : T :=
  fdiv (t_sum xs) (lit (inject_Z (Z.of_nat (List.length xs)))).

(** Dense linear algebra on matrices given as lists of rows. *)
Definition dot (u v : list T) : T := t_sum (map2 fmul u v).
Definition matvec (M : matrix) (v : list T) : list T := map (fun row => dot row v) M.
Definition column (j : nat) (M : matrix) : list T := map (fun row => nth j row zero) M.
Definition transpose (M : matrix) : matrix :=
  map (fun j => column j M) (seq 0 (List.length (hd [] M))).
Definition matmul (A B : matrix) : matrix :=
  map (fun row => map (fun col => dot row col) (transpose B)) A.
Definition diag_embed (w : list T) : matrix :=
  map (fun i => map (fun j => if Nat.eqb i j then nth i w zero else zero)
                    (seq 0 (List.length w)))
      (seq 0 (List.length w)).
Definition entry (M : matrix) (r c : nat) : T := nth c (nth r M []) zero.

(** [x_mean = torch.mean(points, dim=1)] *)
Definition centroid (pts : list point) : point :=
  (t_mean (map fst pts), t_mean (map snd pts)).

(** [(points - x_mean).norm(dim=-1, p=2)] *)
Definition distance (c p : point) : T :=
  let dx := fsub (fst p) (fst c) in
  let dy := fsub (snd p) (snd c) in
  fsqrt (fadd (fmul dx dx) (fmul dy dy)).

(** [(points - x_mean).norm(dim=-1, p=2).mean(dim=-1)] *)
Definition mean_distance (c : point) (pts : list point) : T :=
  t_mean (map (distance c) pts).

(** Modelled from the spec: [transform_points] (kornia.geometry.linalg) is not
    part of the source file.  It applies a 3x3 transform to 2-D points through
    homogeneous coordinates: (x, y) becomes (x, y, 1), is multiplied by the
    matrix, and is divided by its last coordinate. *)
Definition transform_points (M : matrix) (pts : list point) : list point :=
  map (fun p =>
         let h := matvec M [fst p; snd p; one] in
         (fdiv (nth 0 h zero) (nth 2 h zero), fdiv (nth 1 h zero) (nth 2 h zero)))
      pts.

(** One batch element of [normalize_points] (lines 38-52). *)
Definition normalize_points_1 (eps : T) (pts : list point) : list point * matrix :=
  let x_mean := centroid pts in
  let scale := mean_distance x_mean pts in
  let scale := fdiv (fsqrt (lit 2)) (fadd scale eps) in
  let ones := one in
  let zeros := zero in
  let transform :=
    [ [scale; zeros; fmul (fneg scale) (fst x_mean)];
      [zeros; scale; fmul (fneg scale) (snd x_mean)];
      [zeros; zeros; ones] ] in
  let points_norm := transform_points transform pts in
  (points_norm, transform).

(** [normalize_points(points, eps)] on a batch of shape (B,N,2): every reduction
    of the source runs inside one batch element. *)
Definition normalize_points (points : list (list point)) (eps : T)
    : list (list point) * list matrix :=
  let r := map (normalize_points_1 eps) points in
  (map fst r, map snd r).

Definition eps_default : T := lit (1 # 100000000).

(** [normalize_transformation(M, eps)] on one matrix (lines 70-71):
    [norm_val = M[-1:, -1:]], then
    [torch.where(norm_val.abs() > eps, M / (norm_val + eps), M)]. *)
Definition bottom_right (M : matrix) : T := last (last M []) zero.

Definition normalize_transformation (M : matrix) (eps : T) : matrix :=
  let norm_val := bottom_right M in
  if fgtb (fabs norm_val) eps
  then map (map (fun x => fdiv x (fadd norm_val eps))) M
  else M.

End Geometry.

Arguments point : clear implicits.
Arguments matrix : clear implicits.

(** ** The estimators *)

Section Estimators.

Context {T : Type} `{Scalar T}.

(** [_torch_svd_cast] on one batch element: an external collaborator, taken as
    a parameter.  It returns (U, S, V). *)
Variable svd : matrix T -> matrix T * list T * matrix T.

(** [str.upper], taken as a parameter of the dispatch. *)
Variable upper : string -> string.

(** Tensors as Python values, where the code depends on their rank. *)
Inductive pyval : Type :=
| PyScalar (x : T)
| PyVector (v : list T)
| PyMatrix (m : matrix T).

(** The result of an estimator: one matrix of shape (3,3), or a stack of
    matrices of shape (m,3,3). *)
Inductive fundamental : Type :=
| Fmat (F : matrix T)
| Fstack (Fs : list (matrix T)).

Fixpoint map_result {A B : Type} (f : A -> result B) (xs : list A) : result (list B) :=
  match xs with
  | [] => Ok []
  | x :: xs' => y <- f x ;; ys <- map_result f xs' ;; Ok (y :: ys)
  end.

(** Iterating a tensor, as [*coeffs], [len(roots)] and [roots[i]] do: over its
    first dimension; a 0-d tensor cannot be iterated. *)
Definition py_items (v : pyval) : result (list pyval) :=
  match v with
  | PyScalar _ => Raise (TypeError "iteration over a 0-d tensor")
  | PyVector xs => Ok (map PyScalar xs)
  | PyMatrix rows => Ok (map PyVector rows)
  end.

(** A call with positional arguments only: Python binds them to the
    parameters of the callee and raises [TypeError] when their numbers differ. *)
Definition py_call (nparams : nat) (body : list pyval -> result pyval)
    (args : list pyval) : result pyval :=
  if Nat.eqb (List.length args) nparams then body args
  else Raise (TypeError "wrong number of positional arguments").

(** The truth value and the scalar use of a tensor: only a tensor with one
    element has them. *)
Definition py_item (v : pyval) : result T :=
  match v with
  | PyScalar x => Ok x
  | PyVector [x] => Ok x
  | PyMatrix [[x]] => Ok x
  | _ => Raise RuntimeError
  end.

(** [solve_cubic] as the callee of [run_7point]: one parameter, [coeffs], read
    as a tensor of shape (B,4) by [coeffs[:, 0]] ... [coeffs[:, 3]]. *)
Definition row4 (r : list T) : result (T * T * T * T) :=
  match r with
  | a :: b :: c :: d :: _ => Ok (a, b, c, d)
  | _ => Raise IndexError
  end.

Definition solve_cubic_def (args : list pyval) : result pyval :=
  match args with
  | [PyMatrix rows] =>
      coeffs <- map_result row4 rows ;;
      solutions <- solve_cubic coeffs ;;
      Ok (PyMatrix (map (fun s => [fst (fst s); snd (fst s); snd s]) solutions))
  | _ => Raise IndexError
  end.

(** Modelled from the spec: [KORNIA_CHECK_SHAPE] (kornia.core.check) is not
    part of the source file.  It rejects a tensor whose shape is not (B,7,2). *)
Definition check_shape_B_7_2 (points : list (list (point T))) : result unit :=
  if forallb (fun pts => Nat.eqb (List.length pts) 7) points then Ok tt
  else Raise ShapeError.

(** The rows [x2*x1, x2*y1, x2, y2*x1, y2*y1, y2, x1, y1, 1] of the linear
    system (lines 254-260 and 381-390). *)
Definition design_matrix (points1_norm points2_norm : list (point T)) : matrix T :=
  map2 (fun p1 p2 =>
          let x1 := fst p1 in
          let y1 := snd p1 in
          let x2 := fst p2 in
          let y2 := snd p2 in
          [fmul x2 x1; fmul x2 y1; x2; fmul y2 x1; fmul y2 y1; y2; x1; y1; one])
       points1_norm points2_norm.

(** The coefficients of det(lambda*f1 + (1-lambda)*f2) (lines 276-312). *)
Definition cubic_coefficients (f1 f2 : list T) : list T :=
  let f1 := fun i => nth i f1 zero in
  let f2 := fun i => nth i f2 zero in
  let t0 := fsub (fmul (f2 4) (f2 8)) (fmul (f2 5) (f2 7)) in
  let t1 := fsub (fmul (f2 3) (f2 8)) (fmul (f2 5) (f2 6)) in
  let t2 := fsub (fmul (f2 3) (f2 7)) (fmul (f2 4) (f2 6)) in
  let coeffs3 :=
    fadd zero (fadd (fsub (fmul (f2 0) t0) (fmul (f2 1) t1)) (fmul (f2 2) t2)) in
  let coeffs2 :=
    fadd zero
      (fadd (fsub (fadd (fsub (fadd (fsub (fadd (fsub
        (fmul (f1 0) t0)
        (fmul (f1 1) t1))
        (fmul (f1 2) t2))
        (fmul (f1 3) (fsub (fmul (f2 1) (f2 8)) (fmul (f2 2) (f2 7)))))
        (fmul (f1 4) (fsub (fmul (f2 0) (f2 8)) (fmul (f2 2) (f2 6)))))
        (fmul (f1 5) (fsub (fmul (f2 0) (f2 7)) (fmul (f2 1) (f2 6)))))
        (fmul (f1 6) (fsub (fmul (f2 1) (f2 5)) (fmul (f2 2) (f2 4)))))
        (fmul (f1 7) (fsub (fmul (f2 0) (f2 5)) (fmul (f2 2) (f2 3)))))
        (fmul (f1 8) (fsub (fmul (f2 0) (f2 4)) (fmul (f2 1) (f2 3))))) in
  let t0 := fsub (fmul (f1 4) (f1 8)) (fmul (f1 5) (f1 7)) in
  let t1 := fsub (fmul (f1 3) (f1 8)) (fmul (f1 5) (f1 6)) in
  let t2 := fsub (fmul (f1 3) (f1 7)) (fmul (f1 4) (f1 6)) in
  let coeffs1 :=
    fadd zero
      (fadd (fsub (fadd (fsub (fadd (fsub (fadd (fsub
        (fmul (f2 0) t0)
        (fmul (f2 1) t1))
        (fmul (f2 2) t2))
        (fmul (f2 3) (fsub (fmul (f1 1) (f1 8)) (fmul (f1 2) (f1 7)))))
        (fmul (f2 4) (fsub (fmul (f1 0) (f1 8)) (fmul (f1 2) (f1 6)))))
        (fmul (f2 5) (fsub (fmul (f1 0) (f1 7)) (fmul (f1 1) (f1 6)))))
        (fmul (f2 6) (fsub (fmul (f1 1) (f1 5)) (fmul (f1 2) (f1 4)))))
        (fmul (f2 7) (fsub (fmul (f1 0) (f1 5)) (fmul (f1 2) (f1 3)))))
        (fmul (f2 8) (fsub (fmul (f1 0) (f1 4)) (fmul (f1 1) (f1 3))))) in
  let coeffs0 :=
    fadd zero (fadd (fsub (fmul (f1 0) t0) (fmul (f1 1) t1)) (fmul (f1 2) t2)) in
  [coeffs0; coeffs1; coeffs2; coeffs3].

(** [f.view(3, 3)] of a 9-vector. *)
Definition view_3_3 (f : list T) : result (matrix T) :=
  match f with
  | [a; b; c; d; e; g; h; i; j] => Ok [[a; b; c]; [d; e; g]; [h; i; j]]
  | _ => Raise RuntimeError
  end.

(** [transform2.transpose(-2, -1) @ (fmat @ transform1)] *)
Definition un_normalize (transform1 transform2 fmat : matrix T) : matrix T :=
  matmul (transpose transform2) (matmul fmat transform1).

(** The body of the loop over the roots (lines 330-350), up to the
    un-normalisation: the candidate matrix of one root. *)
Definition candidate (f1 f2 : matrix T) (root : T) : matrix T :=
  let _lambda := root in
  let _mu := one in
  let _s := fadd (fmul (entry f1 2 2) root) (entry f2 2 2) in
  let scaled := fgtb (fabs _s) (lit (1 # 10000000000000000)) in
  let _mu := if scaled then fdiv one _s else _mu in
  let _lambda := if scaled then fmul _lambda _mu else _lambda in
  let fmat22 := if scaled then one else zero in
  map (fun r =>
         map (fun c =>
                if Nat.eqb r 2 && Nat.eqb c 2 then fmat22
                else fadd (fmul (entry f1 r c) _lambda) (fmul (entry f2 r c) _mu))
             (seq 0 3))
      (seq 0 3).

(** Lines 318-354: from the value returned by the cubic solver to the stack of
    candidate matrices.  [fmatrix[i] = fmat] stores a (B,3,3) tensor in a (3,3)
    slot, which only a batch of one element allows. *)
Definition candidates (transform1 transform2 : list (matrix T)) (f1 f2 : list T)
    (roots : pyval) : result fundamental :=
  items <- py_items roots ;;
  let n := List.length items in
  if (n <? 1)%nat || (3 <? n)%nat then Ok (Fmat (repeat (repeat zero 3) 3))
  else
    f1 <- view_3_3 f1 ;;
    f2 <- view_3_3 f2 ;;
    fmatrix <- map_result
      (fun root_i =>
         root <- py_item root_i ;;
         let fmat := candidate f1 f2 root in
         match transform1, transform2 with
         | [t1], [t2] => Ok (normalize_transformation (un_normalize t1 t2 fmat) eps_default)
         | _, _ => Raise RuntimeError
         end)
      items ;;
    Ok (Fstack fmatrix).

Definition run_7point (points1 points2 : list (list (point T))) : result fundamental :=
  _ <- check_shape_B_7_2 points1 ;;
  _ <- check_shape_B_7_2 points2 ;;
  let (points1_norm, transform1) := normalize_points points1 eps_default in
  let (points2_norm, transform2) := normalize_points points2 eps_default in
  let X := map2 design_matrix points1_norm points2_norm in
  let v := map (fun Xb => snd (svd Xb)) X in
  (* f1 = v[0, :, 7] and f2 = v[0, :, 8] *)
  v0 <- match v with
        | v0 :: _ => Ok v0
        | [] => Raise IndexError
        end ;;
  _ <- (if forallb (fun row => (8 <? List.length row)%nat) v0 then Ok tt
        else Raise IndexError) ;;
  let f1 := column 7 v0 in
  let f2 := column 8 v0 in
  _ <- (if (8 <? List.length v0)%nat then Ok tt else Raise IndexError) ;;
  let coeffs := cubic_coefficients f1 f2 in
  (* line 316: solve_cubic is called with coeffs unpacked into its elements *)
  args <- py_items (PyVector coeffs) ;;
  roots <- py_call 1 solve_cubic_def args ;;
  candidates transform1 transform2 f1 f2 roots.

(** [points.shape[0:2]] of a tensor of shape (B,N,2). *)
Definition shape_B_N {A : Type} (t : list (list A)) : nat * nat :=
  (List.length t, List.length (hd [] t)).

Definition shape_eqb (s1 s2 : nat * nat) : bool :=
  Nat.eqb (fst s1) (fst s2) && Nat.eqb (snd s1) (snd s2).

(** One batch element of lines 390-410. *)
Definition run_8point_1 (points1_norm points2_norm : list (point T))
    (transform1 transform2 : matrix T) (weights : option (list T)) : result (matrix T) :=
  let X := design_matrix points1_norm points2_norm in
  let X := match weights with
           | None => matmul (transpose X) X
           | Some w => matmul (matmul (transpose X) (diag_embed w)) X
           end in
  let V := snd (svd X) in
  (* F_mat = V[..., -1].view(-1, 3, 3) *)
  F_mat <- view_3_3 (map (fun row => last row zero) V) ;;
  let U := fst (fst (svd F_mat)) in
  let S := snd (fst (svd F_mat)) in
  let V := snd (svd F_mat) in
  let rank_mask := [one; one; zero] in
  let F_projected := matmul U (matmul (diag_embed (t_mul S rank_mask)) (transpose V)) in
  let F_est := un_normalize transform1 transform2 F_projected in
  Ok (normalize_transformation F_est eps_default).

Fixpoint run_8point_batch (points1_norm points2_norm : list (list (point T)))
    (transform1 transform2 : list (matrix T)) (weights : option (list (list T)))
    : result (list (matrix T)) :=
  match points1_norm, points2_norm, transform1, transform2 with
  | p1 :: ps1, p2 :: ps2, t1 :: ts1, t2 :: ts2 =>
      match weights with
      | None =>
          F <- run_8point_1 p1 p2 t1 t2 None ;;
          Fs <- run_8point_batch ps1 ps2 ts1 ts2 None ;;
          Ok (F :: Fs)
      | Some (w :: ws) =>
          F <- run_8point_1 p1 p2 t1 t2 (Some w) ;;
          Fs <- run_8point_batch ps1 ps2 ts1 ts2 (Some ws) ;;
          Ok (F :: Fs)
      | Some [] => Raise RuntimeError
      end
  | _, _, _, _ => Ok []
  end.

Definition run_8point (points1 points2 : list (list (point T)))
    (weights : option (list (list T))) : result fundamental :=
  if negb (shape_eqb (shape_B_N points1) (shape_B_N points2)) then Raise AssertionError
  else if (snd (shape_B_N points1) <? 8)%nat then Raise AssertionError
  else
    _ <- match weights with
         | Some w =>
             if Nat.eqb (snd (shape_B_N w)) (snd (shape_B_N points1)) then Ok tt
             else Raise AssertionError
         | None => Ok tt
         end ;;
    let (points1_norm, transform1) := normalize_points points1 eps_default in
    let (points2_norm, transform2) := normalize_points points2 eps_default in
    Fs <- run_8point_batch points1_norm points2_norm transform1 transform2 weights ;;
    Ok (Fstack Fs).

(** Lines 430-436. *)
Definition find_fundamental (points1 points2 : list (list (point T)))
    (weights : option (list (list T))) (method : string) : result fundamental :=
  if String.eqb (upper method) "7POINT" then run_7point points1 points2
  else if String.eqb (upper method) "8POINT" then run_8point points1 points2 weights
  else Raise (ValueError
                ("Invalid method: " ++ method
                 ++ ". Supported methods are '7POINT' and '8POINT'.")%string).

End Estimators.

(** ** Row-wise reading of the solvers

    What the masked assignments of the solvers amount to on one row of the
    batch, in the order in which the source performs them. *)

Section Rows.

Context {T : Type} `{Scalar T}.

Definition row_delta (r : T * T * T) : T :=
  fsub (fmul (qb r) (qb r)) (fmul (fmul (lit 4) (qa r)) (qc r)).

Definition row_mask (r : T * T * T) : bool :=
  negb (fltb (row_delta r) zero) && negb (feqb (row_delta r) zero).

Definition quadratic_row (r : T * T * T) : T * T :=
  if row_mask r then
    (fmul (fadd (fneg (qb r)) (fsqrt (row_delta r))) (fdiv (lit (1 # 2)) (qa r)),
     fmul (fsub (fneg (qb r)) (fsqrt (row_delta r))) (fdiv (lit (1 # 2)) (qa r)))
  else (zero, zero).

Definition row_nz (r : T * T * T * T) : bool := negb (feqb (ca r) zero).
Definition row_b_a (r : T * T * T * T) : T := fmul (fdiv (lit 1) (ca r)) (cb r).
Definition row_c_a (r : T * T * T * T) : T := fmul (fdiv (lit 1) (ca r)) (cc r).
Definition row_d_a (r : T * T * T * T) : T := fmul (fdiv (lit 1) (ca r)) (cd r).
Definition row_b_a2 (r : T * T * T * T) : T := fmul (row_b_a r) (row_b_a r).

Definition row_Q (r : T * T * T * T) : T :=
  fdiv (fsub (fmul (lit 3) (row_c_a r)) (row_b_a2 r)) (lit 9).

Definition row_R (r : T * T * T * T) : T :=
  fdiv
    (fsub (fsub (fmul (fmul (lit 9) (row_b_a r)) (row_c_a r)) (fmul (lit 27) (row_d_a r)))
          (fmul (fmul (lit 2) (row_b_a r)) (row_b_a2 r)))
    (lit 54).

Definition row_Q3 (r : T * T * T * T) : T := fmul (fmul (row_Q r) (row_Q r)) (row_Q r).
Definition row_D (r : T * T * T * T) : T := fadd (row_Q3 r) (fmul (row_R r) (row_R r)).
Definition row_b_a_3 (r : T * T * T * T) : T := fmul (fdiv (lit 1) (lit 3)) (row_b_a r).

(** The three roots of the trigonometric form. *)
Definition row_trig (r : T * T * T * T) : T * T * T :=
  let theta := facos (fdiv (row_R r) (fsqrt (fneg (row_Q3 r)))) in
  let sqrt_Q := fsqrt (fneg (row_Q r)) in
  (fsub (fmul (fmul (lit 2) sqrt_Q) (fcos (fdiv theta (lit 3)))) (row_b_a_3 r),
   fsub (fmul (fmul (lit 2) sqrt_Q)
              (fcos (fdiv (fadd theta (fmul (lit 2) fpi)) (lit 3)))) (row_b_a_3 r),
   fsub (fmul (fmul (lit 2) sqrt_Q)
              (fcos (fdiv (fadd theta (fmul (lit 4) fpi)) (lit 3)))) (row_b_a_3 r)).

(** The Cardano terms; [any_R] says whether some row of the batch has
    |R| > 1e-16, which is what lets the sign flip of AD run at all. *)
Definition row_R_positive (r : T * T * T * T) : bool :=
  fgtb (fabs (row_R r)) (lit (1 # 10000000000000000)).

Definition row_AD (any_R : bool) (r : T * T * T * T) : T :=
  if any_R then
    let AD := if row_R_positive r
              then fpow (fadd (fabs (row_R r)) (fsqrt (row_D r))) (fdiv (lit 1) (lit 3))
              else zero in
    if fltb (row_R r) zero then fneg AD else AD
  else zero.

Definition row_BD (any_R : bool) (r : T * T * T * T) : T :=
  if any_R && row_R_positive r then fdiv (fneg (row_Q r)) (row_AD any_R r) else zero.

Definition cubic_row (any_R : bool) (r : T * T * T * T) : T * T * T :=
  let a0 := feqb (ca r) zero in
  let b0 := feqb (cb r) zero in
  let c0 := feqb (cc r) zero in
  let s := (zero, zero, zero) in
  let s := if a0 && negb b0 && negb c0
           then set_c01 s (quadratic_row (cb r, cc r, cd r)) else s in
  let s := if a0 && b0 && negb c0 then set_c0 s one else s in
  let s := if a0 && b0 && c0 then set_c0 s zero else s in
  let s := if row_nz r && (feqb (row_Q r) zero && fneb (row_R r) zero)
           then set_c0 s (fsub (fpow (fmul (lit 2) (row_R r)) (fdiv (lit 1) (lit 3)))
                               (row_b_a_3 r))
           else s in
  let s := if row_nz r && (feqb (row_Q r) zero && feqb (row_R r) zero)
           then (fneg (row_b_a_3 r), fneg (row_b_a_3 r), fneg (row_b_a_3 r)) else s in
  let s := if row_nz r && (fleb (row_D r) zero && fneb (row_Q r) zero)
           then row_trig r else s in
  let s := if row_nz r && (fgtb (row_D r) zero && fneb (row_Q r) zero)
           then set_c0 s (fsub (fadd (row_AD any_R r) (row_BD any_R r)) (row_b_a_3 r))
           else s in
  s.

(** Whether some row of the batch with a != 0 has |R| > 1e-16. *)
Definition batch_any_R (coeffs : list (T * T * T * T)) : bool :=
  existsb (fun r => row_nz r && row_R_positive r) coeffs.

End Rows.

(** ** Instances of the scalar arithmetic *)

(** *** Exact real arithmetic *)

Definition Reqb (x y : R) : bool := if Req_dec_T x y then true else false.
Definition Rltb (x y : R) : bool := if Rlt_dec x y then true else false.
Definition Rleb (x y : R) : bool := if Rle_dec x y then true else false.

#[export] Instance Scalar_R : Scalar R := {|
  lit := Q2R;
  fadd := Rplus;
  fsub := Rminus;
  fmul := Rmult;
  fdiv := Rdiv;
  fneg := Ropp;
  fabs := Rabs;
  fsqrt := R_sqrt.sqrt;
  fpow := Rpower;
  facos := Ratan.acos;
  fcos := Rtrigo_def.cos;
  fpi := PI;
  feqb := Reqb;
  fltb := Rltb;
  fleb := Rleb
|}.

(** *** IEEE-754 binary64, the arithmetic of a float64 tensor

    Rocq's primitive floats give the arithmetic, the square root and the
    comparisons; [torch.pow], [torch.acos] and [torch.cos] are parameters. *)

Definition float_of_Z (z : Z) : float :=
  match z with
  | Z0 => PrimFloat.of_uint63 (Uint63.of_Z 0)
  | Zpos _ => PrimFloat.of_uint63 (Uint63.of_Z z)
  | Zneg p => PrimFloat.opp (PrimFloat.of_uint63 (Uint63.of_Z (Zpos p)))
  end.

Definition float_lit (q : Q) : float :=
  PrimFloat.div (float_of_Z (Qnum q)) (float_of_Z (Zpos (Qden q))).

Definition binary64 (pow : float -> float -> float) (acos cos : float -> float)
    : Scalar float := {|
  lit := float_lit;
  fadd := PrimFloat.add;
  fsub := PrimFloat.sub;
  fmul := PrimFloat.mul;
  fdiv := PrimFloat.div;
  fneg := PrimFloat.opp;
  fabs := PrimFloat.abs;
  fsqrt := PrimFloat.sqrt;
  fpow := pow;
  facos := acos;
  fcos := cos;
  fpi := 0x1.921fb54442d18p+1%float;
  feqb := PrimFloat.eqb;
  fltb := PrimFloat.ltb;
  fleb := PrimFloat.leb
|}.

(** *** Tracing the divisors

    A value together with the divisors of all the divisions that produced it. *)

Definition traced {T : Type} `{Scalar T} : Scalar (T * list T) := {|
  lit q := (lit q, []);
  fadd x y := (fadd (fst x) (fst y), snd x ++ snd y);
  fsub x y := (fsub (fst x) (fst y), snd x ++ snd y);
  fmul x y := (fmul (fst x) (fst y), snd x ++ snd y);
  fdiv x y := (fdiv (fst x) (fst y), fst y :: snd x ++ snd y);
  fneg x := (fneg (fst x), snd x);
  fabs x := (fabs (fst x), snd x);
  fsqrt x := (fsqrt (fst x), snd x);
  fpow x y := (fpow (fst x) (fst y), snd x ++ snd y);
  facos x := (facos (fst x), snd x);
  fcos x := (fcos (fst x), snd x);
  fpi := (fpi, []);
  feqb x y := feqb (fst x) (fst y);
  fltb x y := fltb (fst x) (fst y);
  fleb x y := fleb (fst x) (fst y)
|}.

(** A value entering the traced computation, and the divisors a result carries. *)
Definition untraced {T : Type} (x : T) : T * list T := (x, []).
Definition divisors {T : Type} (x : T * list T) : list T := snd x.

Definition trace_coeffs {T : Type} (r : T * T * T)
    : (T * list T) * (T * list T) * (T * list T) :=
  (untraced (fst (fst r)), untraced (snd (fst r)), untraced (snd r)).

Definition root_divisors {T : Type} (s : (T * list T) * (T * list T)) : list T :=
  divisors (fst s) ++ divisors (snd s).

(** [str.upper] on ASCII strings. *)
Definition ascii_upper (c : ascii) : ascii :=
  let n := nat_of_ascii c in
  if (97 <=? n) && (n <=? 122) then ascii_of_nat (n - 32) else c.

Fixpoint string_upper (s : string) : string :=
  match s with
  | EmptyString => EmptyString
  | String c s' => String (ascii_upper c) (string_upper s')
  end.

(** ** Epipolar lines and the fundamental matrix of two projections *)

Section Epipolar.

Context {T : Type} `{Scalar T}.

(** Combining two batches: equal batch sizes pair up, a batch of one element
    is broadcast, anything else is a [RuntimeError]. *)
Definition broadcast_map2 {A B C : Type} (f : A -> B -> C) (xs : list A) (ys : list B)
    : result (list C) :=
  if Nat.eqb (List.length xs) (List.length ys) then Ok (map2 f xs ys)
  else match xs, ys with
       | [x], _ => Ok (map (f x) ys)
       | _, [y] => Ok (map (fun x => f x y) xs)
       | _, _ => Raise RuntimeError
       end.

(** A tensor of points of shape (B, N, DIM): the size of the last dimension is
    part of the shape, also when B or N is 0. *)
Record points_tensor : Type := {
  shape_last : nat;
  coords : list (matrix T)
}.

Definition is_3_3 (M : matrix T) : bool :=
  Nat.eqb (List.length M) 3 && forallb (fun row => Nat.eqb (List.length row) 3) M.

Definition is_3_4 (M : matrix T) : bool :=
  Nat.eqb (List.length M) 3 && forallb (fun row => Nat.eqb (List.length row) 4) M.

(** Modelled from the spec: [convert_points_to_homogeneous]
    (kornia.geometry.conversions) is not part of the source file.  It appends
    the coordinate 1 to every point. *)
Definition convert_points_to_homogeneous (points : points_tensor) : points_tensor :=
  {| shape_last := S (shape_last points);
     coords := map (map (fun p => p ++ [one])) (coords points) |}.

(** Modelled from the spec: [KORNIA_CHECK_SHAPE(F_mat, ["*", "3", "3"])]. *)
Definition check_shape_3_3 (F_mat : list (matrix T)) : result unit :=
  if forallb is_3_3 F_mat then Ok tt else Raise ShapeError.

(** Modelled from the spec: [KORNIA_CHECK_SHAPE(lines, ["*", "N", "3"])]. *)
Definition check_shape_N_3 (lines : list (matrix T)) : result unit :=
  if forallb (forallb (fun l => Nat.eqb (List.length l) 3)) lines then Ok tt
  else Raise ShapeError.

(** Lines 452-457 and 485-490: the points in homogeneous coordinates. *)
Definition homogeneous_or_fail (points : points_tensor) : result points_tensor :=
  if Nat.eqb (shape_last points) 2 then Ok (convert_points_to_homogeneous points)
  else if Nat.eqb (shape_last points) 3 then Ok points
  else Raise AssertionError.

(** Lines 460-468 on one batch element: [F_mat] is 3x3, [points_h] is Nx3. *)
Definition compute_correspond_epilines_1 (F_mat points_h : matrix T) : matrix T :=
  let points_h := transpose points_h in
  let prod := matmul F_mat points_h in
  (* a, b, c = torch.chunk(F_mat @ points_h, dim=-2, chunks=3) *)
  let a := nth 0 prod [] in
  let b := nth 1 prod [] in
  let c := nth 2 prod [] in
  let nu := t_add (t_mul a a) (t_mul b b) in
  let nu := map (fun x => if fgtb x zero then fdiv one (fsqrt x) else one) nu in
  let line := [t_mul a nu; t_mul b nu; t_mul c nu] in
  transpose line.

Definition compute_correspond_epilines (points : points_tensor) (F_mat : list (matrix T))
    : result (list (matrix T)) :=
  points_h <- homogeneous_or_fail points ;;
  _ <- check_shape_3_3 F_mat ;;
  broadcast_map2 compute_correspond_epilines_1 F_mat (coords points_h).

(** [u.cross(v)] on vectors of three coordinates. *)
Definition cross (u v : list T) : list T :=
  let u0 := nth 0 u zero in
  let u1 := nth 1 u zero in
  let u2 := nth 2 u zero in
  let v0 := nth 0 v zero in
  let v1 := nth 1 v zero in
  let v2 := nth 2 v zero in
  [fsub (fmul u1 v2) (fmul u2 v1);
   fsub (fmul u2 v0) (fmul u0 v2);
   fsub (fmul u0 v1) (fmul u1 v0)].

(** [x.cross(y, dim=2)] on tensors of shape (B, N, 3), with broadcasting of
    the batch and of the points. *)
Definition cross_dim_2 (x y : list (matrix T)) : result (list (matrix T)) :=
  rows <- broadcast_map2 (broadcast_map2 cross) x y ;;
  map_result (fun r => r) rows.

(** Lines 483-493. *)
Definition get_perpendicular (lines : list (matrix T)) (points : points_tensor)
    : result (list (matrix T)) :=
  _ <- check_shape_N_3 lines ;;
  points_h <- homogeneous_or_fail points ;;
  (* the mask tensor [1, 1, 0] *)
  let infinity_point :=
    map (map (fun l => map2 fmul l [one; one; zero])) lines in
  cross_dim_2 (coords points_h) infinity_point.

(** [convert_points_from_homogeneous] (kornia.geometry.conversions), an external
    collaborator of [get_closest_point_on_epipolar_line], is a parameter. *)
Variable convert_points_from_homogeneous : list (matrix T) -> list (matrix T).

(** Lines 511-519, up to the argument of [convert_points_from_homogeneous]. *)
Definition closest_point_homogeneous (pts1 pts2 : points_tensor) (Fm : list (matrix T))
    : result (list (matrix T)) :=
  if negb (forallb is_3_3 Fm) then Raise (ValueError "Fm must be a (*, 3, 3) tensor")
  else
    let pts1 := if Nat.eqb (shape_last pts1) 2
                then convert_points_to_homogeneous pts1 else pts1 in
    let pts2 := if Nat.eqb (shape_last pts2) 2
                then convert_points_to_homogeneous pts2 else pts2 in
    line1in2 <- compute_correspond_epilines pts1 Fm ;;
    perp <- get_perpendicular line1in2 pts2 ;;
    cross_dim_2 line1in2 perp.

Definition get_closest_point_on_epipolar_line (pts1 pts2 : points_tensor)
    (Fm : list (matrix T)) : result (list (matrix T)) :=
  h <- closest_point_homogeneous pts1 pts2 Fm ;;
  Ok (convert_points_from_homogeneous h).


(** *** Row-wise readings and shapes, used to state the properties *)

(** The epipolar line of one homogeneous point, as lines 460-468 compute it. *)
Definition epiline (F_mat : matrix T) (p : list T) : list T :=
  let l := matvec F_mat p in
  let a := nth 0 l zero in
  let b := nth 1 l zero in
  let c := nth 2 l zero in
  let nu := fadd (fmul a a) (fmul b b) in
  let nu := if fgtb nu zero then fdiv one (fsqrt nu) else one in
  [fmul a nu; fmul b nu; fmul c nu].

(** Shapes: every point of a tensor has [shape_last] coordinates; two tensors
    have the same number of points in every batch element. *)
Definition well_shaped (points : points_tensor) : Prop :=
  Forall (Forall (fun p => List.length p = shape_last points)) (coords points).

Definition shape_of (x : list (matrix T)) : list nat :=
  map (fun rows => List.length rows) x.

Definition same_shape (x y : list (matrix T)) : Prop := shape_of x = shape_of y.

Definition shape_2_or_3 (points : points_tensor) : bool :=
  Nat.eqb (shape_last points) 2 || Nat.eqb (shape_last points) 3.

(** The homogeneous coordinates the functions work with. *)
Definition homogeneous (points : points_tensor) (p : list T) : list T :=
  if Nat.eqb (shape_last points) 2 then p ++ [one] else p.

(** The entry of index (k, j, :) of a tensor of shape (B, N, C). *)
Definition item (x : list (matrix T)) (k j : nat) : option (list T) :=
  match nth_error x k with
  | Some rows => nth_error rows j
  | None => None
  end.

(** The perpendicular to the line [l] through the homogeneous point [p], as
    lines 491-492 compute it. *)
Definition perpendicular (l p : list T) : list T :=
  cross p (map2 fmul l [one; one; zero]).

(** The points in homogeneous coordinates, as a tensor of shape (B, N, 3). *)
Definition homogeneous_points (points : points_tensor) : points_tensor :=
  {| shape_last := 3; coords := map (map (homogeneous points)) (coords points) |}.

(** [Tensor.det], a primitive of the tensor library: the determinant, written
    as the expansion along the first row. *)
Fixpoint remove_nth {A : Type} (j : nat) (l : list A) : list A :=
  match j, l with
  | _, [] => []
  | O, _ :: l' => l'
  | S j', x :: l' => x :: remove_nth j' l'
  end.

Fixpoint det_rec (n : nat) (M : matrix T) : T :=
  match n with
  | O => one
  | S n' =>
      t_sum
        (map (fun j =>
                let term :=
                  fmul (nth j (hd [] M) zero) (det_rec n' (map (remove_nth j) (tl M))) in
                if Nat.even j then term else fneg term)
             (seq 0 n))
  end.

Definition det (M : matrix T) : T := det_rec (List.length M) M.

(** Lines 563-600 on one batch element. *)
Definition fundamental_from_projections_1 (P1 P2 : matrix T) : result (matrix T) :=
  if negb (is_3_4 P1) then Raise AssertionError
  else if negb (is_3_4 P2) then Raise AssertionError
  else
    let vstack := fun x y : matrix T => x ++ y in
    let X1 := skipn 1 P1 in
    let X2 := vstack (firstn 1 (skipn 2 P1)) (firstn 1 P1) in
    let X3 := firstn 2 P1 in
    let Y1 := skipn 1 P2 in
    let Y2 := vstack (firstn 1 (skipn 2 P2)) (firstn 1 P2) in
    let Y3 := firstn 2 P2 in
    let X1Y1 := vstack X1 Y1 in
    let X2Y1 := vstack X2 Y1 in
    let X3Y1 := vstack X3 Y1 in
    let X1Y2 := vstack X1 Y2 in
    let X2Y2 := vstack X2 Y2 in
    let X3Y2 := vstack X3 Y2 in
    let X1Y3 := vstack X1 Y3 in
    let X2Y3 := vstack X2 Y3 in
    let X3Y3 := vstack X3 Y3 in
    let F_vec :=
      [det X1Y1; det X2Y1; det X3Y1;
       det X1Y2; det X2Y2; det X3Y2;
       det X1Y3; det X2Y3; det X3Y3] in
    view_3_3 F_vec.

(** [fundamental_from_projections] on tensors of shape (B, 3, 4): the batch
    shapes must be equal (line 567). *)
Definition fundamental_from_projections (P1 P2 : list (matrix T))
    : result (list (matrix T)) :=
  if negb (forallb is_3_4 P1) then Raise AssertionError
  else if negb (forallb is_3_4 P2) then Raise AssertionError
  else if negb (Nat.eqb (List.length P1) (List.length P2)) then Raise AssertionError
  else map_result (fun p => fundamental_from_projections_1 (fst p) (snd p))
                  (combine P1 P2).

(** [Tensor.inverse], a primitive of the tensor library, is a parameter. *)
Variable inverse : matrix T -> matrix T.

(** Lines 535-545 on tensors of shape (3, 3): the three shape checks, then
    [K2.inverse().transpose(-2, -1) @ E_mat @ K1.inverse()].  All three tensors
    have two dimensions, so the comparison of the batch ranks succeeds. *)
Definition fundamental_from_essential (E_mat K1 K2 : matrix T) : result (matrix T) :=
  if negb (is_3_3 E_mat) then Raise AssertionError
  else if negb (is_3_3 K1) then Raise AssertionError
  else if negb (is_3_3 K2) then Raise AssertionError
  else Ok (matmul (matmul (transpose (inverse K2)) E_mat) (inverse K1)).

End Epipolar.

Arguments points_tensor : clear implicits.

(** ** Example data *)

Definition camera_1 : matrix R := [[1; 0; 0; 0]; [0; 1; 0; 0]; [0; 0; 1; 0]]%R.
Definition camera_2 : matrix R := [[1; 0; 0; 1]; [0; 1; 0; 0]; [0; 0; 1; 0]]%R.
Definition world_change : matrix R :=
  [[2; 0; 0; 0]; [0; 1; 0; 0]; [0; 0; 1; 0]; [0; 0; 0; 1]]%R.

Definition translate (d : R * R) (p : R * R) : R * R :=
  (fst p + fst d, snd p + snd d)%R.

Definition identity_3 : matrix R := [[1; 0; 0]; [0; 1; 0]; [0; 0; 1]]%R.

Definition example_points_1 : points_tensor R :=
  {| shape_last := 2; coords := [[[1; 2]; [0; 0]]]%R |}.
Definition example_points_2 : points_tensor R :=
  {| shape_last := 2; coords := [[[3; 1]; [1; 1]]]%R |}.
Definition example_F : list (matrix R) :=
  [[[0; 0; 0]; [0; 0; -1]; [0; 1; 0]]]%R.
Definition example_F_degenerate : list (matrix R) :=
  [[[0; 0; 0]; [0; 0; 0]; [0; 0; 1]]]%R.
Definition example_lines : list (matrix R) :=
  [[[0; -1; 2]; [0; -1; 0]]]%R.

(** * Properties *)

Unset Implicit Arguments.

(** ** Masks and maps

    Every tensor of the solvers is a [map] over the batch (or over the rows
    selected by a mask), so gathering and scattering reduce to [filter] and to
    a row-wise conditional. *)

Section ListFacts.

Context {A B C D : Type}.

Lemma map2_map (f : B -> C -> D) (g : A -> B) (h : A -> C) (xs : list A) :
  map2 f (map g xs) (map h xs) = map (fun x => f (g x) (h x)) xs.
Proof. induction xs as [|x xs IH]; simpl; [reflexivity | now rewrite IH]. Qed.

Lemma gather_go_map (p : A -> bool) (f : A -> B) (xs : list A) :
  gather_go (map p xs) (map f xs) = map f (filter p xs).
Proof.
  induction xs as [|x xs IH]; simpl; [reflexivity|].
  destruct (p x); simpl; now rewrite IH.
Qed.

Lemma gather_map (p : A -> bool) (f : A -> B) (xs : list A) :
  gather (map p xs) (map f xs) = Ok (map f (filter p xs)).
Proof.
  unfold gather. rewrite !length_map, Nat.eqb_refl. now rewrite gather_go_map.
Qed.

Lemma count_map (p : A -> bool) (xs : list A) :
  count (map p xs) = List.length (filter p xs).
Proof.
  unfold count. induction xs as [|x xs IH]; simpl; [reflexivity|].
  destruct (p x); simpl; now rewrite IH.
Qed.

Lemma scatter_go_map (upd : B -> C -> B) (p : A -> bool) (h : A -> C) (g : A -> B)
    (xs : list A) :
  scatter_go upd (map p xs) (map h (filter p xs)) (map g xs)
  = map (fun x => if p x then upd (g x) (h x) else g x) xs.
Proof.
  induction xs as [|x xs IH]; simpl; [reflexivity|].
  destruct (p x); simpl; now rewrite IH.
Qed.

Lemma scatter_map (upd : B -> C -> B) (p : A -> bool) (h : A -> C) (g : A -> B)
    (xs : list A) :
  scatter upd (map p xs) (map h (filter p xs)) (map g xs)
  = Ok (map (fun x => if p x then upd (g x) (h x) else g x) xs).
Proof.
  unfold scatter. rewrite !length_map, Nat.eqb_refl. simpl.
  rewrite count_map, Nat.eqb_refl. now rewrite scatter_go_map.
Qed.

Lemma fill_map (upd : B -> B) (p : A -> bool) (g : A -> B) (xs : list A) :
  fill upd (map p xs) (map g xs)
  = Ok (map (fun x => if p x then upd (g x) else g x) xs).
Proof.
  unfold fill. rewrite !length_map, Nat.eqb_refl. f_equal.
  induction xs as [|x xs IH]; simpl; [reflexivity | now rewrite IH].
Qed.

Lemma any_map (p : A -> bool) (xs : list A) : any (map p xs) = existsb p xs.
Proof.
  unfold any. induction xs as [|x xs IH]; simpl; [reflexivity | now rewrite IH].
Qed.

Lemma map_unselected (p : A -> bool) (F g : A -> B) (xs : list A) :
  existsb p xs = false ->
  map (fun x => if p x then F x else g x) xs = map g xs.
Proof.
  induction xs as [|x xs IH]; simpl; [reflexivity|].
  intros E. apply orb_false_iff in E as [E1 E2]. rewrite E1, IH; auto.
Qed.

Lemma repeat_map (v : B) (xs : list A) :
  repeat v (List.length xs) = map (fun _ => v) xs.
Proof. induction xs as [|x xs IH]; simpl; [reflexivity | now rewrite IH]. Qed.

Lemma filter_filter (p q : A -> bool) (xs : list A) :
  filter q (filter p xs) = filter (fun x => p x && q x) xs.
Proof.
  induction xs as [|x xs IH]; simpl; [reflexivity|].
  destruct (p x); simpl; [destruct (q x)|]; now rewrite IH.
Qed.

End ListFacts.

Section MaskFacts.

Context {A B C : Type}.

Lemma existsb_filter (p q : A -> bool) (xs : list A) :
  existsb q (filter p xs) = existsb (fun x => p x && q x) xs.
Proof.
  induction xs as [|x xs IH]; simpl; [reflexivity|].
  destruct (p x); simpl; now rewrite IH.
Qed.

Lemma scatter_map_ext (upd : B -> C -> B) (P p : A -> bool) (h : A -> C) (g : A -> B)
    (xs : list A) :
  (forall x, P x = p x) ->
  scatter upd (map P xs) (map h (filter p xs)) (map g xs)
  = Ok (map (fun x => if p x then upd (g x) (h x) else g x) xs).
Proof.
  intros E. rewrite (map_ext P p E). apply scatter_map.
Qed.

Lemma gather_self (p : A -> bool) (xs : list A) :
  gather (map p xs) xs = Ok (filter p xs).
Proof.
  rewrite <- (map_id xs) at 2. rewrite gather_map. now rewrite map_id.
Qed.

End MaskFacts.

Lemma guarded_ext {A B : Type} (p : A -> bool) (F g : A -> B) (xs : list A) :
  (forall x, p x = false -> F x = g x) ->
  (if existsb p xs then Ok (map F xs) else Ok (map g xs)) = Ok (map F xs).
Proof.
  intros E. destruct (existsb p xs) eqn:Ex; [reflexivity|].
  f_equal. apply map_ext_in. intros x Hx. symmetry. apply E.
  destruct (p x) eqn:Px; [|reflexivity].
  assert (existsb p xs = true) by (apply existsb_exists; eauto). congruence.
Qed.

Lemma nth_error_map_some {A B : Type} (f : A -> B) (xs : list A) (i : nat) (x : A) :
  nth_error xs i = Some x -> nth_error (map f xs) i = Some (f x).
Proof. intros E. rewrite nth_error_map, E. reflexivity. Qed.

Ltac unselected := let x := fresh "x" in let E := fresh "E" in
  intros x E; cbv beta; rewrite ?E; reflexivity.

(** ** The solvers, row by row *)

Section SolverRows.

Context {T : Type} `{Scalar T}.

Lemma stack3_map {A : Type} (f g h : A -> T) (xs : list A) :
  stack3 (map f xs) (map g xs) (map h xs) = map (fun x => (f x, g x, h x)) xs.
Proof. induction xs as [|x xs IH]; simpl; [reflexivity | now rewrite IH]. Qed.

Ltac fuse :=
  unfold cubic_Q, cubic_R, t_sub, t_mul, t_add, t_div, t_neg, t_abs, t_sqrt, t_acos, t_cos,
    s_mul, s_div, t_div_s, t_add_s, t_pow_s, t_eqb_s, t_neb_s, t_ltb_s, t_leb_s, t_gtb_s,
    m_and, m_not;
  repeat rewrite ?map_map, ?map2_map, ?stack3_map.

(** [solve_quadratic] returns, and row [i] of its result depends on row [i] of
    the coefficients only. *)
Lemma solve_quadratic_rows (coeffs : list (T * T * T)) :
  solve_quadratic coeffs = Ok (map quadratic_row coeffs).
Proof.
  unfold solve_quadratic, quadratic_inv_2a.
  unfold t_sub, t_mul, t_add, t_neg, t_sqrt, s_mul, s_div, t_ltb_s, t_eqb_s, m_and, m_not.
  rewrite repeat_map.
  repeat rewrite ?map_map, ?map2_map.
  cbv zeta.
  rewrite any_map, fill_map, guarded_ext by unselected. cbn [bind].
  rewrite any_map, !gather_map. cbn [bind].
  repeat rewrite ?map_map, ?map2_map.
  rewrite scatter_map. cbn [bind]. rewrite scatter_map. cbn [bind].
  rewrite guarded_ext by unselected.
  f_equal. apply map_ext. intros r. unfold quadratic_row, row_mask, row_delta.
  destruct (fltb _ _), (feqb _ _); reflexivity.
Qed.

Context `{!ScalarLaws T}.

Lemma branch_Q_zero_rows {A : Type} (nz : A -> bool) (fQ fR fb : A -> T)
    (g : A -> T * T * T) (xs : list A) :
  branch_Q_zero (map fQ (filter nz xs)) (map fR (filter nz xs)) (map fb (filter nz xs))
    (map (fun x => if nz x then fQ x else one) xs)
    (map (fun x => if nz x then fR x else one) xs)
    (map g xs)
  = Ok (map (fun x =>
               if nz x && (feqb (fQ x) zero && fneb (fR x) zero)
               then set_c0 (g x)
                      (fsub (fpow (fmul (lit 2) (fR x)) (fdiv (lit 1) (lit 3))) (fb x))
               else g x) xs).
Proof.
  unfold branch_Q_zero. fuse. cbv zeta.
  rewrite any_map, !gather_map. cbn [bind]. fuse.
  rewrite !filter_filter, existsb_filter.
  rewrite scatter_map_ext.
  - apply guarded_ext. unselected.
  - intros x. destruct (nz x); [reflexivity|]. cbn.
    unfold one, zero. now rewrite one_eqb_zero.
Qed.

Lemma branch_QR_zero_rows {A : Type} (nz : A -> bool) (fQ fR fb : A -> T)
    (g : A -> T * T * T) (xs : list A) :
  branch_QR_zero (map fQ (filter nz xs)) (map fR (filter nz xs)) (map fb (filter nz xs))
    (map (fun x => if nz x then fQ x else one) xs)
    (map (fun x => if nz x then fR x else one) xs)
    (map g xs)
  = Ok (map (fun x =>
               if nz x && (feqb (fQ x) zero && feqb (fR x) zero)
               then (fneg (fb x), fneg (fb x), fneg (fb x))
               else g x) xs).
Proof.
  unfold branch_QR_zero. fuse. cbv zeta.
  rewrite any_map, !gather_map. cbn [bind]. fuse.
  rewrite !filter_filter, existsb_filter.
  rewrite scatter_map_ext.
  - apply guarded_ext. unselected.
  - intros x. destruct (nz x); [reflexivity|]. cbn.
    unfold one, zero. now rewrite one_eqb_zero.
Qed.

Lemma branch_D_zero_rows {A : Type} (nz : A -> bool) (fQ fR fQ3 fD fb : A -> T)
    (g : A -> T * T * T) (xs : list A) :
  branch_D_zero (map fQ (filter nz xs)) (map fR (filter nz xs)) (map fQ3 (filter nz xs))
    (map fD (filter nz xs)) (map fb (filter nz xs))
    (map (fun x => if nz x then fQ x else one) xs)
    (map (fun x => if nz x then fD x else one) xs)
    (map g xs)
  = Ok (map (fun x =>
               if nz x && (fleb (fD x) zero && fneb (fQ x) zero)
               then
                 (fsub (fmul (fmul (lit 2) (fsqrt (fneg (fQ x))))
                             (fcos (fdiv (facos (fdiv (fR x) (fsqrt (fneg (fQ3 x)))))
                                         (lit 3))))
                       (fb x),
                  fsub (fmul (fmul (lit 2) (fsqrt (fneg (fQ x))))
                             (fcos (fdiv (fadd (facos (fdiv (fR x) (fsqrt (fneg (fQ3 x)))))
                                               (fmul (lit 2) fpi))
                                         (lit 3))))
                       (fb x),
                  fsub (fmul (fmul (lit 2) (fsqrt (fneg (fQ x))))
                             (fcos (fdiv (fadd (facos (fdiv (fR x) (fsqrt (fneg (fQ3 x)))))
                                               (fmul (lit 4) fpi))
                                         (lit 3))))
                       (fb x))
               else g x) xs).
Proof.
  unfold branch_D_zero. fuse. cbv zeta.
  rewrite any_map, !gather_map. cbn [bind]. fuse.
  rewrite !filter_filter, existsb_filter.
  rewrite scatter_map_ext.
  - apply guarded_ext. unselected.
  - intros x. destruct (nz x); [reflexivity|]. cbn.
    unfold one, zero. now rewrite one_leb_zero.
Qed.

Lemma cardano_AD_BD_rows {A : Type} (fQ fR fD : A -> T) (xs : list A) :
  let rp := fun x => fgtb (fabs (fR x)) (lit (1 # 10000000000000000)) in
  let AD := fun x =>
    if existsb rp xs then
      (if fltb (fR x) zero
       then fneg (if rp x then fpow (fadd (fabs (fR x)) (fsqrt (fD x))) (fdiv (lit 1) (lit 3))
                  else zero)
       else (if rp x then fpow (fadd (fabs (fR x)) (fsqrt (fD x))) (fdiv (lit 1) (lit 3))
             else zero))
    else zero in
  let BD := fun x =>
    if existsb rp xs && rp x then fdiv (fneg (fQ x)) (AD x) else zero in
  cardano_AD_BD (map fQ xs) (map fR xs) (map fD xs) = Ok (map AD xs, map BD xs).
Proof.
  intros rp AD BD. unfold cardano_AD_BD. fuse. cbv zeta.
  rewrite any_map. fold rp. subst AD BD. cbv beta.
  destruct (existsb rp xs) eqn:E; [|reflexivity].
  rewrite !gather_map. cbn [bind]. fuse.
  rewrite scatter_map. cbn [bind].
  rewrite any_map, gather_map. cbn [bind]. fuse.
  rewrite scatter_map, guarded_ext by unselected. cbn [bind].
  rewrite !gather_map. cbn [bind]. fuse.
  rewrite scatter_map. cbn [bind].
  reflexivity.
Qed.

Lemma branch_D_positive_rows {A : Type} (nz : A -> bool) (fQ fR fD fb : A -> T)
    (g : A -> T * T * T) (xs : list A) :
  let rp := fun x => fgtb (fabs (fR x)) (lit (1 # 10000000000000000)) in
  let any_R := existsb (fun x => nz x && rp x) xs in
  let AD := fun x =>
    if any_R then
      (if fltb (fR x) zero
       then fneg (if rp x then fpow (fadd (fabs (fR x)) (fsqrt (fD x))) (fdiv (lit 1) (lit 3))
                  else zero)
       else (if rp x then fpow (fadd (fabs (fR x)) (fsqrt (fD x))) (fdiv (lit 1) (lit 3))
             else zero))
    else zero in
  let BD := fun x => if any_R && rp x then fdiv (fneg (fQ x)) (AD x) else zero in
  branch_D_positive (map fQ (filter nz xs)) (map fR (filter nz xs)) (map fD (filter nz xs))
    (map fb (filter nz xs))
    (map (fun x => if nz x then fQ x else one) xs)
    (map (fun x => if nz x then fD x else zero) xs)
    (map g xs)
  = Ok (map (fun x =>
               if nz x && (fgtb (fD x) zero && fneb (fQ x) zero)
               then set_c0 (g x) (fsub (fadd (AD x) (BD x)) (fb x))
               else g x) xs).
Proof.
  intros rp any_R AD BD. unfold branch_D_positive.
  pose proof (cardano_AD_BD_rows fQ fR fD (filter nz xs)) as C. cbv zeta in C.
  rewrite C. clear C. fold rp. rewrite (existsb_filter nz rp xs). fold any_R. fold AD.
  fold BD.
  fuse. cbv zeta. cbn [bind fst snd].
  rewrite any_map, !gather_map. cbn [bind]. fuse.
  rewrite !filter_filter, existsb_filter.
  rewrite scatter_map_ext.
  - apply guarded_ext. unselected.
  - intros x. destruct (nz x); [reflexivity|]. cbn.
    unfold fgtb, zero. now rewrite zero_ltb_zero.
Qed.

(** [solve_cubic] returns, and row [i] of its result depends on row [i] of the
    coefficients and on whether some row of the batch has |R| > 1e-16. *)
Theorem solve_cubic_rows (coeffs : list (T * T * T * T)) :
  solve_cubic coeffs = Ok (map (cubic_row (batch_any_R coeffs)) coeffs).
Proof.
  unfold solve_cubic. rewrite repeat_map. fuse. cbv zeta.
  (* the orders zero to two *)
  rewrite any_map, gather_self. cbn [bind]. rewrite solve_quadratic_rows.
  cbn [bind]. rewrite map_map, scatter_map, guarded_ext by unselected. cbn [bind].
  rewrite any_map, fill_map, guarded_ext by unselected. cbn [bind].
  rewrite any_map, fill_map, guarded_ext by unselected. cbn [bind].
  (* the compressed batch *)
  rewrite !gather_map. cbn [bind]. fuse.
  rewrite !scatter_map. cbn [bind]. unfold set_row.
  rewrite branch_Q_zero_rows. cbn [bind].
  rewrite branch_QR_zero_rows. cbn [bind].
  rewrite branch_D_zero_rows. cbn [bind].
  pose proof (@branch_D_positive_rows (T * T * T * T) row_nz row_Q row_R row_D row_b_a_3)
    as P.
  cbv zeta in P. rewrite P. clear P.
  f_equal.
Qed.

(** The part of the second-order branch that holds: with a == 0, b != 0 and
    c != 0 the two roots of the quadratic b x^2 + c x + d fill the slots 0 and 1. *)
Lemma solve_cubic_second_order (coeffs : list (T * T * T * T)) (i : nat)
    (r : T * T * T * T) :
  nth_error coeffs i = Some r ->
  feqb (ca r) zero = true -> feqb (cb r) zero = false -> feqb (cc r) zero = false ->
  exists solutions,
    solve_cubic coeffs = Ok solutions /\
    nth_error solutions i
    = Some (fst (quadratic_row (cb r, cc r, cd r)),
            snd (quadratic_row (cb r, cc r, cd r)), zero).
Proof.
  intros Hi Ha Hb Hc. eexists. split; [apply solve_cubic_rows|].
  erewrite nth_error_map_some by eassumption. f_equal.
  unfold cubic_row, row_nz. rewrite Ha, Hb, Hc. reflexivity.
Qed.

(** With a == 0, b != 0 and c == 0 no mask selects the row. *)
Lemma solve_cubic_second_order_c_zero (coeffs : list (T * T * T * T)) (i : nat)
    (r : T * T * T * T) :
  nth_error coeffs i = Some r ->
  feqb (ca r) zero = true -> feqb (cb r) zero = false -> feqb (cc r) zero = true ->
  exists solutions,
    solve_cubic coeffs = Ok solutions /\
    nth_error solutions i = Some (zero, zero, zero).
Proof.
  intros Hi Ha Hb Hc. eexists. split; [apply solve_cubic_rows|].
  erewrite nth_error_map_some by eassumption. f_equal.
  unfold cubic_row, row_nz. rewrite Ha, Hb, Hc. reflexivity.
Qed.

(** The slots of the branch Q == 0, R != 0. *)
Lemma solve_cubic_Q_zero (coeffs : list (T * T * T * T)) (i : nat) (r : T * T * T * T) :
  nth_error coeffs i = Some r ->
  feqb (ca r) zero = false ->
  feqb (row_Q r) zero = true -> feqb (row_R r) zero = false ->
  exists solutions,
    solve_cubic coeffs = Ok solutions /\
    nth_error solutions i
    = Some (fsub (fpow (fmul (lit 2) (row_R r)) (fdiv (lit 1) (lit 3))) (row_b_a_3 r),
            zero, zero).
Proof.
  intros Hi Ha HQ HR. eexists. split; [apply solve_cubic_rows|].
  erewrite nth_error_map_some by eassumption. f_equal.
  unfold cubic_row, row_nz, fneb. rewrite Ha, HQ, HR. cbn.
  rewrite !andb_false_r. reflexivity.
Qed.

End SolverRows.

(** ** The instances *)

Lemma Q2R_0 : Q2R 0 = 0%R.
Proof. unfold Q2R; simpl; lra. Qed.

Lemma Q2R_1 : Q2R 1 = 1%R.
Proof. unfold Q2R; simpl; lra. Qed.

Lemma Rltb_true (x y : R) : (x < y)%R -> Rltb x y = true.
Proof. intros. unfold Rltb. destruct (Rlt_dec x y); [reflexivity | contradiction]. Qed.

Lemma Rltb_false (x y : R) : (y <= x)%R -> Rltb x y = false.
Proof. intros. unfold Rltb. destruct (Rlt_dec x y); [lra | reflexivity]. Qed.

Lemma Reqb_true (x y : R) : x = y -> Reqb x y = true.
Proof. intros. unfold Reqb. destruct (Req_dec_T x y); [reflexivity | contradiction]. Qed.

Lemma Reqb_false (x y : R) : x <> y -> Reqb x y = false.
Proof. intros. unfold Reqb. destruct (Req_dec_T x y); [contradiction | reflexivity]. Qed.

Lemma Rleb_false (x y : R) : (y < x)%R -> Rleb x y = false.
Proof. intros. unfold Rleb. destruct (Rle_dec x y); [lra | reflexivity]. Qed.

#[export] Instance ScalarLaws_R : ScalarLaws R.
Proof.
  split; cbn; rewrite ?Q2R_0, ?Q2R_1.
  - apply Reqb_false; lra.
  - apply Rleb_false; lra.
  - apply Rltb_false; lra.
Qed.

Lemma ScalarLaws_binary64 pw ac cs : @ScalarLaws float (binary64 pw ac cs).
Proof. split; reflexivity. Qed.

(** ** The quadratic solver *)

Section QuadraticClaims.

Context {T : Type} `{Scalar T}.

(** C4: a row of [solve_quadratic] whose discriminant satisfies delta < 0 or
    delta == 0 is returned as the pair of sentinels (0, 0). *)
Theorem solve_quadratic_nonpositive_discriminant
    (coeffs : list (T * T * T)) (i : nat) (r : T * T * T) :
  nth_error coeffs i = Some r ->
  fltb (row_delta r) zero = true \/ feqb (row_delta r) zero = true ->
  exists solution,
    solve_quadratic coeffs = Ok solution /\ nth_error solution i = Some (zero, zero).
Proof.
  intros Hi Hd. exists (map quadratic_row coeffs). split.
  - apply solve_quadratic_rows.
  - erewrite nth_error_map_some by eassumption. f_equal.
    unfold quadratic_row, row_mask. destruct Hd as [E | E]; rewrite E; simpl.
    + reflexivity.
    + now rewrite andb_false_r.
Qed.

End QuadraticClaims.

Lemma solve_quadratic_nonpositive_discriminant_witness :
  exists solution,
    solve_quadratic [(1, 2, 5)%R] = Ok solution /\ nth_error solution 0 = Some (zero, zero).
Proof.
  apply (@solve_quadratic_nonpositive_discriminant R _ [(1, 2, 5)%R] 0 (1, 2, 5)%R).
  - reflexivity.
  - left. cbn. apply Rltb_true. unfold Q2R; simpl. lra.
Defined.

Open Scope R_scope.

Lemma eps_default_R : (@eps_default R _) = / 100000000.
Proof. unfold eps_default. cbn. unfold Q2R. simpl. lra. Qed.

Lemma Q2R_inject_nat (n : nat) : Q2R (inject_Z (Z.of_nat n)) = INR n.
Proof. unfold Q2R. simpl. rewrite INR_IZR_INZ. lra. Qed.

Lemma quadratic_row_R_positive (a b c : R) :
  a <> 0 -> 0 < b * b - 4 * a * c ->
  quadratic_row (a, b, c)
  = ((- b + R_sqrt.sqrt (b * b - 4 * a * c)) / (2 * a),
     (- b - R_sqrt.sqrt (b * b - 4 * a * c)) / (2 * a)).
Proof.
  intros Ha Hd. unfold quadratic_row, row_mask, row_delta. cbn.
  replace (Q2R 4) with 4 by (unfold Q2R; simpl; lra).
  replace (Q2R (1 # 2)) with (/ 2) by (unfold Q2R; simpl; lra).
  rewrite Q2R_0.
  rewrite Rltb_false by lra. rewrite Reqb_false by lra. simpl.
  f_equal; field; assumption.
Qed.

(** C5, as amended: in any arithmetic, a row that the masks of the code select
    (its discriminant is neither < 0 nor == 0) is returned as
    ((-b + sqrt delta) * (0.5 / a), (-b - sqrt delta) * (0.5 / a)); over the
    reals, for a <> 0 and delta > 0, these are (-b + sqrt delta) / (2a) and
    (-b - sqrt delta) / (2a); the coefficients (1, -3, 2) give the roots 2 and 1,
    over the reals and on binary64. *)
Theorem solve_quadratic_positive_discriminant :
  (forall (T : Type) (S : Scalar T) (coeffs : list (T * T * T)) (i : nat)
          (r : T * T * T),
      nth_error coeffs i = Some r ->
      fltb (row_delta r) zero = false -> feqb (row_delta r) zero = false ->
      exists solution,
        solve_quadratic coeffs = Ok solution /\
        nth_error solution i
        = Some (fmul (fadd (fneg (qb r)) (fsqrt (row_delta r)))
                     (fdiv (lit (1 # 2)) (qa r)),
                fmul (fsub (fneg (qb r)) (fsqrt (row_delta r)))
                     (fdiv (lit (1 # 2)) (qa r))))
  /\ (forall (coeffs : list (R * R * R)) (i : nat) (a b c : R),
        nth_error coeffs i = Some (a, b, c) ->
        a <> 0 -> 0 < b * b - 4 * a * c ->
        exists solution,
          solve_quadratic coeffs = Ok solution /\
          nth_error solution i
          = Some ((- b + R_sqrt.sqrt (b * b - 4 * a * c)) / (2 * a),
                  (- b - R_sqrt.sqrt (b * b - 4 * a * c)) / (2 * a)))
  /\ solve_quadratic [(1, -3, 2)] = Ok [(2, 1)]
  /\ (forall (pw : float -> float -> float) (ac cs : float -> float),
        @solve_quadratic float (binary64 pw ac cs) [(1, -3, 2)%float]
        = Ok [(2, 1)%float]).
Proof.
  split; [|split; [|split]].
  - intros T S coeffs i r Hi Hlt Heq. exists (map quadratic_row coeffs). split.
    + apply solve_quadratic_rows.
    + erewrite nth_error_map_some by eassumption. f_equal.
      unfold quadratic_row, row_mask. now rewrite Hlt, Heq.
  - intros coeffs i a b c Hi Ha Hd. exists (map quadratic_row coeffs). split.
    + apply solve_quadratic_rows.
    + erewrite nth_error_map_some by eassumption. f_equal.
      now apply quadratic_row_R_positive.
  - rewrite solve_quadratic_rows. cbn [map]. rewrite quadratic_row_R_positive by lra.
    replace (-3 * -3 - 4 * 1 * 2) with 1 by lra. rewrite sqrt_1.
    do 3 f_equal; field.
  - intros pw ac cs. rewrite solve_quadratic_rows. reflexivity.
Qed.

Lemma solve_quadratic_positive_discriminant_witness :
  exists solution,
    solve_quadratic [(1, -3, 2)] = Ok solution /\
    nth_error solution 0%nat
    = Some ((- -3 + R_sqrt.sqrt (-3 * -3 - 4 * 1 * 2)) / (2 * 1),
            (- -3 - R_sqrt.sqrt (-3 * -3 - 4 * 1 * 2)) / (2 * 1)).
Proof.
  apply (proj1 (proj2 solve_quadratic_positive_discriminant)
           [(1, -3, 2)] 0%nat 1 (-3) 2).
  - reflexivity.
  - lra.
  - lra.
Defined.

Close Scope R_scope.

(** ** The normalisations *)

Section TransformShape.

Context {T : Type} `{Scalar T}.

(** C10: [normalize_points] returns one transform per batch element, and the
    transform of every batch element is the 3x3 matrix
    [[s, 0, tx], [0, s, ty], [0, 0, 1]]: its bottom row is (0, 0, 1), its two
    diagonal scale entries are the same number, and the off-diagonal entries of
    its upper-left 2x2 block are 0. *)
Theorem normalize_points_transform_similarity (points : list (list (point T))) (eps : T) :
  List.length (snd (normalize_points points eps)) = List.length points
  /\ forall (k : nat) (pts : list (point T)),
       nth_error points k = Some pts ->
       exists scale tx ty : T,
         nth_error (snd (normalize_points points eps)) k
         = Some [[scale; zero; tx]; [zero; scale; ty]; [zero; zero; one]].
Proof.
  unfold normalize_points. cbn [snd]. rewrite map_map. split.
  - apply length_map.
  - intros k pts Hk. do 3 eexists.
    erewrite nth_error_map_some by eassumption.
    unfold normalize_points_1. cbn [snd]. reflexivity.
Qed.

End TransformShape.

Lemma normalize_points_transform_similarity_witness :
  List.length (snd (normalize_points [[(0, 0); (2, 0)]%R] (@eps_default R _)))
  = List.length [[(0, 0); (2, 0)]%R]
  /\ exists scale tx ty : R,
       nth_error (snd (normalize_points [[(0, 0); (2, 0)]%R] (@eps_default R _))) 0
       = Some [[scale; zero; tx]; [zero; scale; ty]; [zero; zero; one]].
Proof.
  split.
  - apply (proj1 (normalize_points_transform_similarity
                    [[(0, 0); (2, 0)]%R] (@eps_default R _))).
  - apply (proj2 (normalize_points_transform_similarity
                    [[(0, 0); (2, 0)]%R] (@eps_default R _)) 0 [(0, 0); (2, 0)]%R).
    reflexivity.
Defined.

Section LastFacts.

Context {A B : Type}.

Lemma last_map_rows (f : A -> B) (M : list (list A)) :
  last (map (map f) M) [] = map f (last M []).
Proof.
  induction M as [|row M IH]; [reflexivity|].
  destruct M as [|row' M]; [reflexivity|]. exact IH.
Qed.

Lemma last_map (f : A -> B) (l : list A) (d : A) (d' : B) :
  l <> [] -> last (map f l) d' = f (last l d).
Proof.
  induction l as [|x l IH]; [congruence|]. intros _.
  destruct l as [|y l]; [reflexivity|]. apply IH. congruence.
Qed.

End LastFacts.

Open Scope R_scope.

Lemma bottom_right_map (f : R -> R) (M : matrix R) :
  last M [] <> [] -> bottom_right (map (map f) M) = f (bottom_right M).
Proof.
  intros HM. unfold bottom_right. rewrite last_map_rows.
  now apply last_map.
Qed.

Lemma normalize_transformation_R (M : matrix R) (eps : R) :
  normalize_transformation M eps
  = if Rltb eps (Rabs (bottom_right M))
    then map (map (fun x => x / (bottom_right M + eps))) M
    else M.
Proof. reflexivity. Qed.

Lemma map_map_id_scale (k : R) (M : matrix R) :
  k = 1 -> map (map (fun x => x / k)) M = M.
Proof.
  intros ->. rewrite <- (map_id M) at 2. apply map_ext. intros row.
  rewrite <- (map_id row) at 2. apply map_ext. intros x. field.
Qed.

(** A once-normalised matrix is a fixed point exactly when the first pass
    divided nothing or the divisor of the second pass is one. *)
Lemma normalize_twice_fixed_iff (M : matrix R) (eps : R) :
  0 < eps <= / 2 -> last M [] <> [] ->
  normalize_transformation (normalize_transformation M eps) eps
  = normalize_transformation M eps
  <-> Rabs (bottom_right M) <= eps \/ bottom_right M = 1 - eps.
Proof.
  intros Heps HM. set (v := bottom_right M).
  rewrite (normalize_transformation_R M). fold v.
  destruct (Rlt_dec eps (Rabs v)) as [Hv | Hv].
  - rewrite (Rltb_true _ _ Hv).
    assert (Hve : v + eps <> 0).
    { intros E. assert (v = - eps) by lra. subst v. rewrite H, Rabs_Ropp in Hv.
      rewrite Rabs_pos_eq in Hv; lra. }
    assert (Hv0 : v <> 0).
    { intros E. rewrite E, Rabs_R0 in Hv. lra. }
    set (N := map (map (fun x => x / (v + eps))) M).
    assert (HN : last N [] <> []).
    { unfold N. rewrite last_map_rows. destruct (last M []); [congruence | discriminate]. }
    assert (Hw : bottom_right N = v / (v + eps)).
    { unfold N. rewrite bottom_right_map by assumption. reflexivity. }
    assert (Hwbig : eps < Rabs (v / (v + eps))).
    { unfold Rdiv. rewrite Rabs_mult, Rabs_inv.
      assert (0 < Rabs (v + eps)) by (apply Rabs_pos_lt; assumption).
      assert (Rabs (v + eps) <= Rabs v + Rabs eps) by apply Rabs_triang.
      rewrite (Rabs_pos_eq eps) in H0 by lra.
      apply Rmult_lt_reg_r with (Rabs (v + eps)); [assumption|].
      rewrite Rmult_assoc, Rinv_l by lra. nra. }
    rewrite (normalize_transformation_R N), Hw, (Rltb_true _ _ Hwbig).
    split.
    + intros E. right.
      apply (f_equal bottom_right) in E.
      rewrite bottom_right_map in E by assumption. rewrite Hw in E.
      assert (Hw0 : v / (v + eps) <> 0).
      { unfold Rdiv. apply Rmult_integral_contrapositive_currified;
          [assumption | now apply Rinv_neq_0_compat]. }
      set (w := v / (v + eps)) in *.
      assert (Hwe : w + eps <> 0).
      { intros Z. rewrite Z in E. unfold Rdiv in E. rewrite Rinv_0, Rmult_0_r in E.
        congruence. }
      assert (Hone : w + eps = 1).
      { assert (Hm : w / (w + eps) * (w + eps) = w * (w + eps)) by now rewrite E.
        replace (w / (w + eps) * (w + eps)) with w in Hm by (field; assumption).
        apply Rmult_eq_reg_l with w; [lra | assumption]. }
      unfold w in Hone.
      assert (v = (1 - eps) * (v + eps)).
      { replace (1 - eps) with (v / (v + eps)) by lra. field. assumption. }
      nra.
    + intros [Hle | Hfix]; [lra|].
      apply map_map_id_scale. rewrite Hfix. field. lra.
  - rewrite (Rltb_false eps (Rabs v)) by lra.
    rewrite (normalize_transformation_R M). fold v.
    rewrite (Rltb_false eps (Rabs v)) by lra.
    split; [intros _; left; lra | reflexivity].
Qed.

(** C3, as amended: over the reals, with 0 < eps <= 1/2 and v the bottom-right
    entry of M, the once-normalised matrix is a fixed point of
    [normalize_transformation] if and only if |v| <= eps or v = 1 - eps. *)
Theorem normalize_transformation_fixed_point_iff (M : matrix R) (eps : R) :
  0 < eps <= / 2 -> last M [] <> [] ->
  normalize_transformation (normalize_transformation M eps) eps
  = normalize_transformation M eps
  <-> Rabs (bottom_right M) <= eps \/ bottom_right M = 1 - eps.
Proof. exact (normalize_twice_fixed_iff M eps). Qed.

Lemma normalize_transformation_fixed_point_iff_witness :
  normalize_transformation
    (normalize_transformation [[3; 0]; [0; 1]] eps_default) eps_default
  = normalize_transformation [[3; 0]; [0; 1]] eps_default
  <-> Rabs (bottom_right [[3; 0]; [0; 1]]) <= eps_default
      \/ bottom_right [[3; 0]; [0; 1]] = 1 - eps_default.
Proof.
  apply (normalize_transformation_fixed_point_iff [[3; 0]; [0; 1]] eps_default).
  - rewrite eps_default_R. lra.
  - simpl. discriminate.
Defined.

(** C3 fails as stated: normalising the all-ones 2x2 matrix twice does not
    give the once-normalised matrix. *)
Lemma normalize_transformation_not_idempotent :
  normalize_transformation
    (normalize_transformation [[1; 1]; [1; 1]] eps_default) eps_default
  <> normalize_transformation [[1; 1]; [1; 1]] eps_default.
Proof.
  intros E. apply normalize_twice_fixed_iff in E.
  - rewrite eps_default_R in E. unfold bottom_right in E. cbn [last] in E.
    rewrite Rabs_R1 in E. lra.
  - rewrite eps_default_R. lra.
  - simpl. discriminate.
Qed.

Lemma fold_left_Rplus (xs : list R) (a : R) :
  fold_left Rplus xs a = a + fold_right Rplus 0 xs.
Proof.
  revert a. induction xs as [|x xs IH]; intros a; simpl; [lra|].
  rewrite IH. lra.
Qed.

Lemma t_sum_R (xs : list R) : t_sum xs = fold_right Rplus 0 xs.
Proof. unfold t_sum. cbn. rewrite fold_left_Rplus, Q2R_0. lra. Qed.

Lemma t_mean_R (xs : list R) :
  t_mean xs = fold_right Rplus 0 xs / INR (List.length xs).
Proof. unfold t_mean. rewrite t_sum_R. cbn. now rewrite Q2R_inject_nat. Qed.

Lemma sum_map_affine {A : Type} (k c : R) (f : A -> R) (xs : list A) :
  fold_right Rplus 0 (map (fun x => k * (f x - c)) xs)
  = k * (fold_right Rplus 0 (map f xs) - INR (List.length xs) * c).
Proof.
  induction xs as [|x xs IH]; [simpl; lra|].
  cbn [map fold_right List.length]. rewrite IH, S_INR. lra.
Qed.

Lemma sum_map_scale {A : Type} (k : R) (f : A -> R) (xs : list A) :
  fold_right Rplus 0 (map (fun x => k * f x) xs)
  = k * fold_right Rplus 0 (map f xs).
Proof.
  induction xs as [|x xs IH]; [simpl; lra|].
  cbn [map fold_right]. rewrite IH. lra.
Qed.

Lemma sum_map_nonneg {A : Type} (f : A -> R) (xs : list A) :
  (forall x, 0 <= f x) -> 0 <= fold_right Rplus 0 (map f xs).
Proof.
  intros Hf. induction xs as [|x xs IH]; [simpl; lra|].
  cbn [map fold_right]. specialize (Hf x). lra.
Qed.

Lemma distance_R (c p : R * R) :
  distance c p
  = R_sqrt.sqrt ((fst p - fst c) * (fst p - fst c) + (snd p - snd c) * (snd p - snd c)).
Proof. reflexivity. Qed.

Lemma distance_nonneg (c p : R * R) : 0 <= distance c p.
Proof. rewrite distance_R. apply sqrt_pos. Qed.

Lemma mean_distance_nonneg (c : R * R) (pts : list (R * R)) :
  0 <= mean_distance c pts.
Proof.
  unfold mean_distance. rewrite t_mean_R, length_map.
  destruct pts as [|p pts].
  - simpl. unfold Rdiv. rewrite Rinv_0. lra.
  - apply Rmult_le_pos.
    + apply sum_map_nonneg. intros x. apply distance_nonneg.
    + left. apply Rinv_0_lt_compat. apply lt_0_INR. simpl. lia.
Qed.

(** The normalised points are the centred points scaled by
    s = sqrt(2) / (m + eps). *)
Lemma normalize_points_1_points (eps : R) (pts : list (R * R)) :
  let c := centroid pts in
  let s := R_sqrt.sqrt 2 / (mean_distance c pts + eps) in
  fst (normalize_points_1 eps pts)
  = map (fun p => (s * (fst p - fst c), s * (snd p - snd c))) pts.
Proof.
  intros c s. unfold normalize_points_1. cbn [fst]. fold c. unfold transform_points.
  apply map_ext. intros p. unfold matvec, dot. cbn [map map2 nth].
  rewrite !t_sum_R. cbn [fold_right].
  cbn [fadd fsub fmul fdiv fneg fsqrt lit one zero Scalar_R].
  rewrite Q2R_0, Q2R_1.
  replace (Q2R 2) with 2 by (unfold Q2R; simpl; lra). fold s.
  apply f_equal2; field.
Qed.

Lemma distance_scaled (s : R) (c p : R * R) :
  0 <= s ->
  distance (0, 0) (s * (fst p - fst c), s * (snd p - snd c)) = s * distance c p.
Proof.
  intros Hs. rewrite !distance_R. cbn [fst snd].
  set (dx := fst p - fst c). set (dy := snd p - snd c).
  replace ((s * dx - 0) * (s * dx - 0) + (s * dy - 0) * (s * dy - 0))
    with ((s * s) * (dx * dx + dy * dy)) by ring.
  rewrite sqrt_mult_alt by nra. rewrite sqrt_square by assumption. reflexivity.
Qed.

Lemma normalize_points_1_statistics (eps : R) (pts : list (R * R)) :
  0 < eps -> pts <> [] ->
  let m := mean_distance (centroid pts) pts in
  let normalized := fst (normalize_points_1 eps pts) in
  centroid normalized = (0, 0) /\
  mean_distance (centroid normalized) normalized = R_sqrt.sqrt 2 * m / (m + eps) /\
  0 <= m.
Proof.
  intros Heps Hne m normalized.
  assert (Hm : 0 <= m) by apply mean_distance_nonneg.
  assert (Hn : INR (List.length pts) <> 0).
  { apply not_0_INR. destruct pts; [congruence | simpl; lia]. }
  set (c := centroid pts).
  set (s := R_sqrt.sqrt 2 / (m + eps)).
  assert (Hs : 0 <= s).
  { unfold s. apply Rmult_le_pos; [apply sqrt_pos|].
    left. apply Rinv_0_lt_compat. lra. }
  assert (HN : normalized = map (fun p => (s * (fst p - fst c), s * (snd p - snd c))) pts)
    by apply normalize_points_1_points.
  assert (Hc : centroid normalized = (0, 0)).
  { rewrite HN. unfold centroid. rewrite !map_map. cbn [fst snd].
    rewrite !t_mean_R, !length_map.
    rewrite (sum_map_affine s (fst c) fst pts), (sum_map_affine s (snd c) snd pts).
    unfold c, centroid. cbn [fst snd]. rewrite !t_mean_R.
    rewrite !length_map. apply injective_projections; cbn [fst snd]; field; assumption. }
  split; [assumption|]. split; [|assumption].
  rewrite Hc, HN. unfold mean_distance at 1. rewrite map_map.
  rewrite (map_ext _ (fun p => s * distance c p))
    by (intros p; now apply distance_scaled).
  rewrite t_mean_R, length_map, sum_map_scale.
  assert (Hmdef : m = fold_right Rplus 0 (map (distance c) pts) / INR (List.length pts)).
  { unfold m, mean_distance. now rewrite t_mean_R, length_map. }
  replace (fold_right Rplus 0 (map (distance c) pts)) with (m * INR (List.length pts))
    by (rewrite Hmdef; field; assumption).
  unfold s, point. field. unfold point in Hn. split; [lra | assumption].
Qed.

Lemma mean_distance_single_point (p : R * R) :
  mean_distance (centroid [p]) [p] = 0.
Proof.
  unfold mean_distance. rewrite t_mean_R. cbn [map fold_right List.length].
  rewrite distance_R. unfold centroid. cbn [map fst snd]. rewrite !t_mean_R.
  cbn [fold_right List.length INR].
  replace ((fst p - (fst p + 0) / 1) * (fst p - (fst p + 0) / 1)
           + (snd p - (snd p + 0) / 1) * (snd p - (snd p + 0) / 1)) with 0 by field.
  rewrite sqrt_0. field.
Qed.

(** C7, as amended: over the reals, for eps > 0 and a non-empty point set whose
    mean distance from its centroid is m, the normalised points have their
    centroid at the origin and their mean distance from it is
    sqrt(2) * m / (m + eps). *)
Theorem normalize_points_statistics (points : list (list (point R))) (eps : R)
    (k : nat) (pts : list (point R)) :
  0 < eps -> nth_error points k = Some pts -> pts <> [] ->
  exists normalized,
    nth_error (fst (normalize_points points eps)) k = Some normalized /\
    centroid normalized = (0, 0) /\
    mean_distance (centroid normalized) normalized
    = R_sqrt.sqrt 2 * mean_distance (centroid pts) pts
      / (mean_distance (centroid pts) pts + eps) /\
    0 <= mean_distance (centroid pts) pts.
Proof.
  intros Heps Hk Hne. exists (fst (normalize_points_1 eps pts)). split.
  - unfold normalize_points. cbn [fst]. rewrite map_map.
    erewrite nth_error_map_some by eassumption. reflexivity.
  - now apply normalize_points_1_statistics.
Qed.

Lemma normalize_points_statistics_witness :
  exists normalized,
    nth_error (fst (normalize_points [[(0, 0); (2, 0)]] eps_default)) 0 = Some normalized /\
    centroid normalized = (0, 0) /\
    mean_distance (centroid normalized) normalized
    = R_sqrt.sqrt 2 * mean_distance (centroid [(0, 0); (2, 0)]) [(0, 0); (2, 0)]
      / (mean_distance (centroid [(0, 0); (2, 0)]) [(0, 0); (2, 0)] + eps_default) /\
    0 <= mean_distance (centroid [(0, 0); (2, 0)]) [(0, 0); (2, 0)].
Proof.
  apply (normalize_points_statistics [[(0, 0); (2, 0)]] eps_default 0 [(0, 0); (2, 0)]).
  - rewrite eps_default_R. lra.
  - reflexivity.
  - discriminate.
Defined.

(** C7 fails as stated: the normalised single point has mean distance 0 from
    its centroid, which is not within 1/10 of sqrt(2). *)
Lemma normalize_points_single_point :
  ~ Rabs (mean_distance
            (centroid (hd [] (fst (normalize_points [[(3, 4)]] eps_default))))
            (hd [] (fst (normalize_points [[(3, 4)]] eps_default)))
          - R_sqrt.sqrt 2) <= / 10.
Proof.
  change (hd [] (fst (normalize_points [[(3, 4)]] eps_default)))
    with (fst (normalize_points_1 (@eps_default R _) [(3, 4)])).
  destruct (normalize_points_1_statistics (@eps_default R _) [(3, 4)]) as (_ & Hd & _).
  - rewrite eps_default_R. lra.
  - discriminate.
  - rewrite Hd, mean_distance_single_point.
    assert (1 < R_sqrt.sqrt 2).
    { rewrite <- sqrt_1 at 1. apply sqrt_lt_1; lra. }
    unfold Rdiv. rewrite Rmult_0_r, Rmult_0_l.
    rewrite Rabs_left by lra. lra.
Qed.

Close Scope R_scope.

(** ** The cubic solver and the unguarded division, on binary64 *)

Open Scope float_scope.

(** C2: on the coefficients (0, 1, 0, -1), that is x^2 - 1 = 0, [solve_cubic]
    returns (0, 0, 0), while [solve_quadratic] on (1, 0, -1) returns (1, -1). *)
Theorem solve_cubic_second_order_misses_c_zero (pw : float -> float -> float)
    (ac cs : float -> float) :
  @solve_cubic float (binary64 pw ac cs) [(0, 1, 0, -1)] = Ok [(0, 0, 0)]
  /\ @solve_quadratic float (binary64 pw ac cs) [(1, 0, -1)] = Ok [(1, -1)].
Proof.
  split.
  - rewrite (@solve_cubic_rows float (binary64 pw ac cs) (ScalarLaws_binary64 pw ac cs)).
    reflexivity.
  - rewrite solve_quadratic_rows. reflexivity.
Qed.

(** C6: on the coefficients (1, 0, 0, 1), that is x^3 + 1 = 0 with Q = 0 and
    R = -1/2, the first slot of [solve_cubic] is pow(-1, 1/3) - 0, the power of
    a negative base, and not the real root -1. *)
Theorem solve_cubic_Q_zero_negative_R (pw : float -> float -> float)
    (ac cs : float -> float) :
  @solve_cubic float (binary64 pw ac cs) [(1, 0, 0, 1)]
  = Ok [(pw (-1) 0x1.5555555555555p-2 - 0, 0, 0)].
Proof.
  rewrite (@solve_cubic_rows float (binary64 pw ac cs) (ScalarLaws_binary64 pw ac cs)).
  reflexivity.
Qed.

Lemma is_nan_Prim2SF (x : float) : PrimFloat.is_nan x = true -> Prim2SF x = S754_nan.
Proof.
  unfold PrimFloat.is_nan. rewrite FloatAxioms.eqb_spec. intros E.
  destruct (Prim2SF x) as [s | s | | s m e] eqn:P; try reflexivity.
  - destruct s; discriminate.
  - destruct s; discriminate.
  - exfalso. revert E. unfold SFeqb, SFcompare. destruct s.
    + rewrite Z.compare_refl, Pos.compare_cont_refl. discriminate.
    + rewrite Z.compare_refl, Pos.compare_cont_refl. discriminate.
Qed.

Lemma is_nan_sub (x y : float) : PrimFloat.is_nan x = true -> PrimFloat.is_nan (x - y) = true.
Proof.
  intros E. apply is_nan_Prim2SF in E.
  unfold PrimFloat.is_nan. rewrite FloatAxioms.eqb_spec, FloatAxioms.sub_spec, E. reflexivity.
Qed.

(** When the power of the negative base is NaN, as [torch.pow] makes it, so is
    the root that [solve_cubic] reports for x^3 + 1 = 0. *)
Lemma solve_cubic_Q_zero_negative_R_nan (pw : float -> float -> float)
    (ac cs : float -> float) :
  PrimFloat.is_nan (pw (-1) 0x1.5555555555555p-2) = true ->
  exists x0,
    @solve_cubic float (binary64 pw ac cs) [(1, 0, 0, 1)] = Ok [(x0, 0, 0)] /\
    PrimFloat.is_nan x0 = true.
Proof.
  intros E. exists (pw (-1) 0x1.5555555555555p-2 - 0). split.
  - rewrite (@solve_cubic_rows float (binary64 pw ac cs) (ScalarLaws_binary64 pw ac cs)).
    reflexivity.
  - now apply is_nan_sub.
Qed.

(** C9: [solve_quadratic] divides by the leading coefficient and by nothing
    else, and no test of that coefficient guards the division.  With an
    arithmetic that records the divisors: the tensor inv_2a holds for every row
    of the batch, selected or not, a quotient whose divisor is a; both roots of
    a row that the masks select are products with that quotient and carry the
    divisor a, whatever a is, and the roots of the other rows carry none; when
    a == 0 is false for every row, divisor == 0 is false for every divisor
    that reaches the result; on the coefficients (0, 1, 0), where a == 0 and
    delta > 0, the returned roots are NaN and -infinity. *)
Theorem solve_quadratic_unguarded_division :
  (forall (T : Type) (S : Scalar T) (coeffs : list (T * T * T)) (i : nat) (r : T * T * T),
      nth_error coeffs i = Some r ->
      exists solution s inv_2a,
        @solve_quadratic _ traced (map trace_coeffs coeffs) = Ok solution /\
        nth_error solution i = Some s /\
        nth_error (@quadratic_inv_2a _ traced (map qa (map trace_coeffs coeffs))) i
        = Some inv_2a /\
        divisors inv_2a = [qa r] /\
        if row_mask r
        then s = (@fmul _ traced
                    (@fadd _ traced (@fneg _ traced (untraced (qb r)))
                       (@fsqrt _ traced (@row_delta _ traced (trace_coeffs r))))
                    inv_2a,
                  @fmul _ traced
                    (@fsub _ traced (@fneg _ traced (untraced (qb r)))
                       (@fsqrt _ traced (@row_delta _ traced (trace_coeffs r))))
                    inv_2a)
             /\ divisors (fst s) = [qa r] /\ divisors (snd s) = [qa r]
        else root_divisors s = [])
  /\ (forall (T : Type) (S : Scalar T) (coeffs : list (T * T * T)),
        (forall r, In r coeffs -> feqb (qa r) zero = false) ->
        exists solution,
          @solve_quadratic _ traced (map trace_coeffs coeffs) = Ok solution /\
          forall s d, In s solution -> In d (root_divisors s) -> feqb d zero = false)
  /\ (forall (pw : float -> float -> float) (ac cs : float -> float),
        @solve_quadratic float (binary64 pw ac cs) [(0, 1, 0)]
        = Ok [(nan, neg_infinity)] /\
        PrimFloat.eqb 0 (@zero float (binary64 pw ac cs)) = true /\
        PrimFloat.ltb 0 (@row_delta float (binary64 pw ac cs) (0, 1, 0)) = true /\
        PrimFloat.is_finite nan = false /\ PrimFloat.is_finite neg_infinity = false).
Proof.
  split; [|split].
  - intros T S coeffs i r Hi. do 3 eexists. split; [apply solve_quadratic_rows|].
    split; [rewrite map_map; apply nth_error_map_some; exact Hi|].
    split.
    { unfold quadratic_inv_2a, s_div. rewrite !map_map.
      apply nth_error_map_some. exact Hi. }
    split; [reflexivity|].
    unfold quadratic_row.
    change (row_mask (trace_coeffs r)) with (row_mask r).
    destruct (row_mask r); cbn; auto.
  - intros T S coeffs Hnz. eexists. split; [apply solve_quadratic_rows|].
    intros s d Hs Hd. rewrite map_map in Hs. apply in_map_iff in Hs as [r [<- Hr]].
    specialize (Hnz r Hr). unfold quadratic_row in Hd.
    destruct (row_mask (trace_coeffs r)); cbn in Hd; intuition (subst; auto).
  - intros pw ac cs. rewrite solve_quadratic_rows. repeat split.
Qed.

(** The zero with the sign bit set is a zero for the comparison of the code,
    and the division by it gives roots that are not finite either. *)
Lemma solve_quadratic_negative_zero (pw : float -> float -> float)
    (ac cs : float -> float) :
  @solve_quadratic float (binary64 pw ac cs) [(-0, 1, 0)] = Ok [(nan, infinity)]
  /\ PrimFloat.eqb (-0) (@zero float (binary64 pw ac cs)) = true.
Proof. rewrite solve_quadratic_rows. split; reflexivity. Qed.

(** C5, the counterexample on binary64: for a = 2^-1074, b = 1, c = 0 the
    leading coefficient is not zero and the discriminant is positive; the
    quotient 0.5 / a overflows, so the code returns (NaN, -infinity), while
    (-b + sqrt delta) / (2a) is 0. *)
Lemma solve_quadratic_formula_binary64 :
  (forall (pw : float -> float -> float) (ac cs : float -> float),
      PrimFloat.eqb 0x1p-1074 (@zero float (binary64 pw ac cs)) = false
      /\ PrimFloat.ltb 0 (@row_delta float (binary64 pw ac cs) (0x1p-1074, 1, 0)) = true
      /\ @solve_quadratic float (binary64 pw ac cs) [(0x1p-1074, 1, 0)]
         = Ok [(nan, neg_infinity)])
  /\ (- (1) + PrimFloat.sqrt (1 * 1 - 4 * 0x1p-1074 * 0)) / (2 * 0x1p-1074) = 0
  /\ (- (1) - PrimFloat.sqrt (1 * 1 - 4 * 0x1p-1074 * 0)) / (2 * 0x1p-1074)
     = neg_infinity
  /\ PrimFloat.is_nan nan = true /\ PrimFloat.is_nan 0 = false.
Proof.
  split; [|repeat split].
  intros pw ac cs. rewrite solve_quadratic_rows. repeat split.
Qed.

(** The examples of the quadratic solver on binary64. *)
Lemma solve_quadratic_binary64_examples (pw : float -> float -> float)
    (ac cs : float -> float) :
  @solve_quadratic float (binary64 pw ac cs) [(1, -3, 2); (1, 2, 5); (1, 2, 1)]
  = Ok [(2, 1); (0, 0); (0, 0)].
Proof. rewrite solve_quadratic_rows. reflexivity. Qed.

(** On binary64 as well the second pass of [normalize_transformation]
    rescales: the all-twos 2x2 matrix. *)
Lemma normalize_transformation_binary64_rescales (pw : float -> float -> float)
    (ac cs : float -> float) :
  @normalize_transformation float (binary64 pw ac cs)
    (@normalize_transformation float (binary64 pw ac cs) [[2; 2]; [2; 2]]
       (@eps_default float (binary64 pw ac cs)))
    (@eps_default float (binary64 pw ac cs))
  <> @normalize_transformation float (binary64 pw ac cs) [[2; 2]; [2; 2]]
       (@eps_default float (binary64 pw ac cs)).
Proof.
  intros E.
  apply (f_equal (fun M => PrimFloat.eqb (@entry float (binary64 pw ac cs) M 0 0)
                             (2 / (2 + 0x1.5798ee2308c3ap-27)))) in E.
  vm_compute in E. discriminate.
Qed.

Close Scope float_scope.

Lemma solve_quadratic_unguarded_division_witness :
  (exists solution s inv_2a,
     @solve_quadratic _ traced (map trace_coeffs [(1, -3, 2)%R]) = Ok solution /\
     nth_error solution 0 = Some s /\
     nth_error (@quadratic_inv_2a _ traced (map qa (map trace_coeffs [(1, -3, 2)%R]))) 0
     = Some inv_2a /\
     divisors inv_2a = [qa (1, -3, 2)%R] /\
     if row_mask (1, -3, 2)%R
     then s = (@fmul _ traced
                 (@fadd _ traced (@fneg _ traced (untraced (qb (1, -3, 2)%R)))
                    (@fsqrt _ traced (@row_delta _ traced (trace_coeffs (1, -3, 2)%R))))
                 inv_2a,
               @fmul _ traced
                 (@fsub _ traced (@fneg _ traced (untraced (qb (1, -3, 2)%R)))
                    (@fsqrt _ traced (@row_delta _ traced (trace_coeffs (1, -3, 2)%R))))
                 inv_2a)
          /\ divisors (fst s) = [qa (1, -3, 2)%R] /\ divisors (snd s) = [qa (1, -3, 2)%R]
     else root_divisors s = [])
  /\ exists solution,
       @solve_quadratic _ traced (map trace_coeffs [(1, -3, 2)%R]) = Ok solution /\
       forall s d, In s solution -> In d (root_divisors s) -> feqb d zero = false.
Proof.
  split.
  - apply (proj1 solve_quadratic_unguarded_division R Scalar_R [(1, -3, 2)%R] 0
             (1, -3, 2)%R).
    reflexivity.
  - apply (proj1 (proj2 solve_quadratic_unguarded_division) R Scalar_R [(1, -3, 2)%R]).
    intros r [<- | []]. cbn. apply Reqb_false. rewrite Q2R_0, <- Q2R_1.
    unfold Q2R. simpl. lra.
Defined.

(** ** The estimators *)

Section Dispatch.

Context {T : Type} `{Scalar T}.

Variable svd : matrix T -> matrix T * list T * matrix T.

Variable upper : string -> string.

(** C1: [run_7point] never returns: on every input it stops with an exception,
    at the latest with the [TypeError] of the call of [solve_cubic] with four
    positional arguments. *)
Theorem run_7point_never_returns (points1 points2 : list (list (point T))) :
  exists e,
    run_7point svd points1 points2 = Raise e /\
    (e = ShapeError \/ e = IndexError
     \/ e = TypeError "wrong number of positional arguments").
Proof.
  unfold run_7point.
  destruct (check_shape_B_7_2 points1) as [[]|e1] eqn:E1; cbn [bind].
  2:{ unfold check_shape_B_7_2 in E1. destruct (forallb _ _); inversion E1. eauto. }
  destruct (check_shape_B_7_2 points2) as [[]|e2] eqn:E2; cbn [bind].
  2:{ unfold check_shape_B_7_2 in E2. destruct (forallb _ _); inversion E2. eauto. }
  destruct (normalize_points points1 eps_default) as [points1_norm transform1].
  destruct (normalize_points points2 eps_default) as [points2_norm transform2].
  destruct (map _ (map2 design_matrix points1_norm points2_norm)) as [|v0 v];
    cbn [bind]; [eauto|].
  destruct (forallb _ v0); cbn [bind]; [|eauto].
  destruct (8 <? List.length v0); cbn [bind]; [|eauto].
  cbn. eauto.
Qed.

(** On a batch of at least one element, with an SVD whose V is 9x9, the
    exception is the [TypeError] of the call at line 316. *)
Lemma run_7point_TypeError (pts1 pts2 : list (point T))
    (points1 points2 : list (list (point T))) :
  check_shape_B_7_2 (pts1 :: points1) = Ok tt ->
  check_shape_B_7_2 (pts2 :: points2) = Ok tt ->
  (forall X, List.length (snd (svd X)) = 9 /\
             forallb (fun row => 8 <? List.length row) (snd (svd X)) = true) ->
  run_7point svd (pts1 :: points1) (pts2 :: points2)
  = Raise (TypeError "wrong number of positional arguments").
Proof.
  intros E1 E2 Hsvd. unfold run_7point. rewrite E1, E2. cbn [bind].
  unfold normalize_points. cbn [map fst snd map2]. cbv beta iota zeta. cbn [map fst snd map2 bind].
  destruct (Hsvd (design_matrix (fst (normalize_points_1 eps_default pts1))
                                (fst (normalize_points_1 eps_default pts2)))) as [Hl Hr].
  rewrite Hr, Hl. reflexivity.
Qed.

(** C8: [find_fundamental] calls [run_7point] when the upper-cased method is
    7POINT, [run_8point] with the weights when it is 8POINT, and raises
    [ValueError] otherwise. *)
Theorem find_fundamental_dispatch (points1 points2 : list (list (point T)))
    (weights : option (list (list T))) (method : string) :
  (upper method = "7POINT"%string ->
   find_fundamental svd upper points1 points2 weights method
   = run_7point svd points1 points2)
  /\ (upper method = "8POINT"%string ->
      find_fundamental svd upper points1 points2 weights method
      = run_8point svd points1 points2 weights)
  /\ (upper method <> "7POINT"%string -> upper method <> "8POINT"%string ->
      exists msg,
        find_fundamental svd upper points1 points2 weights method
        = Raise (ValueError msg)).
Proof.
  unfold find_fundamental. repeat split.
  - intros ->. reflexivity.
  - intros ->. reflexivity.
  - intros H7 H8.
    apply String.eqb_neq in H7, H8. rewrite H7, H8. eauto.
Qed.

End Dispatch.

Lemma find_fundamental_dispatch_witness :
  find_fundamental (fun M : matrix R => (M, [], M)) string_upper [] [] None "7point"
  = run_7point (fun M : matrix R => (M, [], M)) [] []
  /\ find_fundamental (fun M : matrix R => (M, [], M)) string_upper [] [] None "8Point"
     = run_8point (fun M : matrix R => (M, [], M)) [] [] None
  /\ exists msg,
       find_fundamental (fun M : matrix R => (M, [], M)) string_upper [] [] None "ransac"
       = Raise (ValueError msg).
Proof.
  split; [|split].
  - apply (proj1 (find_fundamental_dispatch (fun M : matrix R => (M, [], M))
                    string_upper [] [] None "7point")).
    reflexivity.
  - apply (proj1 (proj2 (find_fundamental_dispatch (fun M : matrix R => (M, [], M))
                           string_upper [] [] None "8Point"))).
    reflexivity.
  - apply (proj2 (proj2 (find_fundamental_dispatch (fun M : matrix R => (M, [], M))
                           string_upper [] [] None "ransac"))).
    + cbn. discriminate.
    + cbn. discriminate.
Defined.

Open Scope float_scope.

(** Seven correspondences in one batch element, with an SVD that returns a
    9x9 V: the call of the cubic solver raises. *)
Lemma run_7point_example (pw : float -> float -> float) (ac cs : float -> float) :
  @run_7point float (binary64 pw ac cs)
    (fun X => ([], [], repeat (repeat 0 9) 9))
    [[(0, 0); (1, 0); (0, 1); (1, 1); (2, 1); (1, 2); (2, 3)]]
    [[(0, 1); (1, 1); (0, 2); (1, 3); (2, 2); (1, 4); (3, 3)]]
  = Raise (TypeError "wrong number of positional arguments").
Proof.
  apply run_7point_TypeError.
  - reflexivity.
  - reflexivity.
  - intros X. split; reflexivity.
Qed.

Close Scope float_scope.

(** * Further properties of the code *)

(** ** The solvers over the reals *)

Open Scope R_scope.

Lemma Q2R_small (n : positive) : Q2R (Z.pos n # 1) = IZR (Z.pos n).
Proof. unfold Q2R. simpl. lra. Qed.

Lemma Q2R_tiny : Q2R (1 # 10000000000000000) = / 10000000000000000.
Proof. unfold Q2R. simpl. lra. Qed.

Lemma Rleb_true (x y : R) : x <= y -> Rleb x y = true.
Proof. intros. unfold Rleb. destruct (Rle_dec x y); [reflexivity | contradiction]. Qed.

(** The quantities of the depressed cubic, over the reals. *)
Lemma row_b_a_R (a b c d : R) : row_b_a (a, b, c, d) = b / a.
Proof. unfold row_b_a. cbn. rewrite Q2R_1. unfold Rdiv. ring. Qed.

Lemma row_b_a_3_R (a b c d : R) : row_b_a_3 (a, b, c, d) = b / a / 3.
Proof.
  unfold row_b_a_3. rewrite row_b_a_R. cbn. rewrite Q2R_1, (Q2R_small 3).
  unfold Rdiv. ring.
Qed.

Lemma row_Q_R (a b c d : R) :
  row_Q (a, b, c, d) = (3 * (c / a) - (b / a) * (b / a)) / 9.
Proof.
  unfold row_Q, row_b_a2, row_c_a. rewrite row_b_a_R. cbn.
  rewrite Q2R_1, (Q2R_small 3), (Q2R_small 9). unfold Rdiv. ring.
Qed.

Lemma row_R_R (a b c d : R) :
  row_R (a, b, c, d)
  = (9 * (b / a) * (c / a) - 27 * (d / a) - 2 * (b / a) * ((b / a) * (b / a))) / 54.
Proof.
  unfold row_R, row_b_a2, row_c_a, row_d_a. rewrite row_b_a_R. cbn.
  rewrite Q2R_1, (Q2R_small 2), (Q2R_small 9), (Q2R_small 27), (Q2R_small 54).
  unfold Rdiv. ring.
Qed.

Lemma row_D_R (r : R * R * R * R) :
  row_D r = row_Q r * row_Q r * row_Q r + row_R r * row_R r.
Proof. reflexivity. Qed.

(** With x = t - b/(3a), the cubic is a times the depressed cubic in t. *)
Lemma depressed_cubic (a b c d t : R) :
  a <> 0 ->
  let x := t - b / a / 3 in
  a * x * x * x + b * x * x + c * x + d
  = a * (t * t * t + 3 * row_Q (a, b, c, d) * t - 2 * row_R (a, b, c, d)).
Proof. intros Ha x. subst x. rewrite row_Q_R, row_R_R. field. assumption. Qed.

Lemma cube_root_cubed (w : R) :
  0 < w -> let u := Rpower w (1 / 3) in 0 < u /\ u * u * u = w.
Proof.
  intros Hw u. split.
  - unfold u, Rpower. apply exp_pos.
  - replace (u * u * u) with (u ^ 3) by ring.
    rewrite <- Rpower_pow by (unfold u, Rpower; apply exp_pos).
    unfold u. rewrite Rpower_mult.
    replace (1 / 3 * INR 3) with 1 by (simpl; field).
    now apply Rpower_1.
Qed.

(** The row of a cubic with a <> 0, by the values of Q, R and D. *)
Lemma cubic_row_R (f : bool) (r : R * R * R * R) :
  ca r <> 0 ->
  cubic_row f r
  = if Reqb (row_Q r) 0 then
      if Reqb (row_R r) 0
      then (- row_b_a_3 r, - row_b_a_3 r, - row_b_a_3 r)
      else (Rpower (2 * row_R r) (1 / 3) - row_b_a_3 r, 0, 0)
    else if Rleb (row_D r) 0 then
      (if Rltb 0 (row_D r)
       then set_c0 (row_trig r) (row_AD f r + row_BD f r - row_b_a_3 r)
       else row_trig r)
    else if Rltb 0 (row_D r)
         then (row_AD f r + row_BD f r - row_b_a_3 r, 0, 0)
         else (0, 0, 0).
Proof.
  intros Ha. unfold cubic_row, row_nz, fneb, fgtb, set_c0, set_c01.
  set (Q := row_Q r). set (Rr := row_R r). set (D := row_D r).
  set (b3 := row_b_a_3 r). set (AD := row_AD f r). set (BD := row_BD f r).
  set (tr := row_trig r). set (qr := quadratic_row _).
  cbn [feqb fltb fleb fsub fadd fneg fpow fmul fdiv lit Scalar_R zero one].
  rewrite Q2R_0, Q2R_1, (Q2R_small 2), (Q2R_small 3).
  rewrite (Reqb_false (ca r) 0 Ha). cbn [andb negb].
  destruct (Reqb Q 0), (Reqb Rr 0), (Rleb D 0), (Rltb 0 D); cbn [andb negb fst snd];
    reflexivity.
Qed.

Lemma batch_any_R_true (coeffs : list (R * R * R * R)) (i : nat) (r : R * R * R * R) :
  nth_error coeffs i = Some r -> ca r <> 0 ->
  / 10000000000000000 < Rabs (row_R r) ->
  batch_any_R coeffs = true.
Proof.
  intros Hi Ha HR. unfold batch_any_R. apply existsb_exists. exists r. split.
  - eapply nth_error_In; eassumption.
  - unfold row_nz, row_R_positive, fgtb.
    cbn [feqb fltb fabs lit Scalar_R zero]. rewrite Q2R_0, Q2R_tiny.
    rewrite (Reqb_false _ _ Ha), (Rltb_true _ _ HR). reflexivity.
Qed.

(** Cardano's formula gives a root of the depressed cubic. *)
Lemma cardano_depressed (Q Rr : R) :
  let D := Q * Q * Q + Rr * Rr in
  let u := Rpower (Rabs Rr + R_sqrt.sqrt D) (1 / 3) in
  let AD := if Rltb Rr 0 then - u else u in
  let BD := - Q / AD in
  let t := AD + BD in
  0 < D -> Rr <> 0 ->
  t * t * t + 3 * Q * t - 2 * Rr = 0.
Proof.
  intros D u AD BD t HD HR.
  assert (HsD : R_sqrt.sqrt D * R_sqrt.sqrt D = D) by (apply sqrt_sqrt; lra).
  assert (HsD0 : 0 < R_sqrt.sqrt D) by (apply sqrt_lt_R0; assumption).
  set (sD := R_sqrt.sqrt D) in *.
  assert (Hw : 0 < Rabs Rr + sD) by (pose proof (Rabs_pos Rr); lra).
  destruct (cube_root_cubed _ Hw) as [Hu Hu3]. fold u in Hu, Hu3.
  assert (HAD : AD <> 0 /\ AD * AD * AD = Rr + (if Rltb Rr 0 then - sD else sD)).
  { unfold AD. destruct (Rlt_dec Rr 0) as [Hneg | Hpos].
    - rewrite (Rltb_true _ _ Hneg). split; [lra|].
      rewrite Rabs_left in Hu3 by assumption.
      replace (- u * - u * - u) with (- (u * u * u)) by ring. rewrite Hu3. ring.
    - rewrite (Rltb_false Rr 0) by lra. split; [lra|].
      rewrite Rabs_right in Hu3 by lra. rewrite Hu3. ring. }
  destruct HAD as [HAD0 HAD3].
  set (s := if Rltb Rr 0 then - sD else sD) in *.
  assert (Hs2 : s * s = D) by (unfold s; destruct (Rltb Rr 0); rewrite <- HsD; ring).
  assert (Hprod : AD * BD = - Q) by (unfold BD; field; assumption).
  assert (HBD3 : BD * BD * BD = Rr - s).
  { apply Rmult_eq_reg_l with (AD * AD * AD).
    - replace (AD * AD * AD * (BD * BD * BD)) with ((AD * BD) * (AD * BD) * (AD * BD))
        by ring.
      rewrite Hprod, HAD3. unfold D in Hs2. nra.
    - rewrite HAD3. intros Z.
      assert (Rr * Rr = s * s) by nra.
      assert (Q * Q * Q = 0) by (unfold D in Hs2; nra).
      assert (Q = 0) by (apply Rmult_integral in H0 as [H0 | H0];
                          [apply Rmult_integral in H0 as [H0 | H0] |]; assumption).
      assert (Q * Q * Q + Rr * Rr = Rr * Rr) by (rewrite H1; ring).
      unfold s in Z. unfold D in HsD0, HsD. fold sD in Z.
      destruct (Rltb Rr 0) eqn:E.
      + unfold Rltb in E. destruct (Rlt_dec Rr 0); [|discriminate]. lra.
      + unfold Rltb in E. destruct (Rlt_dec Rr 0); [discriminate|]. lra. }
  unfold t.
  replace ((AD + BD) * (AD + BD) * (AD + BD))
    with (AD * AD * AD + BD * BD * BD + 3 * (AD * BD) * (AD + BD)) by ring.
  rewrite HAD3, HBD3, Hprod. ring.
Qed.

(** X10: Over the reals, for a row with a <> 0, Q <> 0, D > 0 and |R| > 1e-16,
    solve_cubic returns (x0, 0, 0) where x0 is a root of the cubic (Cardano's
    formula). *)
Theorem solve_cubic_cardano_root (coeffs : list (R * R * R * R)) (i : nat) (a b c d : R) :
  nth_error coeffs i = Some (a, b, c, d) ->
  a <> 0 -> row_Q (a, b, c, d) <> 0 -> 0 < row_D (a, b, c, d) ->
  / 10000000000000000 < Rabs (row_R (a, b, c, d)) ->
  exists solutions x0,
    solve_cubic coeffs = Ok solutions /\
    nth_error solutions i = Some (x0, 0, 0) /\
    a * x0 * x0 * x0 + b * x0 * x0 + c * x0 + d = 0.
Proof.
  intros Hi Ha HQ HD HR. set (r := (a, b, c, d)) in *.
  exists (map (cubic_row (batch_any_R coeffs)) coeffs).
  exists (row_AD true r + row_BD true r - row_b_a_3 r).
  split; [apply solve_cubic_rows|].
  rewrite (batch_any_R_true coeffs i r Hi Ha HR).
  split.
  - erewrite nth_error_map_some by eassumption. f_equal.
    rewrite cubic_row_R by assumption.
    rewrite (Reqb_false _ _ HQ), (Rleb_false (row_D r) 0) by lra.
    now rewrite (Rltb_true _ _ HD).
  - assert (HR0 : row_R r <> 0).
    { intros Z. rewrite Z, Rabs_R0 in HR.
      assert (0 < / 10000000000000000) by (apply Rinv_0_lt_compat; lra). lra. }
    pose proof (cardano_depressed (row_Q r) (row_R r)) as C. cbv zeta in C.
    rewrite <- row_D_R in C. specialize (C HD HR0).
    assert (E : row_AD true r + row_BD true r
                = (if Rltb (row_R r) 0
                   then - Rpower (Rabs (row_R r) + R_sqrt.sqrt (row_D r)) (1 / 3)
                   else Rpower (Rabs (row_R r) + R_sqrt.sqrt (row_D r)) (1 / 3))
                  + - row_Q r
                    / (if Rltb (row_R r) 0
                       then - Rpower (Rabs (row_R r) + R_sqrt.sqrt (row_D r)) (1 / 3)
                       else Rpower (Rabs (row_R r) + R_sqrt.sqrt (row_D r)) (1 / 3))).
    { unfold row_BD, row_AD, row_R_positive, fgtb.
      set (Q := row_Q r). set (Rr := row_R r). set (D := row_D r).
      cbn [feqb fltb fleb fsub fadd fneg fpow fmul fdiv fabs fsqrt lit Scalar_R zero one
           andb].
      rewrite Q2R_0, Q2R_1, (Q2R_small 3), Q2R_tiny.
      fold Rr in HR. rewrite (Rltb_true _ _ HR).
      destruct (Rltb Rr 0); reflexivity. }
    rewrite <- E in C. set (t := row_AD true r + row_BD true r) in *.
    replace (row_b_a_3 r) with (b / a / 3) by (symmetry; apply row_b_a_3_R).
    pose proof (depressed_cubic a b c d t Ha) as P. cbv zeta in P.
    fold r in P. rewrite P, C. ring.
Qed.

Lemma cos_3a (x : R) : Rtrigo_def.cos (3 * x)
                       = 4 * (Rtrigo_def.cos x * Rtrigo_def.cos x * Rtrigo_def.cos x)
                         - 3 * Rtrigo_def.cos x.
Proof.
  replace (3 * x) with (2 * x + x) by ring.
  rewrite cos_plus, cos_2a_cos, sin_2a.
  pose proof (sin2_cos2 x) as S. unfold Rsqr in S.
  set (c := Rtrigo_def.cos x) in *. set (s := sin x) in *.
  replace (2 * s * c * s) with (2 * c * (s * s)) by ring.
  replace (s * s) with (1 - c * c) by lra. ring.
Qed.

(** The trigonometric form gives the roots of the depressed cubic. *)
Lemma trig_depressed (Q Rr sh : R) :
  Q < 0 -> Q * Q * Q + Rr * Rr <= 0 ->
  (forall x, Rtrigo_def.cos (x + sh) = Rtrigo_def.cos x) ->
  let theta := Ratan.acos (Rr / R_sqrt.sqrt (- (Q * Q * Q))) in
  let t := 2 * R_sqrt.sqrt (- Q) * Rtrigo_def.cos ((theta + sh) / 3) in
  t * t * t + 3 * Q * t - 2 * Rr = 0.
Proof.
  intros HQ HD Hsh theta t.
  set (q := - Q) in *. assert (Hq : 0 < q) by (unfold q; lra).
  assert (Hsq : R_sqrt.sqrt q * R_sqrt.sqrt q = q) by (apply sqrt_sqrt; lra).
  assert (Hsq0 : 0 < R_sqrt.sqrt q) by (apply sqrt_lt_R0; assumption).
  set (sq := R_sqrt.sqrt q) in *.
  assert (Hroot : R_sqrt.sqrt (- (Q * Q * Q)) = q * sq).
  { apply sqrt_lem_1.
    - unfold q in *. nra.
    - nra.
    - unfold q in *. nra. }
  assert (Hpos : 0 < q * sq) by nra.
  assert (Hy : -1 <= Rr / (q * sq) <= 1).
  { assert (Rr * Rr <= (q * sq) * (q * sq)) by (unfold q in *; nra).
    assert (- (q * sq) <= Rr <= q * sq) by nra.
    split.
    - apply Rmult_le_reg_r with (q * sq); [assumption|].
      unfold Rdiv. rewrite Rmult_assoc, Rinv_l by lra. lra.
    - apply Rmult_le_reg_r with (q * sq); [assumption|].
      unfold Rdiv. rewrite Rmult_assoc, Rinv_l by lra. lra. }
  assert (Hc : Rtrigo_def.cos theta = Rr / (q * sq)).
  { unfold theta. rewrite Hroot. now apply cos_acos. }
  assert (H3 : Rtrigo_def.cos (3 * ((theta + sh) / 3)) = Rr / (q * sq)).
  { replace (3 * ((theta + sh) / 3)) with (theta + sh) by field.
    now rewrite Hsh. }
  rewrite cos_3a in H3.
  unfold t. set (c := Rtrigo_def.cos ((theta + sh) / 3)) in *.
  replace (2 * sq * c * (2 * sq * c) * (2 * sq * c) + 3 * Q * (2 * sq * c) - 2 * Rr)
    with (2 * (q * sq) * (4 * (c * c * c) - 3 * c) - 2 * Rr)
    by (unfold q in *; replace (sq * c * (sq * c) * (sq * c))
                         with ((sq * sq) * sq * (c * c * c)) by ring; nra).
  rewrite H3. field. lra.
Qed.

Lemma cos_shift (k : nat) (x : R) :
  Rtrigo_def.cos (x + 2 * INR k * PI) = Rtrigo_def.cos x.
Proof. apply cos_period. Qed.

Lemma row_trig_R (r : R * R * R * R) :
  let theta := Ratan.acos (row_R r / R_sqrt.sqrt (- (row_Q r * row_Q r * row_Q r))) in
  let root := fun sh =>
    2 * R_sqrt.sqrt (- row_Q r) * Rtrigo_def.cos ((theta + sh) / 3) - row_b_a_3 r in
  row_trig r = (root 0, root (2 * INR 1 * PI), root (2 * INR 2 * PI)).
Proof.
  intros theta root. unfold row_trig, row_Q3.
  set (Q := row_Q r) in *. set (Rr := row_R r) in *. set (b3 := row_b_a_3 r) in *.
  cbn [fsub fadd fneg fmul fdiv fsqrt facos fcos fpi lit Scalar_R].
  rewrite (Q2R_small 2), (Q2R_small 3), (Q2R_small 4). fold theta.
  unfold root. simpl INR.
  repeat f_equal; ring.
Qed.

(** X9: Over the reals, for a row with a <> 0, Q <> 0 and D <= 0, the three values
    returned by solve_cubic are roots of the cubic. *)
Theorem solve_cubic_trig_roots (coeffs : list (R * R * R * R)) (i : nat) (a b c d : R) :
  nth_error coeffs i = Some (a, b, c, d) ->
  a <> 0 -> row_Q (a, b, c, d) <> 0 -> row_D (a, b, c, d) <= 0 ->
  exists solutions x0 x1 x2,
    solve_cubic coeffs = Ok solutions /\
    nth_error solutions i = Some (x0, x1, x2) /\
    a * x0 * x0 * x0 + b * x0 * x0 + c * x0 + d = 0 /\
    a * x1 * x1 * x1 + b * x1 * x1 + c * x1 + d = 0 /\
    a * x2 * x2 * x2 + b * x2 * x2 + c * x2 + d = 0.
Proof.
  intros Hi Ha HQ HD. set (r := (a, b, c, d)) in *.
  pose proof (row_trig_R r) as Ht. cbv zeta in Ht.
  set (theta := Ratan.acos _) in Ht.
  set (root := fun sh : R => 2 * R_sqrt.sqrt (- row_Q r)
                             * Rtrigo_def.cos ((theta + sh) / 3)) in *.
  exists (map (cubic_row (batch_any_R coeffs)) coeffs).
  exists (root 0 - row_b_a_3 r), (root (2 * INR 1 * PI) - row_b_a_3 r),
    (root (2 * INR 2 * PI) - row_b_a_3 r).
  split; [apply solve_cubic_rows|]. split.
  - erewrite nth_error_map_some by eassumption. f_equal.
    rewrite cubic_row_R by assumption.
    rewrite (Reqb_false _ _ HQ), (Rleb_true _ _ HD), (Rltb_false 0 (row_D r)) by lra.
    exact Ht.
  - assert (HQneg : row_Q r < 0).
    { rewrite row_D_R in HD. destruct (Rtotal_order (row_Q r) 0) as [L | [E | G]];
        [assumption | contradiction |].
      assert (0 < row_Q r * row_Q r * row_Q r)
        by (apply Rmult_lt_0_compat; [apply Rmult_lt_0_compat|]; assumption).
      nra. }
    rewrite row_D_R in HD.
    assert (Hroot : forall sh, (forall x, Rtrigo_def.cos (x + sh) = Rtrigo_def.cos x) ->
              let x := root sh - row_b_a_3 r in
              a * x * x * x + b * x * x + c * x + d = 0).
    { intros sh Hsh x. subst x.
      pose proof (trig_depressed (row_Q r) (row_R r) sh HQneg HD Hsh) as P.
      cbv zeta in P. fold theta in P. fold (root sh) in P.
      replace (row_b_a_3 r) with (b / a / 3) by (symmetry; apply row_b_a_3_R).
      pose proof (depressed_cubic a b c d (root sh) Ha) as E. cbv zeta in E.
      fold r in E. rewrite E, P. ring. }
    repeat split.
    + apply Hroot. intros x. now rewrite Rplus_0_r.
    + apply Hroot. intros x. apply cos_shift.
    + apply Hroot. intros x. apply cos_shift.
Qed.

(** X7: Over the reals, for a row with a <> 0, Q = 0 and R = 0, solve_cubic returns
    -b/(3a) three times, and the cubic is a (x + b/(3a))^3, so this is its
    triple root. *)
Theorem solve_cubic_triple_root (coeffs : list (R * R * R * R)) (i : nat) (a b c d : R) :
  nth_error coeffs i = Some (a, b, c, d) ->
  a <> 0 -> row_Q (a, b, c, d) = 0 -> row_R (a, b, c, d) = 0 ->
  exists solutions,
    solve_cubic coeffs = Ok solutions /\
    nth_error solutions i = Some (- (b / (3 * a)), - (b / (3 * a)), - (b / (3 * a))) /\
    forall x, a * x * x * x + b * x * x + c * x + d
              = a * ((x + b / (3 * a)) * (x + b / (3 * a)) * (x + b / (3 * a))).
Proof.
  intros Hi Ha HQ HR. set (r := (a, b, c, d)) in *.
  exists (map (cubic_row (batch_any_R coeffs)) coeffs).
  split; [apply solve_cubic_rows|]. split.
  - erewrite nth_error_map_some by eassumption. f_equal.
    rewrite cubic_row_R by assumption.
    rewrite (Reqb_true _ _ HQ), (Reqb_true _ _ HR).
    unfold r. rewrite row_b_a_3_R.
    replace (b / a / 3) with (b / (3 * a)) by (field; assumption). reflexivity.
  - intros x.
    pose proof (depressed_cubic a b c d (x + b / a / 3) Ha) as P. cbv zeta in P.
    fold r in P. rewrite HQ, HR in P.
    replace (x + b / a / 3 - b / a / 3) with x in P by ring.
    rewrite P. field. assumption.
Qed.

(** X8: Over the reals, for a row with a <> 0, Q = 0 and R > 0, solve_cubic returns
    (x0, 0, 0) where x0 is a root of the cubic. *)
Theorem solve_cubic_Q_zero_root (coeffs : list (R * R * R * R)) (i : nat) (a b c d : R) :
  nth_error coeffs i = Some (a, b, c, d) ->
  a <> 0 -> row_Q (a, b, c, d) = 0 -> 0 < row_R (a, b, c, d) ->
  exists solutions x0,
    solve_cubic coeffs = Ok solutions /\
    nth_error solutions i = Some (x0, 0, 0) /\
    a * x0 * x0 * x0 + b * x0 * x0 + c * x0 + d = 0.
Proof.
  intros Hi Ha HQ HR. set (r := (a, b, c, d)) in *.
  exists (map (cubic_row (batch_any_R coeffs)) coeffs).
  exists (Rpower (2 * row_R r) (1 / 3) - row_b_a_3 r).
  split; [apply solve_cubic_rows|]. split.
  - erewrite nth_error_map_some by eassumption. f_equal.
    rewrite cubic_row_R by assumption.
    rewrite (Reqb_true _ _ HQ), (Reqb_false (row_R r) 0) by lra. reflexivity.
  - assert (Hw : 0 < 2 * row_R r) by lra.
    destruct (cube_root_cubed _ Hw) as [Hu Hu3].
    set (u := Rpower (2 * row_R r) (1 / 3)) in *.
    replace (row_b_a_3 r) with (b / a / 3) by (symmetry; apply row_b_a_3_R).
    pose proof (depressed_cubic a b c d u Ha) as P. cbv zeta in P.
    fold r in P. rewrite P, HQ, Hu3. ring.
Qed.

(** X11: Over the reals, for a row with a <> 0, Q <> 0, D > 0 and |R| <= 1e-16,
    solve_cubic skips the Cardano terms and returns (-b/(3a), 0, 0), which is a
    root when R = 0. *)
Theorem solve_cubic_cardano_small_R (coeffs : list (R * R * R * R)) (i : nat)
    (a b c d : R) :
  nth_error coeffs i = Some (a, b, c, d) ->
  a <> 0 -> row_Q (a, b, c, d) <> 0 -> 0 < row_D (a, b, c, d) ->
  Rabs (row_R (a, b, c, d)) <= / 10000000000000000 ->
  exists solutions,
    solve_cubic coeffs = Ok solutions /\
    nth_error solutions i = Some (- (b / (3 * a)), 0, 0) /\
    (row_R (a, b, c, d) = 0 ->
     let x0 := - (b / (3 * a)) in a * x0 * x0 * x0 + b * x0 * x0 + c * x0 + d = 0).
Proof.
  intros Hi Ha HQ HD HR. set (r := (a, b, c, d)) in *.
  exists (map (cubic_row (batch_any_R coeffs)) coeffs).
  split; [apply solve_cubic_rows|]. split.
  - erewrite nth_error_map_some by eassumption. f_equal.
    rewrite cubic_row_R by assumption.
    rewrite (Reqb_false _ _ HQ), (Rleb_false (row_D r) 0), (Rltb_true _ _ HD) by lra.
    assert (E : row_AD (batch_any_R coeffs) r = 0 /\ row_BD (batch_any_R coeffs) r = 0).
    { unfold row_BD, row_AD, row_R_positive, fgtb.
      set (Q := row_Q r). set (Rr := row_R r) in *. set (D := row_D r).
      cbn [feqb fltb fleb fsub fadd fneg fpow fmul fdiv fabs fsqrt lit Scalar_R zero one].
      rewrite Q2R_0, Q2R_tiny. rewrite (Rltb_false _ _ HR).
      rewrite andb_false_r.
      destruct (batch_any_R coeffs), (Rltb Rr 0); split; try reflexivity; ring. }
    destruct E as [-> ->]. unfold r. rewrite row_b_a_3_R.
    do 2 f_equal. field. assumption.
  - intros HR0 x0. subst x0.
    pose proof (depressed_cubic a b c d 0 Ha) as P. cbv zeta in P.
    fold r in P. rewrite HR0 in P.
    replace (- (b / (3 * a))) with (0 - b / a / 3) by (field; assumption).
    rewrite P. ring.
Qed.

Close Scope R_scope.

(** ** The solvers on a batch *)

Section SolverTotality.

Context {T : Type} `{Scalar T}.

(** X1: solve_quadratic never raises, returns one pair per row, and solves every row
    on its own: the result on the concatenation of two batches is the
    concatenation of the results. *)
Theorem solve_quadratic_batch (xs ys : list (T * T * T)) :
  exists sx sy,
    solve_quadratic xs = Ok sx /\ solve_quadratic ys = Ok sy /\
    solve_quadratic (xs ++ ys) = Ok (sx ++ sy) /\
    List.length sx = List.length xs.
Proof.
  exists (map quadratic_row xs), (map quadratic_row ys).
  rewrite !solve_quadratic_rows, map_app, length_map. repeat split.
Qed.

Context `{!ScalarLaws T}.

(** X4: For any arithmetic in which 1 == 0, 1 <= 0 and 0 < 0 are false, solve_cubic
    raises no exception and returns one triple per row of the batch. *)
Theorem solve_cubic_returns (coeffs : list (T * T * T * T)) :
  exists solutions,
    solve_cubic coeffs = Ok solutions /\ List.length solutions = List.length coeffs.
Proof.
  eexists. split; [apply solve_cubic_rows|]. apply length_map.
Qed.

(** X5: For a row with a == 0 and b == 0, solve_cubic returns (0, 0, 0) when c == 0
    and (1, 0, 0) otherwise, whatever c and d are: the linear equation c x + d =
    0 is not solved. *)
Theorem solve_cubic_low_order (coeffs : list (T * T * T * T)) (i : nat)
    (r : T * T * T * T) :
  nth_error coeffs i = Some r ->
  feqb (ca r) zero = true -> feqb (cb r) zero = true ->
  exists solutions,
    solve_cubic coeffs = Ok solutions /\
    nth_error solutions i
    = Some (if feqb (cc r) zero then (zero, zero, zero) else (one, zero, zero)).
Proof.
  intros Hi Ha Hb. eexists. split; [apply solve_cubic_rows|].
  erewrite nth_error_map_some by eassumption. f_equal.
  unfold cubic_row, row_nz. rewrite Ha, Hb.
  destruct (feqb (cc r) zero); reflexivity.
Qed.

End SolverTotality.

Open Scope R_scope.

Lemma solve_cubic_returns_witness :
  exists solutions,
    solve_cubic [(1, 0, 0, -8)] = Ok solutions /\
    List.length solutions = List.length [(1, 0, 0, -8)].
Proof.
  apply (solve_cubic_returns [(1, 0, 0, -8)]).
Defined.

Lemma solve_cubic_low_order_witness :
  exists solutions,
    solve_cubic [(0, 0, 2, 1)] = Ok solutions /\
    nth_error solutions 0%nat
    = Some (if feqb (cc (0, 0, 2, 1)) zero then (zero, zero, zero) else (one, zero, zero)).
Proof.
  apply (solve_cubic_low_order [(0, 0, 2, 1)] 0%nat (0, 0, 2, 1)).
  - reflexivity.
  - cbn. apply Reqb_true. rewrite Q2R_0. reflexivity.
  - cbn. apply Reqb_true. rewrite Q2R_0. reflexivity.
Defined.

Lemma quadratic_row_R_roots (a b c : R) :
  a <> 0 -> 0 < b * b - 4 * a * c ->
  exists x0 x1,
    quadratic_row (a, b, c) = (x0, x1) /\
    a * x0 * x0 + b * x0 + c = 0 /\
    a * x1 * x1 + b * x1 + c = 0 /\
    x0 <> x1.
Proof.
  intros Ha Hd.
  set (s := R_sqrt.sqrt (b * b - 4 * a * c)).
  assert (Hs : s * s = b * b - 4 * a * c) by (apply sqrt_sqrt; lra).
  assert (Hs0 : 0 < s) by (apply sqrt_lt_R0; assumption).
  exists ((- b + s) / (2 * a)), ((- b - s) / (2 * a)).
  split; [now apply quadratic_row_R_positive|].
  repeat split.
  - replace (a * ((- b + s) / (2 * a)) * ((- b + s) / (2 * a))
             + b * ((- b + s) / (2 * a)) + c)
      with ((s * s - (b * b - 4 * a * c)) / (4 * a)) by (field; assumption).
    rewrite Hs. field. assumption.
  - replace (a * ((- b - s) / (2 * a)) * ((- b - s) / (2 * a))
             + b * ((- b - s) / (2 * a)) + c)
      with ((s * s - (b * b - 4 * a * c)) / (4 * a)) by (field; assumption).
    rewrite Hs. field. assumption.
  - intros E.
    assert ((- b + s) / (2 * a) * (2 * a) = (- b - s) / (2 * a) * (2 * a))
      by now rewrite E.
    field_simplify in H; [lra | assumption | assumption].
Qed.

(** X2: Over the reals, for a row (a, b, c) with a <> 0 and b^2 - 4ac > 0, the two
    values returned by solve_quadratic are two distinct roots of a x^2 + b x +
    c. *)
Theorem solve_quadratic_roots (coeffs : list (R * R * R)) (i : nat) (a b c : R) :
  nth_error coeffs i = Some (a, b, c) ->
  a <> 0 -> 0 < b * b - 4 * a * c ->
  exists solution x0 x1,
    solve_quadratic coeffs = Ok solution /\
    nth_error solution i = Some (x0, x1) /\
    a * x0 * x0 + b * x0 + c = 0 /\
    a * x1 * x1 + b * x1 + c = 0 /\
    x0 <> x1.
Proof.
  intros Hi Ha Hd.
  destruct (quadratic_row_R_roots a b c Ha Hd) as (x0 & x1 & Hrow & H0 & H1 & Hne).
  exists (map quadratic_row coeffs), x0, x1.
  split; [apply solve_quadratic_rows|]. split; [|repeat split; assumption].
  erewrite nth_error_map_some by eassumption. now f_equal.
Qed.

Lemma solve_quadratic_roots_witness :
  exists solution x0 x1,
    solve_quadratic [(1, -3, 2)] = Ok solution /\
    nth_error solution 0%nat = Some (x0, x1) /\
    1 * x0 * x0 + -3 * x0 + 2 = 0 /\
    1 * x1 * x1 + -3 * x1 + 2 = 0 /\
    x0 <> x1.
Proof.
  apply (solve_quadratic_roots [(1, -3, 2)] 0%nat 1 (-3) 2).
  - reflexivity.
  - lra.
  - lra.
Defined.

Lemma quadratic_row_R_zero (a b c : R) :
  b * b - 4 * a * c = 0 -> quadratic_row (a, b, c) = (0, 0).
Proof.
  intros Hd. unfold quadratic_row, row_mask, row_delta. cbn.
  rewrite (Q2R_small 4), Q2R_0. rewrite (Reqb_true _ _ Hd).
  now rewrite andb_false_r.
Qed.

(** X3: Over the reals, for a row with a <> 0, b <> 0 and b^2 - 4ac = 0,
    solve_quadratic returns (0, 0) although 0 is not a root and the only root is
    -b/(2a): the repeated root is not reported. *)
Theorem solve_quadratic_repeated_root (coeffs : list (R * R * R)) (i : nat) (a b c : R) :
  nth_error coeffs i = Some (a, b, c) ->
  a <> 0 -> b <> 0 -> b * b - 4 * a * c = 0 ->
  exists solution,
    solve_quadratic coeffs = Ok solution /\
    nth_error solution i = Some (0, 0) /\
    a * 0 * 0 + b * 0 + c <> 0 /\
    (forall x, a * x * x + b * x + c = 0 <-> x = - b / (2 * a)).
Proof.
  intros Hi Ha Hb Hd. exists (map quadratic_row coeffs).
  split; [apply solve_quadratic_rows|]. split.
  - erewrite nth_error_map_some by eassumption. f_equal.
    now apply quadratic_row_R_zero.
  - split.
    + intros Z. assert (c = 0) by lra. subst c.
      assert (b * b = 0) by lra. apply Rmult_integral in H. tauto.
    + intros x.
      assert (E : a * x * x + b * x + c
                  = a * ((x + b / (2 * a)) * (x + b / (2 * a)))).
      { replace c with (b * b / (4 * a)) by (field_simplify_eq; [lra | assumption]).
        field. assumption. }
      rewrite E. split.
      * intros Z. apply Rmult_integral in Z as [Z | Z]; [contradiction|].
        apply Rmult_integral in Z.
        assert (x + b / (2 * a) = 0) by tauto.
        replace (- b / (2 * a)) with (- (b / (2 * a))) by (field; assumption). lra.
      * intros ->. field. assumption.
Qed.

Lemma solve_quadratic_repeated_root_witness :
  exists solution,
    solve_quadratic [(1, 2, 1)] = Ok solution /\
    nth_error solution 0%nat = Some (0, 0) /\
    1 * 0 * 0 + 2 * 0 + 1 <> 0 /\
    (forall x, 1 * x * x + 2 * x + 1 = 0 <-> x = - 2 / (2 * 1)).
Proof.
  apply (solve_quadratic_repeated_root [(1, 2, 1)] 0%nat 1 2 1).
  - reflexivity.
  - lra.
  - lra.
  - lra.
Defined.

(** Over the reals the sign flip of a zero Cardano term changes nothing, so a
    row does not depend on the rest of the batch. *)
Lemma cubic_row_R_batch (f : bool) (r : R * R * R * R) :
  (f = false -> row_nz r && row_R_positive r = false) ->
  cubic_row f r = cubic_row true r.
Proof.
  intros Hf. destruct f; [reflexivity|]. specialize (Hf eq_refl).
  unfold cubic_row.
  destruct (row_nz r) eqn:Hnz; cbn [andb] in *; [|reflexivity].
  assert (E : row_AD false r = row_AD true r /\ row_BD false r = row_BD true r).
  { unfold row_BD, row_AD. rewrite Hf. cbn [andb].
    cbn [fltb fneg zero lit Scalar_R]. rewrite Q2R_0.
    destruct (Rltb (row_R r) 0); split; try reflexivity. ring. }
  destruct E as [-> ->]. reflexivity.
Qed.

Lemma existsb_false_all {A : Type} (p : A -> bool) (xs : list A) (x : A) :
  existsb p xs = false -> In x xs -> p x = false.
Proof.
  intros E Hx. destruct (p x) eqn:P; [|reflexivity].
  assert (existsb p xs = true) by (apply existsb_exists; eauto). congruence.
Qed.

Lemma solve_cubic_R_rows (coeffs : list (R * R * R * R)) :
  solve_cubic coeffs = Ok (map (cubic_row true) coeffs).
Proof.
  rewrite solve_cubic_rows. f_equal. apply map_ext_in. intros r Hr.
  apply cubic_row_R_batch. intros E.
  exact (existsb_false_all _ coeffs r E Hr).
Qed.

(** Over the reals the cubic solver works row by row. *)
Lemma solve_cubic_batch (xs ys : list (R * R * R * R)) :
  exists sx sy,
    solve_cubic xs = Ok sx /\ solve_cubic ys = Ok sy /\
    solve_cubic (xs ++ ys) = Ok (sx ++ sy).
Proof.
  exists (map (cubic_row true) xs), (map (cubic_row true) ys).
  rewrite !solve_cubic_R_rows, map_app. repeat split.
Qed.

(** X6: Over the reals, for a row (0, b, c, d) with b <> 0, c <> 0 and c^2 - 4bd >
    0, solve_cubic returns (x0, x1, 0) where x0 and x1 are roots of b x^2 + c x
    + d. *)
Theorem solve_cubic_second_order_roots (coeffs : list (R * R * R * R)) (i : nat)
    (b c d : R) :
  nth_error coeffs i = Some (0, b, c, d) ->
  b <> 0 -> c <> 0 -> 0 < c * c - 4 * b * d ->
  exists solutions x0 x1,
    solve_cubic coeffs = Ok solutions /\
    nth_error solutions i = Some (x0, x1, 0) /\
    b * x0 * x0 + c * x0 + d = 0 /\
    b * x1 * x1 + c * x1 + d = 0.
Proof.
  intros Hi Hb Hc Hd.
  destruct (quadratic_row_R_roots b c d Hb Hd) as (x0 & x1 & Hrow & H0 & H1 & _).
  exists (map (cubic_row (batch_any_R coeffs)) coeffs), x0, x1.
  split; [apply solve_cubic_rows|]. split; [|split; assumption].
  erewrite nth_error_map_some by eassumption. f_equal.
  unfold cubic_row, row_nz. cbn [ca cb cc cd fst snd].
  cbn [feqb zero lit Scalar_R]. rewrite Q2R_0.
  rewrite (Reqb_true 0 0 eq_refl), (Reqb_false _ _ Hb), (Reqb_false _ _ Hc).
  cbn [andb negb]. unfold set_c01. rewrite Hrow. cbn [fst snd]. reflexivity.
Qed.

Lemma solve_cubic_second_order_roots_witness :
  exists solutions x0 x1,
    solve_cubic [(0, 1, -3, 2)] = Ok solutions /\
    nth_error solutions 0%nat = Some (x0, x1, 0) /\
    1 * x0 * x0 + -3 * x0 + 2 = 0 /\
    1 * x1 * x1 + -3 * x1 + 2 = 0.
Proof.
  apply (solve_cubic_second_order_roots [(0, 1, -3, 2)] 0%nat 1 (-3) 2).
  - reflexivity.
  - lra.
  - lra.
  - lra.
Defined.

Lemma solve_cubic_cardano_root_witness :
  exists solutions x0,
    solve_cubic [(1, 0, 1, -2)] = Ok solutions /\
    nth_error solutions 0%nat = Some (x0, 0, 0) /\
    1 * x0 * x0 * x0 + 0 * x0 * x0 + 1 * x0 + -2 = 0.
Proof.
  apply (solve_cubic_cardano_root [(1, 0, 1, -2)] 0%nat 1 0 1 (-2)).
  - reflexivity.
  - lra.
  - rewrite row_Q_R. lra.
  - rewrite row_D_R, row_Q_R, row_R_R. lra.
  - rewrite row_R_R.
    replace ((9 * (0 / 1) * (1 / 1) - 27 * (-2 / 1) - 2 * (0 / 1) * (0 / 1 * (0 / 1))) / 54)
      with 1 by lra.
    rewrite Rabs_R1. lra.
Defined.

Lemma solve_cubic_trig_roots_witness :
  exists solutions x0 x1 x2,
    solve_cubic [(1, -6, 11, -6)] = Ok solutions /\
    nth_error solutions 0%nat = Some (x0, x1, x2) /\
    1 * x0 * x0 * x0 + -6 * x0 * x0 + 11 * x0 + -6 = 0 /\
    1 * x1 * x1 * x1 + -6 * x1 * x1 + 11 * x1 + -6 = 0 /\
    1 * x2 * x2 * x2 + -6 * x2 * x2 + 11 * x2 + -6 = 0.
Proof.
  apply (solve_cubic_trig_roots [(1, -6, 11, -6)] 0%nat 1 (-6) 11 (-6)).
  - reflexivity.
  - lra.
  - rewrite row_Q_R. lra.
  - rewrite row_D_R, row_Q_R, row_R_R. lra.
Defined.

Lemma solve_cubic_triple_root_witness :
  exists solutions,
    solve_cubic [(1, -3, 3, -1)] = Ok solutions /\
    nth_error solutions 0%nat
    = Some (- (-3 / (3 * 1)), - (-3 / (3 * 1)), - (-3 / (3 * 1))) /\
    forall x, 1 * x * x * x + -3 * x * x + 3 * x + -1
              = 1 * ((x + -3 / (3 * 1)) * (x + -3 / (3 * 1)) * (x + -3 / (3 * 1))).
Proof.
  apply (solve_cubic_triple_root [(1, -3, 3, -1)] 0%nat 1 (-3) 3 (-1)).
  - reflexivity.
  - lra.
  - rewrite row_Q_R. lra.
  - rewrite row_R_R. lra.
Defined.

Lemma solve_cubic_Q_zero_root_witness :
  exists solutions x0,
    solve_cubic [(1, 0, 0, -8)] = Ok solutions /\
    nth_error solutions 0%nat = Some (x0, 0, 0) /\
    1 * x0 * x0 * x0 + 0 * x0 * x0 + 0 * x0 + -8 = 0.
Proof.
  apply (solve_cubic_Q_zero_root [(1, 0, 0, -8)] 0%nat 1 0 0 (-8)).
  - reflexivity.
  - lra.
  - rewrite row_Q_R. lra.
  - rewrite row_R_R. lra.
Defined.

Lemma solve_cubic_cardano_small_R_witness :
  exists solutions,
    solve_cubic [(1, 0, 1, 0)] = Ok solutions /\
    nth_error solutions 0%nat = Some (- (0 / (3 * 1)), 0, 0) /\
    (row_R (1, 0, 1, 0) = 0 ->
     let x0 := - (0 / (3 * 1)) in 1 * x0 * x0 * x0 + 0 * x0 * x0 + 1 * x0 + 0 = 0).
Proof.
  apply (solve_cubic_cardano_small_R [(1, 0, 1, 0)] 0%nat 1 0 1 0).
  - reflexivity.
  - lra.
  - rewrite row_Q_R. lra.
  - rewrite row_D_R, row_Q_R, row_R_R. lra.
  - rewrite row_R_R.
    replace ((9 * (0 / 1) * (1 / 1) - 27 * (0 / 1) - 2 * (0 / 1) * (0 / 1 * (0 / 1))) / 54)
      with 0 by lra.
    rewrite Rabs_R0. lra.
Defined.

(** ** The fundamental matrix of two projection matrices *)

Lemma is_3_4_inv {T : Type} (M : matrix T) :
  is_3_4 M = true ->
  exists a0 a1 a2 a3 b0 b1 b2 b3 c0 c1 c2 c3,
    M = [[a0; a1; a2; a3]; [b0; b1; b2; b3]; [c0; c1; c2; c3]].
Proof.
  unfold is_3_4. intros Hs. apply andb_prop in Hs. destruct Hs as [Hl Hr].
  apply Nat.eqb_eq in Hl.
  destruct M as [|r0 [|r1 [|r2 [|? ?]]]]; try discriminate Hl.
  cbn [forallb] in Hr.
  repeat (apply andb_prop in Hr; let H := fresh "Hrow" in destruct Hr as [H Hr]).
  apply Nat.eqb_eq in Hrow, Hrow0, Hrow1.
  destruct r0 as [|a0 [|a1 [|a2 [|a3 [|? ?]]]]]; try discriminate Hrow.
  destruct r1 as [|b0 [|b1 [|b2 [|b3 [|? ?]]]]]; try discriminate Hrow0.
  destruct r2 as [|c0 [|c1 [|c2 [|c3 [|? ?]]]]]; try discriminate Hrow1.
  repeat eexists.
Qed.

Lemma is_3_3_inv {T : Type} (M : matrix T) :
  is_3_3 M = true ->
  exists a0 a1 a2 b0 b1 b2 c0 c1 c2,
    M = [[a0; a1; a2]; [b0; b1; b2]; [c0; c1; c2]].
Proof.
  unfold is_3_3. intros Hs. apply andb_prop in Hs. destruct Hs as [Hl Hr].
  apply Nat.eqb_eq in Hl.
  destruct M as [|r0 [|r1 [|r2 [|? ?]]]]; try discriminate Hl.
  cbn [forallb] in Hr.
  repeat (apply andb_prop in Hr; let H := fresh "Hrow" in destruct Hr as [H Hr]).
  apply Nat.eqb_eq in Hrow, Hrow0, Hrow1.
  destruct r0 as [|a0 [|a1 [|a2 [|? ?]]]]; try discriminate Hrow.
  destruct r1 as [|b0 [|b1 [|b2 [|? ?]]]]; try discriminate Hrow0.
  destruct r2 as [|c0 [|c1 [|c2 [|? ?]]]]; try discriminate Hrow1.
  repeat eexists.
Qed.

Ltac real_arith :=
  cbn [fadd fsub fmul fdiv fneg lit one zero Scalar_R];
  rewrite ?Q2R_0, ?Q2R_1.

Lemma fundamental_from_projections_1_inv (P1 P2 F : matrix R) :
  fundamental_from_projections_1 P1 P2 = Ok F ->
  is_3_4 P1 = true /\ is_3_4 P2 = true.
Proof.
  unfold fundamental_from_projections_1.
  destruct (is_3_4 P1); [|discriminate].
  destruct (is_3_4 P2); [|discriminate]. auto.
Qed.

Ltac open_projections H P1 P2 :=
  let H1 := fresh in let H2 := fresh in
  destruct (fundamental_from_projections_1_inv _ _ _ H) as [H1 H2];
  apply is_3_4_inv in H1; apply is_3_4_inv in H2;
  destruct H1 as (?a0 & ?a1 & ?a2 & ?a3 & ?b0 & ?b1 & ?b2 & ?b3 & ?c0 & ?c1 & ?c2 & ?c3 & ->);
  destruct H2 as (?a0 & ?a1 & ?a2 & ?a3 & ?b0 & ?b1 & ?b2 & ?b3 & ?c0 & ?c1 & ?c2 & ?c3 & ->);
  vm_compute in H; injection H as <-.

(** X12: Over the reals, the matrix F returned by fundamental_from_projections for
    two 3x4 projection matrices satisfies the epipolar constraint (P2 X)^T F (P1
    X) = 0 for every homogeneous world point X. *)
Theorem fundamental_from_projections_epipolar (P1 P2 F : matrix R) (X : list R) :
  fundamental_from_projections_1 P1 P2 = Ok F ->
  List.length X = 4%nat ->
  dot (matvec P2 X) (matvec F (matvec P1 X)) = 0.
Proof.
  intros HF HX.
  destruct X as [|x0 [|x1 [|x2 [|x3 [|? ?]]]]]; try discriminate HX.
  open_projections HF P1 P2.
  vm_compute. ring.
Qed.

(** X13: Over the reals, exchanging the two projection matrices transposes the result
    of fundamental_from_projections. *)
Theorem fundamental_from_projections_swap (P1 P2 F : matrix R) :
  fundamental_from_projections_1 P1 P2 = Ok F ->
  fundamental_from_projections_1 P2 P1 = Ok (transpose F).
Proof.
  intros HF.
  open_projections HF P1 P2.
  vm_compute. repeat (f_equal; try ring).
Qed.

(** X14: Over the reals, fundamental_from_projections of a projection matrix with
    itself is the zero matrix. *)
Theorem fundamental_from_projections_same_camera (P F : matrix R) :
  fundamental_from_projections_1 P P = Ok F ->
  F = [[0; 0; 0]; [0; 0; 0]; [0; 0; 0]].
Proof.
  intros HF.
  destruct (fundamental_from_projections_1_inv _ _ _ HF) as [H1 _].
  apply is_3_4_inv in H1.
  destruct H1 as (a0 & a1 & a2 & a3 & b0 & b1 & b2 & b3 & c0 & c1 & c2 & c3 & ->).
  vm_compute in HF. injection HF as <-.
  repeat (f_equal; try ring).
Qed.

(** X15: Over the reals, multiplying both projection matrices on the right by the
    same 4x4 matrix H multiplies the result of fundamental_from_projections by
    det(H). *)
Theorem fundamental_from_projections_world_change (P1 P2 H F : matrix R) :
  fundamental_from_projections_1 P1 P2 = Ok F ->
  List.length H = 4%nat -> Forall (fun row => List.length row = 4%nat) H ->
  fundamental_from_projections_1 (matmul P1 H) (matmul P2 H)
  = Ok (map (map (fun x => det H * x)) F).
Proof.
  intros HF HH Hrows.
  destruct H as [|h0 [|h1 [|h2 [|h3 [|? ?]]]]]; try discriminate HH.
  repeat match goal with
         | Hr : Forall _ (_ :: _) |- _ => inversion Hr; subst; clear Hr
         end.
  destruct h0 as [|h00 [|h01 [|h02 [|h03 [|? ?]]]]]; try discriminate.
  destruct h1 as [|h10 [|h11 [|h12 [|h13 [|? ?]]]]]; try discriminate.
  destruct h2 as [|h20 [|h21 [|h22 [|h23 [|? ?]]]]]; try discriminate.
  destruct h3 as [|h30 [|h31 [|h32 [|h33 [|? ?]]]]]; try discriminate.
  open_projections HF P1 P2.
  vm_compute.
  replace (/ R1) with R1 by (change R1 with 1; field).
  apply f_equal.
  repeat (apply f_equal2; [repeat (apply f_equal2; [ring|]); reflexivity|]).
  reflexivity.
Qed.

Lemma map_result_ok {A B : Type} (f : A -> result B) (g : A -> B) (xs : list A) :
  (forall x, In x xs -> f x = Ok (g x)) -> map_result f xs = Ok (map g xs).
Proof.
  induction xs as [|x xs IH]; intros Hf; [reflexivity|].
  cbn [map_result map]. rewrite (Hf x (or_introl eq_refl)).
  cbn [bind]. rewrite IH by (intros y Hy; apply Hf; now right). reflexivity.
Qed.

Lemma fundamental_from_projections_1_ok {T : Type} `{Scalar T} (P1 P2 : matrix T) :
  is_3_4 P1 = true -> is_3_4 P2 = true ->
  exists F, fundamental_from_projections_1 P1 P2 = Ok F /\ is_3_3 F = true.
Proof.
  intros H1 H2. unfold fundamental_from_projections_1. rewrite H1, H2.
  cbn [negb view_3_3]. eexists. split; reflexivity.
Qed.

Lemma map_result_all {A B : Type} (f : A -> result B) (P : B -> Prop) (xs : list A) :
  (forall x, In x xs -> exists y, f x = Ok y /\ P y) ->
  exists ys, map_result f xs = Ok ys /\ List.length ys = List.length xs /\ Forall P ys.
Proof.
  induction xs as [|x xs IH]; intros Hf.
  - exists []. repeat split. constructor.
  - destruct (Hf x (or_introl eq_refl)) as (y & Hy & Py).
    destruct IH as (ys & Hys & Hl & HP); [intros z Hz; apply Hf; now right|].
    exists (y :: ys). cbn [map_result]. rewrite Hy. cbn [bind]. rewrite Hys.
    cbn [bind List.length]. repeat split; [congruence | now constructor].
Qed.

(** X16: On batches of shape (B, 3, 4), fundamental_from_projections returns B
    matrices of shape 3x3 when both inputs consist of 3x4 matrices and have the
    same batch size, and raises AssertionError otherwise. *)
Theorem fundamental_from_projections_shapes {T : Type} `{Scalar T}
    (P1 P2 : list (matrix T)) :
  if forallb is_3_4 P1 && forallb is_3_4 P2
     && Nat.eqb (List.length P1) (List.length P2)
  then exists Fs, fundamental_from_projections P1 P2 = Ok Fs
                  /\ List.length Fs = List.length P1
                  /\ Forall (fun F => is_3_3 F = true) Fs
  else fundamental_from_projections P1 P2 = Raise AssertionError.
Proof.
  unfold fundamental_from_projections.
  destruct (forallb is_3_4 P1) eqn:E1; cbn [negb andb]; [|reflexivity].
  destruct (forallb is_3_4 P2) eqn:E2; cbn [negb andb]; [|reflexivity].
  destruct (Nat.eqb (List.length P1) (List.length P2)) eqn:E3; cbn [negb]; [|reflexivity].
  apply Nat.eqb_eq in E3.
  destruct (map_result_all
              (fun p => fundamental_from_projections_1 (fst p) (snd p))
              (fun F => is_3_3 F = true) (combine P1 P2)) as (Fs & HFs & Hl & HP).
  - intros [p1 p2] Hin. cbn [fst snd].
    apply fundamental_from_projections_1_ok.
    + apply in_combine_l in Hin. rewrite forallb_forall in E1. now apply E1.
    + apply in_combine_r in Hin. rewrite forallb_forall in E2. now apply E2.
  - exists Fs. repeat split; try assumption.
    rewrite Hl, length_combine, <- E3. apply Nat.min_id.
Qed.


Lemma fundamental_from_projections_epipolar_witness :
  exists F, fundamental_from_projections_1 camera_1 camera_2 = Ok F
            /\ dot (matvec camera_2 [1; 2; 3; 1]) (matvec F (matvec camera_1 [1; 2; 3; 1])) = 0.
Proof.
  eexists. split; [vm_compute; reflexivity|].
  apply (fundamental_from_projections_epipolar camera_1 camera_2 _ [1; 2; 3; 1]);
    [vm_compute; reflexivity | reflexivity].
Defined.

Lemma fundamental_from_projections_swap_witness :
  exists F, fundamental_from_projections_1 camera_1 camera_2 = Ok F
            /\ fundamental_from_projections_1 camera_2 camera_1 = Ok (transpose F).
Proof.
  eexists. split; [vm_compute; reflexivity|].
  apply (fundamental_from_projections_swap camera_1 camera_2 _).
  vm_compute; reflexivity.
Defined.

Lemma fundamental_from_projections_same_camera_witness :
  exists F, fundamental_from_projections_1 camera_2 camera_2 = Ok F
            /\ F = [[0; 0; 0]; [0; 0; 0]; [0; 0; 0]].
Proof.
  eexists. split; [vm_compute; reflexivity|].
  apply (fundamental_from_projections_same_camera camera_2 _).
  vm_compute; reflexivity.
Defined.


Lemma fundamental_from_projections_world_change_witness :
  exists F, fundamental_from_projections_1 camera_1 camera_2 = Ok F
            /\ fundamental_from_projections_1
                 (matmul camera_1 world_change) (matmul camera_2 world_change)
               = Ok (map (map (fun x => det world_change * x)) F).
Proof.
  eexists. split; [vm_compute; reflexivity|].
  apply (fundamental_from_projections_world_change camera_1 camera_2 world_change _);
    [vm_compute; reflexivity | reflexivity | repeat constructor].
Defined.

(** ** Epipolar lines, perpendiculars and closest points *)

Lemma map_nth_seq {A B : Type} (g : A -> B) (d : A) (xs : list A) :
  map (fun i => g (nth i xs d)) (seq 0 (List.length xs)) = map g xs.
Proof.
  induction xs as [|x xs IH]; [reflexivity|].
  cbn [List.length seq map nth]. f_equal.
  rewrite <- seq_shift, map_map. exact IH.
Qed.

Lemma nth_map_in {A B : Type} (f : A -> B) (xs : list A) (i : nat) (d : A) (e : B) :
  (i < List.length xs)%nat -> nth i (map f xs) e = f (nth i xs d).
Proof.
  intros Hi. rewrite (nth_indep _ e (f d)) by now rewrite length_map.
  apply map_nth.
Qed.

Section EpipolarFacts.

Context {T : Type} `{Scalar T}.

Lemma transpose_N_3 (P : matrix T) :
  P <> [] -> Forall (fun p => List.length p = 3%nat) P ->
  transpose P = [column 0 P; column 1 P; column 2 P].
Proof.
  intros Hne HP. destruct P as [|p P]; [congruence|].
  unfold transpose. cbn [hd]. inversion HP as [|? ? Hp _]; subst.
  rewrite Hp. reflexivity.
Qed.

Lemma transpose_3_N {A : Type} (f g h : A -> T) (xs : list A) :
  transpose [map f xs; map g xs; map h xs] = map (fun x => [f x; g x; h x]) xs.
Proof.
  unfold transpose. cbn [hd]. rewrite length_map.
  destruct xs as [|x0 xs]; [reflexivity|].
  set (l := x0 :: xs).
  rewrite <- (map_nth_seq (fun x => [f x; g x; h x]) x0 l).
  apply map_ext_in. intros i Hi. apply in_seq in Hi.
  unfold column. cbn [map].
  rewrite !(nth_map_in _ l i x0) by lia. reflexivity.
Qed.

Lemma compute_correspond_epilines_1_rows (F_mat points_h : matrix T) :
  is_3_3 F_mat = true -> Forall (fun p => List.length p = 3%nat) points_h ->
  compute_correspond_epilines_1 F_mat points_h = map (epiline F_mat) points_h.
Proof.
  intros HF HP. apply is_3_3_inv in HF.
  destruct HF as (a0 & a1 & a2 & b0 & b1 & b2 & c0 & c1 & c2 & ->).
  destruct points_h as [|p0 P]; [reflexivity|].
  unfold compute_correspond_epilines_1.
  rewrite (transpose_N_3 (p0 :: P)) by (first [discriminate | assumption]).
  set (Q := p0 :: P) in *.
  assert (HT : transpose [column 0 Q; column 1 Q; column 2 Q] = Q).
  { unfold column. rewrite transpose_3_N.
    rewrite <- (map_id Q) at 2. apply map_ext_in. intros p Hp.
    rewrite Forall_forall in HP. specialize (HP p Hp).
    destruct p as [|x [|y [|z [|? ?]]]]; try discriminate HP. reflexivity. }
  unfold matmul. rewrite HT. cbn [map nth].
  unfold t_add, t_mul. rewrite !map2_map, map_map, !map2_map.
  rewrite transpose_3_N. reflexivity.
Qed.


Lemma broadcast_map2_same {A B C : Type} (f : A -> B -> C) (xs : list A) (ys : list B) :
  List.length xs = List.length ys -> broadcast_map2 f xs ys = Ok (map2 f xs ys).
Proof. intros E. unfold broadcast_map2. now rewrite E, Nat.eqb_refl. Qed.

Lemma map2_length {A B C : Type} (f : A -> B -> C) (xs : list A) (ys : list B) :
  List.length xs = List.length ys -> List.length (map2 f xs ys) = List.length xs.
Proof.
  revert ys. induction xs as [|x xs IH]; intros [|y ys] E; try discriminate E;
    [reflexivity|]. cbn [map2 List.length]. f_equal. apply IH. now injection E.
Qed.

Lemma nth_error_map2 {A B C : Type} (f : A -> B -> C) (xs : list A) (ys : list B)
    (k : nat) (x : A) (y : B) :
  nth_error xs k = Some x -> nth_error ys k = Some y ->
  nth_error (map2 f xs ys) k = Some (f x y).
Proof.
  revert ys k. induction xs as [|x0 xs IH]; intros [|y0 ys] [|k] Hx Hy;
    try discriminate Hx; try discriminate Hy; cbn in *.
  - congruence.
  - now apply IH.
Qed.

Lemma map2_ext_in {A B C : Type} (f g : A -> B -> C) (xs : list A) (ys : list B) :
  (forall x y, In x xs -> In y ys -> f x y = g x y) -> map2 f xs ys = map2 g xs ys.
Proof.
  revert ys. induction xs as [|x xs IH]; intros [|y ys] E; try reflexivity.
  cbn [map2]. f_equal; [apply E; now left|].
  apply IH. intros; apply E; now right.
Qed.

Lemma shape_of_length (x y : list (matrix T)) :
  same_shape x y -> List.length x = List.length y.
Proof.
  intros S. apply (f_equal (@List.length nat)) in S.
  unfold shape_of in S. now rewrite !length_map in S.
Qed.

Lemma shape_of_map (f : list T -> list T) (x : list (matrix T)) :
  shape_of (map (map f) x) = shape_of x.
Proof.
  unfold shape_of. rewrite map_map. apply map_ext. intros P. apply length_map.
Qed.

Lemma shape_of_map2_rows {A : Type} (f : A -> list T -> list T) (xs : list A)
    (x : list (matrix T)) :
  List.length xs = List.length x ->
  shape_of (map2 (fun a P => map (f a) P) xs x) = shape_of x.
Proof.
  revert x. induction xs as [|a xs IH]; intros [|P x] E; try discriminate E;
    [reflexivity|].
  cbn [map2 shape_of map]. rewrite length_map. f_equal. apply IH. now injection E.
Qed.

Lemma shape_of_map2 (f : list T -> list T -> list T) (x y : list (matrix T)) :
  same_shape x y -> shape_of (map2 (map2 f) x y) = shape_of x.
Proof.
  unfold same_shape. revert y.
  induction x as [|P x IH]; intros [|Q y] E; try discriminate E; [reflexivity|].
  cbn [shape_of map] in E. injection E as EP E.
  cbn [map2 shape_of map]. rewrite (map2_length _ _ _ EP). f_equal. now apply IH.
Qed.

Lemma cross_dim_2_same (x y : list (matrix T)) :
  same_shape x y -> cross_dim_2 x y = Ok (map2 (map2 cross) x y).
Proof.
  intros S. unfold cross_dim_2.
  rewrite broadcast_map2_same by now apply shape_of_length.
  cbn [bind]. unfold same_shape in S. revert y S.
  induction x as [|P x IH]; intros [|Q y] E; try discriminate E; [reflexivity|].
  cbn [shape_of map] in E. injection E as EP E.
  cbn [map2 map_result]. rewrite (broadcast_map2_same _ _ _ EP).
  cbn [bind]. rewrite (IH y E). reflexivity.
Qed.

Lemma item_map2_map2 (f : list T -> list T -> list T) (x y : list (matrix T))
    (k j : nat) (a b : list T) :
  item x k j = Some a -> item y k j = Some b ->
  item (map2 (map2 f) x y) k j = Some (f a b).
Proof.
  unfold item. intros Ha Hb.
  destruct (nth_error x k) as [P|] eqn:EP; [|discriminate].
  destruct (nth_error y k) as [Q|] eqn:EQ; [|discriminate].
  erewrite nth_error_map2 by eassumption. now apply nth_error_map2.
Qed.

Lemma item_map (f : list T -> list T) (x : list (matrix T)) (k j : nat) (a : list T) :
  item x k j = Some a -> item (map (map f) x) k j = Some (f a).
Proof.
  unfold item. intros Ha.
  destruct (nth_error x k) as [P|] eqn:EP; [|discriminate].
  erewrite nth_error_map_some by eassumption. now apply nth_error_map_some.
Qed.

Lemma item_in (x : list (matrix T)) (k j : nat) (a : list T) :
  item x k j = Some a -> exists P, In P x /\ In a P.
Proof.
  unfold item. intros Ha.
  destruct (nth_error x k) as [P|] eqn:EP; [|discriminate].
  exists P. split; eapply nth_error_In; eassumption.
Qed.

Lemma homogeneous_or_fail_ok (points : points_tensor T) :
  shape_2_or_3 points = true ->
  homogeneous_or_fail points
  = Ok {| shape_last := 3; coords := map (map (homogeneous points)) (coords points) |}.
Proof.
  unfold shape_2_or_3, homogeneous_or_fail, homogeneous.
  destruct points as [d c]. cbn [shape_last coords].
  destruct (Nat.eqb d 2) eqn:E2.
  - intros _. apply Nat.eqb_eq in E2. subst d. reflexivity.
  - cbn [orb]. intros E3. rewrite E3. apply Nat.eqb_eq in E3. subst d.
    do 2 f_equal. rewrite <- (map_id c) at 1. apply map_ext. intros P.
    now rewrite map_id.
Qed.

Lemma homogeneous_length (points : points_tensor T) (p : list T) :
  shape_2_or_3 points = true -> List.length p = shape_last points ->
  List.length (homogeneous points p) = 3%nat.
Proof.
  unfold shape_2_or_3, homogeneous. intros S L.
  destruct (Nat.eqb (shape_last points) 2) eqn:E2.
  - apply Nat.eqb_eq in E2. rewrite length_app, L, E2. reflexivity.
  - cbn [orb] in S. apply Nat.eqb_eq in S. congruence.
Qed.

Lemma compute_correspond_epilines_rows (points : points_tensor T) (F_mat : list (matrix T)) :
  well_shaped points -> shape_2_or_3 points = true ->
  forallb is_3_3 F_mat = true ->
  List.length F_mat = List.length (coords points) ->
  compute_correspond_epilines points F_mat
  = Ok (map2 (fun F P => map (fun p => epiline F (homogeneous points p)) P)
             F_mat (coords points)).
Proof.
  intros W S HF HB. unfold compute_correspond_epilines.
  rewrite (homogeneous_or_fail_ok points S). cbn [bind coords].
  unfold check_shape_3_3. rewrite HF. cbn [bind].
  rewrite broadcast_map2_same by now rewrite length_map.
  f_equal. revert HF HB. unfold well_shaped in W.
  generalize dependent F_mat.
  induction W as [|P Ps HP W IH]; intros [|F Fs] HF HB; try discriminate HB;
    [reflexivity|].
  cbn [map map2]. cbn [forallb] in HF. apply andb_prop in HF. destruct HF as [HF HFs].
  f_equal; [|apply IH; [assumption | now injection HB]].
  rewrite compute_correspond_epilines_1_rows; [now rewrite map_map|assumption|].
  rewrite Forall_forall. intros q Hq. apply in_map_iff in Hq.
  destruct Hq as (p & <- & Hp). apply homogeneous_length; [assumption|].
  rewrite Forall_forall in HP. now apply HP.
Qed.

Lemma item_map2_rows {A : Type} (f : A -> list T -> list T) (xs : list A)
    (ys : list (matrix T)) (k j : nat) (x : A) (P : matrix T) (p : list T) :
  nth_error xs k = Some x -> nth_error ys k = Some P -> nth_error P j = Some p ->
  item (map2 (fun x P => map (f x) P) xs ys) k j = Some (f x p).
Proof.
  intros Hx HP Hp. unfold item.
  erewrite nth_error_map2 by eassumption. now apply nth_error_map_some.
Qed.


Lemma map2_map_both {A B A' B' C : Type} (f : A' -> B' -> C) (g : A -> A')
    (h : B -> B') (xs : list A) (ys : list B) :
  map2 f (map g xs) (map h ys) = map2 (fun x y => f (g x) (h y)) xs ys.
Proof.
  revert ys. induction xs as [|x xs IH]; intros [|y ys]; try reflexivity.
  cbn [map map2]. now rewrite IH.
Qed.

Lemma homogeneous_or_fail_points (points : points_tensor T) :
  shape_2_or_3 points = true ->
  homogeneous_or_fail points = Ok (homogeneous_points points).
Proof. apply homogeneous_or_fail_ok. Qed.

Lemma homogeneous_points_shape (points : points_tensor T) :
  well_shaped points -> shape_2_or_3 points = true ->
  well_shaped (homogeneous_points points)
  /\ shape_2_or_3 (homogeneous_points points) = true.
Proof.
  intros W S. split; [|reflexivity].
  unfold well_shaped, homogeneous_points. cbn [coords shape_last].
  rewrite Forall_forall. intros Q HQ. apply in_map_iff in HQ.
  destruct HQ as (P & <- & HP). rewrite Forall_forall. intros q Hq.
  apply in_map_iff in Hq. destruct Hq as (p & <- & Hp).
  apply homogeneous_length; [assumption|].
  unfold well_shaped in W. rewrite Forall_forall in W.
  specialize (W P HP). rewrite Forall_forall in W. now apply W.
Qed.

Lemma homogeneous_points_fixed (points : points_tensor T) (p : list T) :
  homogeneous (homogeneous_points points) p = p.
Proof. reflexivity. Qed.

Lemma pre_homogeneous (points : points_tensor T) :
  shape_2_or_3 points = true ->
  (if Nat.eqb (shape_last points) 2 then convert_points_to_homogeneous points else points)
  = homogeneous_points points.
Proof.
  intros S. pose proof (homogeneous_or_fail_ok points S) as E.
  unfold homogeneous_or_fail in E. unfold shape_2_or_3 in S.
  assert (Ok_inj : forall a b : points_tensor T, Ok a = Ok b -> a = b)
    by (intros a b Hab; apply (f_equal (fun r => match r with Ok c => c | Raise _ => a end)) in Hab;
        exact Hab).
  destruct (Nat.eqb (shape_last points) 2); [exact (Ok_inj _ _ E)|].
  cbn [orb] in S. rewrite S in E. exact (Ok_inj _ _ E).
Qed.

Lemma get_perpendicular_rows (lines : list (matrix T)) (points : points_tensor T) :
  forallb (forallb (fun l => Nat.eqb (List.length l) 3)) lines = true ->
  shape_2_or_3 points = true -> same_shape (coords points) lines ->
  get_perpendicular lines points
  = Ok (map2 (map2 (fun p l => perpendicular l (homogeneous points p)))
             (coords points) lines).
Proof.
  intros HL S HS. unfold get_perpendicular, check_shape_N_3. rewrite HL.
  cbn [bind]. rewrite (homogeneous_or_fail_ok points S). cbn [bind coords].
  rewrite cross_dim_2_same
    by (unfold same_shape; rewrite !shape_of_map; exact HS).
  f_equal. rewrite map2_map_both. apply map2_ext_in. intros P L _ _.
  apply map2_map_both.
Qed.

Lemma epilines_check (Fs : list (matrix T)) (x : list (matrix T)) :
  forallb (forallb (fun l : list T => Nat.eqb (List.length l) 3))
          (map2 (fun F P => map (epiline F) P) Fs x) = true.
Proof.
  revert x. induction Fs as [|F Fs IH]; intros [|P x]; try reflexivity.
  cbn [map2 forallb]. rewrite IH, andb_true_r.
  rewrite forallb_forall. intros l Hl. apply in_map_iff in Hl.
  destruct Hl as (p & <- & _). reflexivity.
Qed.

Lemma closest_point_homogeneous_rows (pts1 pts2 : points_tensor T)
    (Fm : list (matrix T)) :
  forallb is_3_3 Fm = true ->
  well_shaped pts1 -> shape_2_or_3 pts1 = true -> shape_2_or_3 pts2 = true ->
  List.length Fm = List.length (coords pts1) ->
  same_shape (coords pts1) (coords pts2) ->
  let lines := map2 (fun F P => map (epiline F) P) Fm
                    (coords (homogeneous_points pts1)) in
  let perp := map2 (map2 (fun p l => perpendicular l p))
                   (coords (homogeneous_points pts2)) lines in
  closest_point_homogeneous pts1 pts2 Fm = Ok (map2 (map2 cross) lines perp).
Proof.
  intros HF W1 S1 S2 HB HS lines perp.
  unfold closest_point_homogeneous. rewrite HF. cbn [negb].
  rewrite (pre_homogeneous pts1 S1), (pre_homogeneous pts2 S2).
  destruct (homogeneous_points_shape pts1 W1 S1) as [W1' S1'].
  rewrite (compute_correspond_epilines_rows _ Fm W1' S1' HF)
    by (cbn [homogeneous_points coords]; now rewrite length_map).
  cbn [bind].
  match goal with |- context [get_perpendicular ?l _] => change l with lines end.
  assert (HL : shape_of lines = shape_of (coords pts1)).
  { unfold lines. rewrite shape_of_map2_rows
      by (cbn [homogeneous_points coords]; now rewrite length_map).
    apply shape_of_map. }
  rewrite (get_perpendicular_rows lines (homogeneous_points pts2));
    [| apply epilines_check | reflexivity
     | unfold same_shape; cbn [homogeneous_points coords];
       rewrite ?shape_of_map, ?HL; first [exact HS | symmetry; exact HS] ].
  cbn [bind]. fold perp.
  apply cross_dim_2_same. unfold same_shape, perp.
  rewrite shape_of_map2; [|unfold same_shape]; cbn [homogeneous_points coords];
    rewrite ?shape_of_map, ?HL; first [exact HS | symmetry; exact HS].
Qed.

End EpipolarFacts.

Lemma matvec_3 {T : Type} `{Scalar T} (F : matrix T) (p : list T) :
  is_3_3 F = true ->
  exists r0 r1 r2, F = [r0; r1; r2] /\ matvec F p = [dot r0 p; dot r1 p; dot r2 p].
Proof.
  intros HF. apply is_3_3_inv in HF.
  destruct HF as (a0 & a1 & a2 & b0 & b1 & b2 & c0 & c1 & c2 & ->).
  repeat eexists.
Qed.

Lemma epiline_R (F : matrix R) (p : list R) (a b c : R) :
  matvec F p = [a; b; c] ->
  exists nu, 0 < nu
    /\ epiline F p = [a * nu; b * nu; c * nu]
    /\ (a <> 0 \/ b <> 0 -> (a * nu) * (a * nu) + (b * nu) * (b * nu) = 1)
    /\ (a = 0 /\ b = 0 -> nu = 1).
Proof.
  intros E. unfold epiline. rewrite E. cbn [nth].
  unfold fgtb. real_arith.
  assert (Hs : 0 <= a * a + b * b) by nra.
  destruct (Rlt_dec 0 (a * a + b * b)) as [Hpos|Hnpos].
  - rewrite Rltb_true by assumption.
    pose proof (sqrt_lt_R0 _ Hpos) as Hq.
    exists (1 / R_sqrt.sqrt (a * a + b * b)). repeat split.
    + apply Rdiv_lt_0_compat; lra.
    + intros _.
      replace (a * (1 / R_sqrt.sqrt (a * a + b * b)) * (a * (1 / R_sqrt.sqrt (a * a + b * b)))
               + b * (1 / R_sqrt.sqrt (a * a + b * b)) * (b * (1 / R_sqrt.sqrt (a * a + b * b))))
        with ((a * a + b * b) / (R_sqrt.sqrt (a * a + b * b) * R_sqrt.sqrt (a * a + b * b)))
        by (field; lra).
      rewrite sqrt_sqrt by lra. field. lra.
    + intros [-> ->]. lra.
  - rewrite Rltb_false by lra.
    exists 1. repeat split; try lra.
    intros [Ha|Hb]; exfalso; nra.
Qed.

(** X17: Over the reals, for points of dimension 2 or 3 and one 3x3 matrix per batch
    element, compute_correspond_epilines returns for every point a positive
    multiple nu * (F p) of the line F p (p in homogeneous coordinates); its
    normal (a, b) has length one unless it is zero, in which case nu = 1. *)
Theorem compute_correspond_epilines_normalised
    (points : points_tensor R) (F_mat : list (matrix R)) :
  well_shaped points -> shape_2_or_3 points = true ->
  forallb is_3_3 F_mat = true ->
  List.length F_mat = List.length (coords points) ->
  exists lines,
    compute_correspond_epilines points F_mat = Ok lines
    /\ shape_of lines = shape_of (coords points)
    /\ forall k j F p,
         nth_error F_mat k = Some F -> item (coords points) k j = Some p ->
         exists a b c nu,
           matvec F (homogeneous points p) = [a; b; c]
           /\ 0 < nu
           /\ item lines k j = Some [a * nu; b * nu; c * nu]
           /\ (a <> 0 \/ b <> 0 -> (a * nu) * (a * nu) + (b * nu) * (b * nu) = 1)
           /\ (a = 0 /\ b = 0 -> nu = 1).
Proof.
  intros W S HF HB. eexists. split; [now apply compute_correspond_epilines_rows|].
  split; [now apply shape_of_map2_rows|].
  intros k j F p HFk Hp.
  assert (HF3 : is_3_3 F = true).
  { rewrite forallb_forall in HF. apply HF. eapply nth_error_In; eassumption. }
  destruct (matvec_3 F (homogeneous points p) HF3) as (r0 & r1 & r2 & _ & Em).
  destruct (epiline_R F _ _ _ _ Em) as (nu & Hnu & El & Hunit & Hdeg).
  exists (dot r0 (homogeneous points p)), (dot r1 (homogeneous points p)),
         (dot r2 (homogeneous points p)), nu.
  repeat split; try assumption.
  unfold item in Hp.
  destruct (nth_error (coords points) k) as [P|] eqn:EP; [|discriminate].
  rewrite <- El.
  apply (item_map2_rows (fun F p => epiline F (homogeneous points p))
           F_mat (coords points) k j F P p); assumption.
Qed.

Lemma length_3_inv {A : Type} (l : list A) :
  List.length l = 3%nat -> exists x y z, l = [x; y; z].
Proof.
  destruct l as [|x [|y [|z [|? ?]]]]; try discriminate. intros _. now exists x, y, z.
Qed.

Lemma item_inv {T : Type} (x : list (matrix T)) (k j : nat) (a : list T) :
  item x k j = Some a ->
  exists P, nth_error x k = Some P /\ nth_error P j = Some a.
Proof.
  unfold item. destruct (nth_error x k) as [P|]; [|discriminate].
  intros Ha. now exists P.
Qed.

Lemma well_shaped_item {T : Type} `{Scalar T} (points : points_tensor T)
    (k j : nat) (p : list T) :
  well_shaped points -> shape_2_or_3 points = true ->
  item (coords points) k j = Some p ->
  List.length (homogeneous points p) = 3%nat.
Proof.
  intros W S Hp. apply homogeneous_length; [assumption|].
  destruct (item_in _ _ _ _ Hp) as (P & HP & Hin).
  unfold well_shaped in W. rewrite Forall_forall in W. specialize (W P HP).
  rewrite Forall_forall in W. now apply W.
Qed.

Ltac real_vectors :=
  unfold perpendicular, cross, dot, t_sum;
  cbn [map2 nth fold_left
       fadd fsub fmul fdiv fneg lit one zero Scalar_R];
  rewrite ?Q2R_0, ?Q2R_1.

(** X18: Over the reals, every line returned by get_perpendicular passes through its
    point and has a normal orthogonal to the normal of the given line. *)
Theorem get_perpendicular_through_point
    (lines : list (matrix R)) (points : points_tensor R) :
  forallb (forallb (fun l => Nat.eqb (List.length l) 3)) lines = true ->
  well_shaped points -> shape_2_or_3 points = true ->
  same_shape (coords points) lines ->
  exists perp,
    get_perpendicular lines points = Ok perp
    /\ shape_of perp = shape_of lines
    /\ forall k j l p,
         item lines k j = Some l -> item (coords points) k j = Some p ->
         exists r,
           item perp k j = Some r
           /\ dot r (homogeneous points p) = 0
           /\ nth 0 r 0 * nth 0 l 0 + nth 1 r 0 * nth 1 l 0 = 0.
Proof.
  intros HL W S HS. eexists. split; [now apply get_perpendicular_rows|].
  split; [rewrite shape_of_map2 by exact HS; exact HS|].
  intros k j l p Hl Hp. eexists. split.
  - apply (item_map2_map2 (fun p l => perpendicular l (homogeneous points p)));
      eassumption.
  - pose proof (well_shaped_item points k j p W S Hp) as Lp.
    destruct (length_3_inv _ Lp) as (x & y & w & ->).
    destruct (item_in _ _ _ _ Hl) as (L & HLin & Hin).
    rewrite forallb_forall in HL. specialize (HL L HLin).
    rewrite forallb_forall in HL. specialize (HL l Hin).
    apply Nat.eqb_eq in HL. destruct (length_3_inv _ HL) as (a & b & c & ->).
    real_vectors. split; ring.
Qed.

Lemma closest_point_homogeneous_item
    (pts1 pts2 : points_tensor R) (Fm : list (matrix R)) :
  forallb is_3_3 Fm = true ->
  well_shaped pts1 -> shape_2_or_3 pts1 = true -> shape_2_or_3 pts2 = true ->
  List.length Fm = List.length (coords pts1) ->
  same_shape (coords pts1) (coords pts2) ->
  exists H,
    closest_point_homogeneous pts1 pts2 Fm = Ok H
    /\ shape_of H = shape_of (coords pts1)
    /\ forall k j F p1 p2,
         nth_error Fm k = Some F ->
         item (coords pts1) k j = Some p1 -> item (coords pts2) k j = Some p2 ->
         exists a b c nu,
           matvec F (homogeneous pts1 p1) = [a; b; c]
           /\ 0 < nu
           /\ (a <> 0 \/ b <> 0 -> (a * nu) * (a * nu) + (b * nu) * (b * nu) = 1)
           /\ (a = 0 /\ b = 0 -> nu = 1)
           /\ item H k j
              = Some (cross [a * nu; b * nu; c * nu]
                        (perpendicular [a * nu; b * nu; c * nu]
                           (homogeneous pts2 p2))).
Proof.
  intros HF W1 S1 S2 HB HS.
  pose proof (closest_point_homogeneous_rows pts1 pts2 Fm HF W1 S1 S2 HB HS) as E.
  cbv zeta in E. eexists. split; [exact E|].
  assert (HL : shape_of (map2 (fun F P => map (epiline F) P) Fm
                           (coords (homogeneous_points pts1)))
               = shape_of (coords pts1)).
  { rewrite shape_of_map2_rows
      by (cbn [homogeneous_points coords]; now rewrite length_map).
    apply shape_of_map. }
  split.
  { rewrite shape_of_map2; [exact HL|]. unfold same_shape. rewrite HL.
    rewrite shape_of_map2.
    - cbn [homogeneous_points coords]. rewrite shape_of_map. exact HS.
    - unfold same_shape. rewrite HL. cbn [homogeneous_points coords].
      rewrite shape_of_map. symmetry. exact HS. }
  intros k j F p1 p2 HFk Hp1 Hp2.
  assert (HF3 : is_3_3 F = true).
  { rewrite forallb_forall in HF. apply HF. eapply nth_error_In; eassumption. }
  destruct (matvec_3 F (homogeneous pts1 p1) HF3) as (r0 & r1 & r2 & _ & Em).
  destruct (epiline_R F _ _ _ _ Em) as (nu & Hnu & El & Hunit & Hdeg).
  exists (dot r0 (homogeneous pts1 p1)), (dot r1 (homogeneous pts1 p1)),
         (dot r2 (homogeneous pts1 p1)), nu.
  repeat split; try assumption.
  assert (Hline : item (map2 (fun F P => map (epiline F) P) Fm
                          (coords (homogeneous_points pts1))) k j
                  = Some (epiline F (homogeneous pts1 p1))).
  { pose proof (item_map (homogeneous pts1) _ _ _ _ Hp1) as Hq.
    apply item_inv in Hq. destruct Hq as (Q & EQ & Hq).
    apply (item_map2_rows epiline Fm _ k j F Q); assumption. }
  rewrite <- El.
  apply (item_map2_map2 cross); [exact Hline|].
  apply (item_map2_map2 (fun p l => perpendicular l p)); [|exact Hline].
  apply (item_map (homogeneous pts2)). exact Hp2.
Qed.

Lemma foot_of_perpendicular (A B C x2 y2 : R) :
  A * A + B * B = 1 ->
  let x := B * B * x2 - A * B * y2 - A * C in
  let y := A * A * y2 - A * B * x2 - B * C in
  A * x + B * y + C = 0
  /\ forall u v, A * u + B * v + C = 0 ->
       (x - x2) * (x - x2) + (y - y2) * (y - y2)
       <= (u - x2) * (u - x2) + (v - y2) * (v - y2).
Proof.
  intros E x y. set (d := A * x2 + B * y2 + C).
  assert (Hx : x - x2 = - A * d).
  { assert (K : x - x2 + A * d = x2 * (A * A + B * B - 1)) by (unfold x, d; ring).
    rewrite E in K. lra. }
  assert (Hy : y - y2 = - B * d).
  { assert (K : y - y2 + B * d = y2 * (A * A + B * B - 1)) by (unfold y, d; ring).
    rewrite E in K. lra. }
  split.
  - assert (K : A * x + B * y + C = C * (1 - (A * A + B * B))) by (unfold x, y; ring).
    rewrite E in K. lra.
  - intros u v Huv. rewrite Hx, Hy.
    set (U := u - x2). set (V := v - y2).
    assert (Hd : A * U + B * V = - d) by (unfold U, V, d; lra).
    assert (K : (A * U + B * V) * (A * U + B * V) + (B * U - A * V) * (B * U - A * V)
                = (A * A + B * B) * (U * U + V * V)) by ring.
    assert (L : - A * d * (- A * d) + - B * d * (- B * d) = (A * A + B * B) * (d * d))
      by ring.
    rewrite E in K, L. rewrite Hd in K.
    pose proof (Rle_0_sqr (B * U - A * V)) as S. unfold Rsqr in S. lra.
Qed.

(** X19: Over the reals, for 2-D points pts2 and an epipolar line F p1 with non-zero
    normal, the homogeneous point that get_closest_point_on_epipolar_line passes
    to convert_points_from_homogeneous is (x, y, 1), (x, y) lies on the line F
    p1, and no point of that line is closer to p2. *)
Theorem closest_point_minimises_distance
    (pts1 pts2 : points_tensor R) (Fm : list (matrix R)) :
  forallb is_3_3 Fm = true ->
  well_shaped pts1 -> well_shaped pts2 ->
  shape_2_or_3 pts1 = true -> shape_last pts2 = 2%nat ->
  List.length Fm = List.length (coords pts1) ->
  same_shape (coords pts1) (coords pts2) ->
  exists H,
    closest_point_homogeneous pts1 pts2 Fm = Ok H
    /\ shape_of H = shape_of (coords pts1)
    /\ forall k j F p1 p2,
         nth_error Fm k = Some F ->
         item (coords pts1) k j = Some p1 -> item (coords pts2) k j = Some p2 ->
         exists a b c x2 y2,
           matvec F (homogeneous pts1 p1) = [a; b; c]
           /\ p2 = [x2; y2]
           /\ (a <> 0 \/ b <> 0 ->
               exists x y,
                 item H k j = Some [x; y; 1]
                 /\ a * x + b * y + c = 0
                 /\ forall u v, a * u + b * v + c = 0 ->
                      (x - x2) * (x - x2) + (y - y2) * (y - y2)
                      <= (u - x2) * (u - x2) + (v - y2) * (v - y2)).
Proof.
  intros HF W1 W2 S1 D2 HB HS.
  assert (S2 : shape_2_or_3 pts2 = true) by (unfold shape_2_or_3; now rewrite D2).
  destruct (closest_point_homogeneous_item pts1 pts2 Fm HF W1 S1 S2 HB HS)
    as (H & EH & Hshape & Hitem).
  exists H. split; [exact EH|]. split; [exact Hshape|].
  intros k j F p1 p2 HFk Hp1 Hp2.
  destruct (Hitem k j F p1 p2 HFk Hp1 Hp2) as (a & b & c & nu & Em & Hnu & Hunit & _ & Hh).
  assert (L2 : List.length p2 = 2%nat).
  { destruct (item_in _ _ _ _ Hp2) as (P & HP & Hin).
    unfold well_shaped in W2. rewrite Forall_forall in W2. specialize (W2 P HP).
    rewrite Forall_forall in W2. rewrite <- D2. now apply W2. }
  destruct p2 as [|x2 [|y2 [|? ?]]]; try discriminate L2.
  exists a, b, c, x2, y2. split; [exact Em|]. split; [reflexivity|].
  intros Hn. specialize (Hunit Hn).
  set (A := a * nu) in *. set (B := b * nu) in *. set (C := c * nu) in *.
  destruct (foot_of_perpendicular A B C x2 y2 Hunit) as [Hon Hmin].
  cbv zeta in Hon, Hmin.
  exists (B * B * x2 - A * B * y2 - A * C), (A * A * y2 - A * B * x2 - B * C).
  split; [|split].
  - rewrite Hh. unfold homogeneous. rewrite D2. cbn [Nat.eqb app].
    real_vectors. apply (f_equal Some).
    apply (f_equal2 cons); [ring|]. apply (f_equal2 cons); [ring|].
    apply (f_equal2 cons); [|reflexivity].
    transitivity (A * A + B * B); [ring | exact Hunit].
  - apply (Rmult_eq_reg_l nu); [|lra]. rewrite Rmult_0_r. rewrite <- Hon.
    unfold A, B, C. ring.
  - intros u v Huv. apply Hmin.
    replace (A * u + B * v + C) with (nu * (a * u + b * v + c))
      by (unfold A, B, C; ring).
    rewrite Huv. ring.
Qed.

(** For points of dimension 2 or 3, the homogeneous point computed by
    [get_closest_point_on_epipolar_line] lies on the epipolar line F * p1 and
    on the perpendicular through p2. *)
Lemma closest_point_on_epipolar_line
    (pts1 pts2 : points_tensor R) (Fm : list (matrix R)) :
  forallb is_3_3 Fm = true ->
  well_shaped pts1 -> well_shaped pts2 ->
  shape_2_or_3 pts1 = true -> shape_2_or_3 pts2 = true ->
  List.length Fm = List.length (coords pts1) ->
  same_shape (coords pts1) (coords pts2) ->
  exists H,
    closest_point_homogeneous pts1 pts2 Fm = Ok H
    /\ forall k j F p1 p2,
         nth_error Fm k = Some F ->
         item (coords pts1) k j = Some p1 -> item (coords pts2) k j = Some p2 ->
         exists h l,
           item H k j = Some h
           /\ List.length h = 3%nat
           /\ l = matvec F (homogeneous pts1 p1)
           /\ dot l h = 0
           /\ dot (cross (homogeneous pts2 p2) [nth 0 l 0; nth 1 l 0; 0]) h = 0.
Proof.
  intros HF W1 W2 S1 S2 HB HS.
  destruct (closest_point_homogeneous_item pts1 pts2 Fm HF W1 S1 S2 HB HS)
    as (H & EH & Hshape & Hitem).
  exists H. split; [exact EH|].
  intros k j F p1 p2 HFk Hp1 Hp2.
  destruct (Hitem k j F p1 p2 HFk Hp1 Hp2) as (a & b & c & nu & Em & Hnu & _ & _ & Hh).
  pose proof (well_shaped_item pts2 k j p2 W2 S2 Hp2) as L2.
  destruct (length_3_inv _ L2) as (x2 & y2 & w2 & E2).
  eexists _, _. split; [exact Hh|]. split; [reflexivity|]. split; [reflexivity|].
  rewrite Em, E2. real_vectors. split; ring.
Qed.

(** X20: Over the reals, when F p1 = (0, 0, c), the homogeneous point that
    get_closest_point_on_epipolar_line passes to convert_points_from_homogeneous
    is the zero vector (0, 0, 0). *)
Theorem closest_point_zero_normal
    (pts1 pts2 : points_tensor R) (Fm : list (matrix R)) :
  forallb is_3_3 Fm = true ->
  well_shaped pts1 ->
  shape_2_or_3 pts1 = true -> shape_2_or_3 pts2 = true ->
  List.length Fm = List.length (coords pts1) ->
  same_shape (coords pts1) (coords pts2) ->
  exists H,
    closest_point_homogeneous pts1 pts2 Fm = Ok H
    /\ forall k j F p1 p2 c,
         nth_error Fm k = Some F ->
         item (coords pts1) k j = Some p1 -> item (coords pts2) k j = Some p2 ->
         matvec F (homogeneous pts1 p1) = [0; 0; c] ->
         item H k j = Some [0; 0; 0].
Proof.
  intros HF W1 S1 S2 HB HS.
  destruct (closest_point_homogeneous_item pts1 pts2 Fm HF W1 S1 S2 HB HS)
    as (H & EH & Hshape & Hitem).
  exists H. split; [exact EH|].
  intros k j F p1 p2 c HFk Hp1 Hp2 Em.
  destruct (Hitem k j F p1 p2 HFk Hp1 Hp2) as (a & b & c' & nu & Em' & Hnu & _ & _ & Hh).
  rewrite Em in Em'. injection Em' as <- <- <-.
  rewrite Hh. real_vectors. apply (f_equal Some).
  repeat (apply (f_equal2 cons); [ring|]). reflexivity.
Qed.

Ltac example_shapes :=
  first [ reflexivity | repeat constructor ].

Lemma compute_correspond_epilines_normalised_witness :
  exists lines,
    compute_correspond_epilines example_points_1 example_F = Ok lines
    /\ shape_of lines = shape_of (coords example_points_1)
    /\ forall k j F p,
         nth_error example_F k = Some F -> item (coords example_points_1) k j = Some p ->
         exists a b c nu,
           matvec F (homogeneous example_points_1 p) = [a; b; c]
           /\ 0 < nu
           /\ item lines k j = Some [a * nu; b * nu; c * nu]
           /\ (a <> 0 \/ b <> 0 -> (a * nu) * (a * nu) + (b * nu) * (b * nu) = 1)
           /\ (a = 0 /\ b = 0 -> nu = 1).
Proof.
  apply (compute_correspond_epilines_normalised example_points_1 example_F);
    example_shapes.
Defined.

Lemma get_perpendicular_through_point_witness :
  exists perp,
    get_perpendicular example_lines example_points_2 = Ok perp
    /\ shape_of perp = shape_of example_lines
    /\ forall k j l p,
         item example_lines k j = Some l -> item (coords example_points_2) k j = Some p ->
         exists r,
           item perp k j = Some r
           /\ dot r (homogeneous example_points_2 p) = 0
           /\ nth 0 r 0 * nth 0 l 0 + nth 1 r 0 * nth 1 l 0 = 0.
Proof.
  apply (get_perpendicular_through_point example_lines example_points_2);
    example_shapes.
Defined.

Lemma closest_point_minimises_distance_witness :
  exists H,
    closest_point_homogeneous example_points_1 example_points_2 example_F = Ok H
    /\ shape_of H = shape_of (coords example_points_1)
    /\ forall k j F p1 p2,
         nth_error example_F k = Some F ->
         item (coords example_points_1) k j = Some p1 -> item (coords example_points_2) k j = Some p2 ->
         exists a b c x2 y2,
           matvec F (homogeneous example_points_1 p1) = [a; b; c]
           /\ p2 = [x2; y2]
           /\ (a <> 0 \/ b <> 0 ->
               exists x y,
                 item H k j = Some [x; y; 1]
                 /\ a * x + b * y + c = 0
                 /\ forall u v, a * u + b * v + c = 0 ->
                      (x - x2) * (x - x2) + (y - y2) * (y - y2)
                      <= (u - x2) * (u - x2) + (v - y2) * (v - y2)).
Proof.
  apply (closest_point_minimises_distance example_points_1 example_points_2 example_F);
    example_shapes.
Defined.

Lemma closest_point_on_epipolar_line_witness :
  exists H,
    closest_point_homogeneous example_points_1 example_points_2 example_F = Ok H
    /\ forall k j F p1 p2,
         nth_error example_F k = Some F ->
         item (coords example_points_1) k j = Some p1 -> item (coords example_points_2) k j = Some p2 ->
         exists h l,
           item H k j = Some h
           /\ List.length h = 3%nat
           /\ l = matvec F (homogeneous example_points_1 p1)
           /\ dot l h = 0
           /\ dot (cross (homogeneous example_points_2 p2) [nth 0 l 0; nth 1 l 0; 0]) h = 0.
Proof.
  apply (closest_point_on_epipolar_line example_points_1 example_points_2 example_F);
    example_shapes.
Defined.

Lemma closest_point_zero_normal_witness :
  exists H,
    closest_point_homogeneous example_points_1 example_points_2 example_F_degenerate = Ok H
    /\ forall k j F p1 p2 c,
         nth_error example_F_degenerate k = Some F ->
         item (coords example_points_1) k j = Some p1 -> item (coords example_points_2) k j = Some p2 ->
         matvec F (homogeneous example_points_1 p1) = [0; 0; c] ->
         item H k j = Some [0; 0; 0].
Proof.
  apply (closest_point_zero_normal example_points_1 example_points_2 example_F_degenerate);
    example_shapes.
Defined.

(** ** The linear system and the determinant pencil of the estimators *)

Lemma view_3_3_inv {T : Type} (f : list T) (F : matrix T) :
  view_3_3 f = Ok F ->
  exists a b c d e g h i j,
    f = [a; b; c; d; e; g; h; i; j] /\ F = [[a; b; c]; [d; e; g]; [h; i; j]].
Proof.
  destruct f as [|a [|b [|c [|d [|e [|g [|h [|i [|j [|? ?]]]]]]]]]];
    try discriminate.
  intros E. injection E as <-. repeat eexists.
Qed.

(** X24: Over the reals, the row of the linear system built for a correspondence (p1,
    p2), dotted with the nine entries of a matrix F read row by row as view(3,
    3) does, equals the epipolar form p2^T F p1. *)
Theorem design_matrix_epipolar (points1 points2 : list (point R)) (i : nat)
    (p1 p2 : point R) (f : list R) (F : matrix R) :
  nth_error points1 i = Some p1 -> nth_error points2 i = Some p2 ->
  view_3_3 f = Ok F ->
  exists row,
    nth_error (design_matrix points1 points2) i = Some row
    /\ dot row f = dot [fst p2; snd p2; 1] (matvec F [fst p1; snd p1; 1]).
Proof.
  intros H1 H2 HF. eexists. split.
  - unfold design_matrix. erewrite nth_error_map2 by eassumption. reflexivity.
  - apply view_3_3_inv in HF.
    destruct HF as (a & b & c & d & e & g & h & k & j & -> & ->).
    destruct p1 as [x1 y1], p2 as [x2 y2]. cbn [fst snd].
    unfold matvec. cbn [map]. real_vectors. ring.
Qed.

Lemma pencil_determinant
    (a0 a1 a2 a3 a4 a5 a6 a7 a8 b0 b1 b2 b3 b4 b5 b6 b7 b8 l m z : R) :
  z = l * a8 + m * b8 ->
  det [[l * a0 + m * b0; l * a1 + m * b1; l * a2 + m * b2];
       [l * a3 + m * b3; l * a4 + m * b4; l * a5 + m * b5];
       [l * a6 + m * b6; l * a7 + m * b7; z]]
  = nth 0 (cubic_coefficients [a0; a1; a2; a3; a4; a5; a6; a7; a8]
                              [b0; b1; b2; b3; b4; b5; b6; b7; b8]) 0 * (l * l * l)
    + nth 1 (cubic_coefficients [a0; a1; a2; a3; a4; a5; a6; a7; a8]
                                [b0; b1; b2; b3; b4; b5; b6; b7; b8]) 0 * (l * l * m)
    + nth 2 (cubic_coefficients [a0; a1; a2; a3; a4; a5; a6; a7; a8]
                                [b0; b1; b2; b3; b4; b5; b6; b7; b8]) 0 * (l * m * m)
    + nth 3 (cubic_coefficients [a0; a1; a2; a3; a4; a5; a6; a7; a8]
                                [b0; b1; b2; b3; b4; b5; b6; b7; b8]) 0 * (m * m * m).
Proof.
  intros ->. vm_compute.
  replace (/ R1) with R1 by (change R1 with 1; field).
  ring.
Qed.

(** X25: Over the reals, the four coefficients computed by run_7point from f1 and f2
    are the coefficients of det(l F1 + m F2) = c0 l^3 + c1 l^2 m + c2 l m^2 + c3
    m^3. *)
Theorem cubic_coefficients_determinant (f1 f2 : list R) (F1 F2 : matrix R) (l m : R) :
  view_3_3 f1 = Ok F1 -> view_3_3 f2 = Ok F2 ->
  det (map2 (map2 (fun x y => l * x + m * y)) F1 F2)
  = nth 0 (cubic_coefficients f1 f2) 0 * (l * l * l)
    + nth 1 (cubic_coefficients f1 f2) 0 * (l * l * m)
    + nth 2 (cubic_coefficients f1 f2) 0 * (l * m * m)
    + nth 3 (cubic_coefficients f1 f2) 0 * (m * m * m).
Proof.
  intros H1 H2. apply view_3_3_inv in H1, H2.
  destruct H1 as (a0 & a1 & a2 & a3 & a4 & a5 & a6 & a7 & a8 & -> & ->).
  destruct H2 as (b0 & b1 & b2 & b3 & b4 & b5 & b6 & b7 & b8 & -> & ->).
  cbn [map2]. now apply pencil_determinant.
Qed.

Lemma cubic_coefficients_determinant_witness :
  det (map2 (map2 (fun x y => 2 * x + 1 * y))
         [[1; 0; 0]; [0; 1; 0]; [0; 0; 1]] [[0; 1; 0]; [0; 0; 1]; [1; 0; 0]])
  = nth 0 (cubic_coefficients [1; 0; 0; 0; 1; 0; 0; 0; 1] [0; 1; 0; 0; 0; 1; 1; 0; 0]) 0
      * (2 * 2 * 2)
    + nth 1 (cubic_coefficients [1; 0; 0; 0; 1; 0; 0; 0; 1] [0; 1; 0; 0; 0; 1; 1; 0; 0]) 0
      * (2 * 2 * 1)
    + nth 2 (cubic_coefficients [1; 0; 0; 0; 1; 0; 0; 0; 1] [0; 1; 0; 0; 0; 1; 1; 0; 0]) 0
      * (2 * 1 * 1)
    + nth 3 (cubic_coefficients [1; 0; 0; 0; 1; 0; 0; 0; 1] [0; 1; 0; 0; 0; 1; 1; 0; 0]) 0
      * (1 * 1 * 1).
Proof.
  apply (cubic_coefficients_determinant
           [1; 0; 0; 0; 1; 0; 0; 0; 1] [0; 1; 0; 0; 0; 1; 1; 0; 0]
           [[1; 0; 0]; [0; 1; 0]; [0; 0; 1]] [[0; 1; 0]; [0; 0; 1]; [1; 0; 0]] 2 1);
    reflexivity.
Defined.

Lemma design_matrix_epipolar_witness :
  exists row,
    nth_error (design_matrix [(1, 2)] [(3, 4)]) 0 = Some row
    /\ dot row [0; 0; 0; 0; 0; -1; 0; 1; 0]
       = dot [fst (3, 4); snd (3, 4); 1]
             (matvec [[0; 0; 0]; [0; 0; -1]; [0; 1; 0]] [fst (1, 2); snd (1, 2); 1]).
Proof.
  apply (design_matrix_epipolar [(1, 2)] [(3, 4)] 0 (1, 2) (3, 4)
           [0; 0; 0; 0; 0; -1; 0; 1; 0] [[0; 0; 0]; [0; 0; -1]; [0; 1; 0]]);
    reflexivity.
Defined.

(** X26: Over the reals, the candidate matrix that the loop of run_7point builds from
    a root of the cubic has determinant 0, provided the entry s = F1[2,2] * root
    + F2[2,2] satisfies |s| > 1e-16 or s = 0. *)
Theorem candidate_singular (f1 f2 : list R) (F1 F2 : matrix R) (root : R) :
  view_3_3 f1 = Ok F1 -> view_3_3 f2 = Ok F2 ->
  nth 0 (cubic_coefficients f1 f2) 0 * (root * root * root)
  + nth 1 (cubic_coefficients f1 f2) 0 * (root * root)
  + nth 2 (cubic_coefficients f1 f2) 0 * root
  + nth 3 (cubic_coefficients f1 f2) 0 = 0 ->
  / 10000000000000000 < Rabs (entry F1 2 2 * root + entry F2 2 2)
  \/ entry F1 2 2 * root + entry F2 2 2 = 0 ->
  det (candidate F1 F2 root) = 0.
Proof.
  intros H1 H2 Hroot Hs. apply view_3_3_inv in H1, H2.
  destruct H1 as (a0 & a1 & a2 & a3 & a4 & a5 & a6 & a7 & a8 & -> & ->).
  destruct H2 as (b0 & b1 & b2 & b3 & b4 & b5 & b6 & b7 & b8 & -> & ->).
  cbn [entry nth] in Hs.
  set (f1 := [a0; a1; a2; a3; a4; a5; a6; a7; a8]) in *.
  set (f2 := [b0; b1; b2; b3; b4; b5; b6; b7; b8]) in *.
  set (c0 := nth 0 (cubic_coefficients f1 f2) 0) in *.
  set (c1 := nth 1 (cubic_coefficients f1 f2) 0) in *.
  set (c2 := nth 2 (cubic_coefficients f1 f2) 0) in *.
  set (c3 := nth 3 (cubic_coefficients f1 f2) 0) in *.
  set (s := a8 * root + b8) in *.
  assert (E : exists l m z,
             candidate [[a0; a1; a2]; [a3; a4; a5]; [a6; a7; a8]]
                       [[b0; b1; b2]; [b3; b4; b5]; [b6; b7; b8]] root
             = [[l * a0 + m * b0; l * a1 + m * b1; l * a2 + m * b2];
                [l * a3 + m * b3; l * a4 + m * b4; l * a5 + m * b5];
                [l * a6 + m * b6; l * a7 + m * b7; z]]
             /\ z = l * a8 + m * b8 /\ l = root * m).
  { unfold candidate. cbn [entry nth]. unfold fgtb.
    cbn [fadd fsub fmul fdiv fneg fabs lit one zero fltb Scalar_R].
    rewrite Q2R_tiny, ?Q2R_0, ?Q2R_1. fold s.
    destruct Hs as [Hs|Hs].
    - rewrite Rltb_true by exact Hs.
      assert (Hnz : s <> 0).
      { intros Z. rewrite Z, Rabs_R0 in Hs.
        assert (0 < / 10000000000000000) by (apply Rinv_0_lt_compat; lra). lra. }
      exists (root * (1 / s)), (1 / s), 1. split; [|split; [|reflexivity]].
      + cbn [map seq Nat.eqb andb entry nth].
        repeat (apply (f_equal2 cons);
                [first [reflexivity
                       | repeat (apply (f_equal2 cons); [first [reflexivity | ring]|]);
                         reflexivity]|]).
        reflexivity.
      + unfold s. field. exact Hnz.
    - rewrite Rltb_false
        by (rewrite Hs, Rabs_R0; left; apply Rinv_0_lt_compat; lra).
      exists root, 1, 0. split; [|split; [|ring]].
      + cbn [map seq Nat.eqb andb entry nth].
        repeat (apply (f_equal2 cons);
                [first [reflexivity
                       | repeat (apply (f_equal2 cons); [first [reflexivity | ring]|]);
                         reflexivity]|]).
        reflexivity.
      + unfold s in Hs. lra. }
  destruct E as (l & m & z & -> & Hz & Hl).
  rewrite (pencil_determinant a0 a1 a2 a3 a4 a5 a6 a7 a8 b0 b1 b2 b3 b4 b5 b6 b7 b8 l m z Hz).
  fold f1 f2 c0 c1 c2 c3. rewrite Hl.
  replace (c0 * (root * m * (root * m) * (root * m)) + c1 * (root * m * (root * m) * m)
           + c2 * (root * m * m * m) + c3 * (m * m * m))
    with (m * m * m * (c0 * (root * root * root) + c1 * (root * root) + c2 * root + c3))
    by ring.
  rewrite Hroot. ring.
Qed.

Lemma candidate_singular_witness :
  det (candidate [[1; 0; 0]; [0; 1; 0]; [0; 0; 1]] [[0; 1; 0]; [0; 0; 1]; [1; 0; 0]] (-1))
  = 0.
Proof.
  apply (candidate_singular
           [1; 0; 0; 0; 1; 0; 0; 0; 1] [0; 1; 0; 0; 0; 1; 1; 0; 0]
           [[1; 0; 0]; [0; 1; 0]; [0; 0; 1]] [[0; 1; 0]; [0; 0; 1]; [1; 0; 0]] (-1)).
  - reflexivity.
  - reflexivity.
  - vm_compute. replace (/ R1) with R1 by (change R1 with 1; field). ring.
  - left. cbn [entry nth].
    replace (1 * -1 + 0) with (- (1)) by ring. rewrite Rabs_Ropp, Rabs_R1.
    assert (0 < / 10000000000000000 < 1); [|lra].
    split; [apply Rinv_0_lt_compat; lra|].
    rewrite <- Rinv_1. apply Rinv_lt_contravar; lra.
Defined.

(** ** Weights of one in the eight-point estimator *)

Lemma dot_R (u v : list R) : dot u v = fold_right Rplus 0 (map2 Rmult u v).
Proof. unfold dot. now rewrite t_sum_R. Qed.

Lemma dot_indicator_out (row : list R) (j s : nat) :
  (j < s)%nat ->
  dot row (map (fun i => if Nat.eqb i j then 1 else 0) (seq s (List.length row))) = 0.
Proof.
  rewrite dot_R. revert s. induction row as [|x row IH]; intros s Hj; [reflexivity|].
  cbn [List.length seq map map2 fold_right].
  rewrite IH by lia.
  destruct (Nat.eqb_spec s j); [lia | ring].
Qed.

Lemma dot_indicator_in (row : list R) (j s : nat) :
  (s <= j < s + List.length row)%nat ->
  dot row (map (fun i => if Nat.eqb i j then 1 else 0) (seq s (List.length row)))
  = nth (j - s) row 0.
Proof.
  revert s. induction row as [|x row IH]; intros s Hj; [cbn in Hj; lia|].
  rewrite dot_R. cbn [List.length seq map map2 fold_right].
  rewrite <- dot_R.
  destruct (Nat.eqb_spec s j) as [->|Hne].
  - rewrite dot_indicator_out by lia. rewrite Nat.sub_diag. cbn [nth]. ring.
  - rewrite IH by (cbn [List.length] in Hj; lia).
    replace (j - s)%nat with (S (j - S s)) by lia. cbn [nth]. ring.
Qed.

Lemma diag_embed_ones_transpose {A : Type} (l : list A) :
  transpose (diag_embed (map (fun _ => 1) l))
  = map (fun j => map (fun i => if Nat.eqb i j then 1 else 0) (seq 0 (List.length l)))
        (seq 0 (List.length l)).
Proof.
  unfold transpose, diag_embed. rewrite length_map.
  set (n := List.length l).
  assert (Hhd : List.length
                  (hd [] (map (fun i => map (fun j => if Nat.eqb i j
                                                       then nth i (map (fun _ : A => 1) l) zero
                                                       else zero) (seq 0 n)) (seq 0 n)))
                = n).
  { destruct n as [|n']; [reflexivity|]. cbn [seq map hd List.length].
    now rewrite ?length_map, ?length_seq. }
  rewrite Hhd. apply map_ext_in. intros j Hj. apply in_seq in Hj.
  unfold column. rewrite map_map. apply map_ext_in. intros i Hi. apply in_seq in Hi.
  rewrite (nth_map_in _ (seq 0 n) j 0%nat) by (rewrite length_seq; lia).
  rewrite seq_nth by lia. cbn [Nat.add].
  destruct (Nat.eqb i j); [|cbn; apply Q2R_0].
  destruct l as [|a l']; [cbn in n; lia|].
  rewrite (nth_map_in _ (a :: l') i a) by (fold n; lia). reflexivity.
Qed.

Lemma matmul_diag_ones {A : Type} (M : matrix R) (l : list A) :
  Forall (fun row => List.length row = List.length l) M ->
  matmul M (diag_embed (map (fun _ => 1) l)) = M.
Proof.
  intros HM. unfold matmul. rewrite diag_embed_ones_transpose.
  rewrite <- (map_id M) at 2. apply map_ext_in. intros row Hrow.
  rewrite Forall_forall in HM. specialize (HM row Hrow).
  rewrite map_map. rewrite <- HM. unfold id.
  transitivity (map (fun i => nth i row 0) (seq 0 (List.length row))).
  - apply map_ext_in. intros j Hj. apply in_seq in Hj.
    rewrite dot_indicator_in by lia. now rewrite Nat.sub_0_r.
  - rewrite (map_nth_seq (fun x => x) 0 row). apply map_id.
Qed.

Section UnitWeights.

Variable svd : matrix R -> matrix R * list R * matrix R.

Lemma run_8point_1_unit_weights {A : Type} (points1_norm points2_norm : list (point R))
    (transform1 transform2 : matrix R) (l : list A) :
  List.length l = List.length (design_matrix points1_norm points2_norm) ->
  run_8point_1 svd points1_norm points2_norm transform1 transform2
               (Some (map (fun _ => 1) l))
  = run_8point_1 svd points1_norm points2_norm transform1 transform2 None.
Proof.
  intros Hl. unfold run_8point_1.
  rewrite matmul_diag_ones; [reflexivity|].
  rewrite Forall_forall. intros row Hrow. unfold transpose in Hrow.
  apply in_map_iff in Hrow. destruct Hrow as (j & <- & _).
  unfold column. now rewrite length_map.
Qed.

Lemma normalize_points_1_length (eps : R) (pts : list (point R)) :
  List.length (fst (normalize_points_1 eps pts)) = List.length pts.
Proof. unfold normalize_points_1, transform_points. cbn [fst]. apply length_map. Qed.

Lemma run_8point_batch_unit_weights (points1 points2 : list (list (point R))) :
  Forall2 (fun a b => List.length a = List.length b) points1 points2 ->
  run_8point_batch svd
    (map fst (map (normalize_points_1 eps_default) points1))
    (map fst (map (normalize_points_1 eps_default) points2))
    (map snd (map (normalize_points_1 eps_default) points1))
    (map snd (map (normalize_points_1 eps_default) points2))
    (Some (map (map (fun _ => 1)) points1))
  = run_8point_batch svd
    (map fst (map (normalize_points_1 eps_default) points1))
    (map fst (map (normalize_points_1 eps_default) points2))
    (map snd (map (normalize_points_1 eps_default) points1))
    (map snd (map (normalize_points_1 eps_default) points2))
    None.
Proof.
  induction 1 as [|pts1 pts2 points1 points2 Hlen _ IH]; [reflexivity|].
  cbn [map run_8point_batch].
  rewrite run_8point_1_unit_weights.
  - now rewrite IH.
  - unfold design_matrix. rewrite map2_length;
      rewrite !normalize_points_1_length; congruence.
Qed.

(** X27: Over the reals, run_8point with all weights equal to one computes exactly
    what it computes without weights, whatever the SVD routine returns. *)
Theorem run_8point_unit_weights (points1 points2 : list (list (point R))) :
  Forall2 (fun a b => List.length a = List.length b) points1 points2 ->
  run_8point svd points1 points2 (Some (map (map (fun _ => 1)) points1))
  = run_8point svd points1 points2 None.
Proof.
  intros HS. unfold run_8point.
  destruct (negb (shape_eqb (shape_B_N points1) (shape_B_N points2))); [reflexivity|].
  destruct (snd (shape_B_N points1) <? 8)%nat; [reflexivity|].
  assert (HW : Nat.eqb (snd (shape_B_N (map (map (fun _ : point R => 1)) points1)))
                       (snd (shape_B_N points1)) = true).
  { unfold shape_B_N. cbn [snd]. destruct points1 as [|pts points1]; [reflexivity|].
    cbn [map hd]. rewrite length_map. apply Nat.eqb_refl. }
  rewrite HW. cbn [bind]. unfold normalize_points. cbv zeta.
  now rewrite run_8point_batch_unit_weights.
Qed.

End UnitWeights.

Lemma run_8point_unit_weights_witness :
  run_8point (fun M : matrix R => (M, [], M))
    [[(0, 0); (1, 0); (0, 1); (1, 1); (2, 1); (1, 2); (2, 3); (3, 3)]]
    [[(0, 1); (1, 1); (0, 2); (1, 3); (2, 2); (1, 4); (3, 3); (4, 3)]]
    (Some (map (map (fun _ => 1))
             [[(0, 0); (1, 0); (0, 1); (1, 1); (2, 1); (1, 2); (2, 3); (3, 3)]]))
  = run_8point (fun M : matrix R => (M, [], M))
    [[(0, 0); (1, 0); (0, 1); (1, 1); (2, 1); (1, 2); (2, 3); (3, 3)]]
    [[(0, 1); (1, 1); (0, 2); (1, 3); (2, 2); (1, 4); (3, 3); (4, 3)]]
    None.
Proof.
  apply (run_8point_unit_weights (fun M : matrix R => (M, [], M))
           [[(0, 0); (1, 0); (0, 1); (1, 1); (2, 1); (1, 2); (2, 3); (3, 3)]]
           [[(0, 1); (1, 1); (0, 2); (1, 3); (2, 2); (1, 4); (3, 3); (4, 3)]]).
  repeat constructor.
Defined.

(** ** Normalisation *)

(** X21: Over the reals with eps >= 0 and bottom-right entry v: when |v| > eps, the
    bottom-right entry of normalize_transformation(M, eps) is v / (v + eps),
    which differs from 1 for eps > 0; when |v| <= eps, M is returned unchanged. *)
Theorem normalize_transformation_bottom_right (M : matrix R) (eps : R) :
  0 <= eps -> last M [] <> [] ->
  (eps < Rabs (bottom_right M) ->
   bottom_right (normalize_transformation M eps)
   = bottom_right M / (bottom_right M + eps)
   /\ (0 < eps -> bottom_right (normalize_transformation M eps) <> 1))
  /\ (Rabs (bottom_right M) <= eps -> normalize_transformation M eps = M).
Proof.
  intros Heps HM. rewrite normalize_transformation_R. split.
  - intros Hv. rewrite Rltb_true by exact Hv.
    rewrite (bottom_right_map (fun x => x / (bottom_right M + eps)) M HM).
    split; [reflexivity|]. intros Hpos E.
    set (v := bottom_right M) in *.
    assert (Hd : v + eps <> 0).
    { unfold Rabs in Hv. destruct (Rcase_abs v); lra. }
    apply (f_equal (fun x => x * (v + eps))) in E.
    unfold Rdiv in E. rewrite Rmult_assoc, Rinv_l in E by exact Hd. lra.
  - intros Hv. now rewrite Rltb_false by exact Hv.
Qed.

Lemma normalize_transformation_bottom_right_witness :
  (1 < Rabs (bottom_right [[4; 0]; [0; 2]]) ->
   bottom_right (normalize_transformation [[4; 0]; [0; 2]] 1)
   = bottom_right [[4; 0]; [0; 2]] / (bottom_right [[4; 0]; [0; 2]] + 1)
   /\ (0 < 1 -> bottom_right (normalize_transformation [[4; 0]; [0; 2]] 1) <> 1))
  /\ (Rabs (bottom_right [[4; 0]; [0; 2]]) <= 1 ->
      normalize_transformation [[4; 0]; [0; 2]] 1 = [[4; 0]; [0; 2]]).
Proof.
  apply (normalize_transformation_bottom_right [[4; 0]; [0; 2]] 1).
  - lra.
  - discriminate.
Defined.

Lemma Q2R_2 : Q2R 2 = 2.
Proof. unfold Q2R. simpl. lra. Qed.

Lemma normalize_points_1_transform (eps : R) (pts : list (R * R)) :
  let c := centroid pts in
  let s := R_sqrt.sqrt 2 / (mean_distance c pts + eps) in
  snd (normalize_points_1 eps pts)
  = [[s; 0; - s * fst c]; [0; s; - s * snd c]; [0; 0; 1]].
Proof.
  intros c s. unfold normalize_points_1. cbn [snd]. fold c.
  cbn [fadd fsub fmul fdiv fneg fsqrt lit one zero Scalar_R].
  rewrite Q2R_0, Q2R_1, Q2R_2. reflexivity.
Qed.

(** X22: Over the reals with eps > 0, the transform returned by normalize_points for
    a non-empty point set maps the centroid of the points to the origin, and its
    scale lies in (0, sqrt(2)/eps]. *)
Theorem normalize_points_transform_centres (points : list (list (point R))) (eps : R)
    (k : nat) (pts : list (point R)) :
  0 < eps -> nth_error points k = Some pts -> pts <> [] ->
  exists transform,
    nth_error (snd (normalize_points points eps)) k = Some transform
    /\ matvec transform [fst (centroid pts); snd (centroid pts); 1] = [0; 0; 1]
    /\ 0 < entry transform 0 0 <= R_sqrt.sqrt 2 / eps.
Proof.
  intros Heps Hk _. eexists. split.
  - unfold normalize_points. cbn [snd]. rewrite map_map.
    apply nth_error_map_some. exact Hk.
  - rewrite normalize_points_1_transform.
    pose proof (mean_distance_nonneg (centroid pts) pts) as Hm.
    set (m := mean_distance (centroid pts) pts) in *.
    assert (H2 : 0 < R_sqrt.sqrt 2) by (apply sqrt_lt_R0; lra).
    split.
    + unfold matvec. cbn [map]. real_vectors.
      apply (f_equal2 cons); [field; lra|].
      apply (f_equal2 cons); [field; lra|].
      apply (f_equal2 cons); [ring | reflexivity].
    + cbn [entry nth]. split.
      * apply Rdiv_lt_0_compat; lra.
      * unfold Rdiv. apply Rmult_le_compat_l; [lra|].
        apply Rinv_le_contravar; lra.
Qed.

Lemma normalize_points_transform_centres_witness :
  exists transform,
    nth_error (snd (normalize_points [[(0, 0); (2, 0)]] 1)) 0 = Some transform
    /\ matvec transform [fst (centroid [(0, 0); (2, 0)]);
                         snd (centroid [(0, 0); (2, 0)]); 1] = [0; 0; 1]
    /\ 0 < entry transform 0 0 <= R_sqrt.sqrt 2 / 1.
Proof.
  apply (normalize_points_transform_centres [[(0, 0); (2, 0)]] 1 0 [(0, 0); (2, 0)]).
  - lra.
  - reflexivity.
  - discriminate.
Defined.

Lemma sum_map_shift {A : Type} (f : A -> R) (d : R) (xs : list A) :
  fold_right Rplus 0 (map (fun x => f x + d) xs)
  = fold_right Rplus 0 (map f xs) + INR (List.length xs) * d.
Proof.
  induction xs as [|x xs IH]; [simpl; lra|].
  cbn [map fold_right List.length]. rewrite IH, S_INR. lra.
Qed.

Lemma centroid_translate (d : R * R) (pts : list (R * R)) :
  pts <> [] -> centroid (map (translate d) pts) = translate d (centroid pts).
Proof.
  intros Hne.
  assert (Hn : INR (List.length pts) <> 0).
  { apply not_0_INR. destruct pts; [congruence | simpl; lia]. }
  unfold centroid, translate. rewrite !map_map. cbn [fst snd].
  rewrite !t_mean_R, !length_map.
  rewrite (sum_map_shift fst (fst d) pts), (sum_map_shift snd (snd d) pts).
  apply injective_projections; cbn [fst snd]; field; exact Hn.
Qed.

Lemma distance_translate (d c p : R * R) :
  distance (translate d c) (translate d p) = distance c p.
Proof.
  rewrite !distance_R. unfold translate. cbn [fst snd]. f_equal. ring.
Qed.

Lemma mean_distance_translate (d : R * R) (pts : list (R * R)) :
  pts <> [] ->
  mean_distance (centroid (map (translate d) pts)) (map (translate d) pts)
  = mean_distance (centroid pts) pts.
Proof.
  intros Hne. rewrite (centroid_translate d pts Hne).
  unfold mean_distance. rewrite map_map.
  f_equal. apply map_ext. intros p. apply distance_translate.
Qed.

(** X23: Over the reals, the normalised points returned by normalize_points do not
    change when all points of the (non-empty) input sets are moved by the same
    vector (transform_points taken as the map through homogeneous coordinates). *)
Theorem normalize_points_translation (points : list (list (point R))) (eps : R)
    (d : R * R) :
  Forall (fun pts => pts <> []) points ->
  fst (normalize_points (map (map (translate d)) points) eps)
  = fst (normalize_points points eps).
Proof.
  intros Hne. unfold normalize_points. cbn [fst]. rewrite !map_map.
  apply map_ext_in. intros pts Hpts.
  rewrite Forall_forall in Hne. specialize (Hne pts Hpts).
  rewrite !normalize_points_1_points.
  rewrite (mean_distance_translate d pts Hne), (centroid_translate d pts Hne).
  rewrite map_map. apply map_ext. intros p.
  unfold translate. cbn [fst snd].
  apply injective_projections; cbn [fst snd]; ring.
Qed.

Lemma normalize_points_translation_witness :
  fst (normalize_points (map (map (translate (5, -3))) [[(0, 0); (2, 0)]]) 1)
  = fst (normalize_points [[(0, 0); (2, 0)]] 1).
Proof.
  apply (normalize_points_translation [[(0, 0); (2, 0)]] 1 (5, -3)).
  repeat constructor; discriminate.
Defined.

(** ** The fundamental matrix of an essential matrix *)

Lemma matvec_matmul_3 (J K : matrix R) (y : list R) :
  is_3_3 J = true -> is_3_3 K = true -> List.length y = 3%nat ->
  matvec J (matvec K y) = matvec (matmul J K) y.
Proof.
  intros HJ HK Hy. apply is_3_3_inv in HJ, HK.
  destruct HJ as (j0 & j1 & j2 & j3 & j4 & j5 & j6 & j7 & j8 & ->).
  destruct HK as (k0 & k1 & k2 & k3 & k4 & k5 & k6 & k7 & k8 & ->).
  destruct (length_3_inv _ Hy) as (y0 & y1 & y2 & ->).
  vm_compute. replace (/ R1) with R1 by (change R1 with 1; field).
  repeat (apply (f_equal2 cons); [ring|]). reflexivity.
Qed.

Lemma matvec_identity_3 (y : list R) :
  List.length y = 3%nat -> matvec identity_3 y = y.
Proof.
  intros Hy. destruct (length_3_inv _ Hy) as (y0 & y1 & y2 & ->).
  vm_compute. replace (/ R1) with R1 by (change R1 with 1; field).
  repeat (apply (f_equal2 cons); [ring|]). reflexivity.
Qed.

Lemma bilinear_form_3 (J2 E J1 : matrix R) (x1 x2 : list R) :
  is_3_3 J2 = true -> is_3_3 E = true -> is_3_3 J1 = true ->
  List.length x1 = 3%nat -> List.length x2 = 3%nat ->
  dot x2 (matvec (matmul (matmul (transpose J2) E) J1) x1)
  = dot (matvec J2 x2) (matvec E (matvec J1 x1)).
Proof.
  intros H2 HE H1 L1 L2. apply is_3_3_inv in H2, HE, H1.
  destruct H2 as (a0 & a1 & a2 & a3 & a4 & a5 & a6 & a7 & a8 & ->).
  destruct HE as (e0 & e1 & e2 & e3 & e4 & e5 & e6 & e7 & e8 & ->).
  destruct H1 as (b0 & b1 & b2 & b3 & b4 & b5 & b6 & b7 & b8 & ->).
  destruct (length_3_inv _ L1) as (u0 & u1 & u2 & ->).
  destruct (length_3_inv _ L2) as (v0 & v1 & v2 & ->).
  vm_compute. replace (/ R1) with R1 by (change R1 with 1; field). ring.
Qed.

Section Essential.

Variable inverse : matrix R -> matrix R.

(** X30: Over the reals, with an inverse routine that returns 3x3 left inverses of K1
    and K2, the matrix F returned by fundamental_from_essential satisfies (K2
    y2)^T F (K1 y1) = y2^T E y1 for all 3-vectors y1, y2. *)
Theorem fundamental_from_essential_constraint (E_mat K1 K2 F : matrix R)
    (y1 y2 : list R) :
  is_3_3 (inverse K1) = true -> is_3_3 (inverse K2) = true ->
  matmul (inverse K1) K1 = identity_3 -> matmul (inverse K2) K2 = identity_3 ->
  fundamental_from_essential inverse E_mat K1 K2 = Ok F ->
  List.length y1 = 3%nat -> List.length y2 = 3%nat ->
  dot (matvec K2 y2) (matvec F (matvec K1 y1)) = dot y2 (matvec E_mat y1).
Proof.
  intros HJ1 HJ2 HI1 HI2 HF L1 L2. unfold fundamental_from_essential in HF.
  destruct (is_3_3 E_mat) eqn:HE; [|discriminate HF].
  destruct (is_3_3 K1) eqn:HK1; [|discriminate HF].
  destruct (is_3_3 K2) eqn:HK2; [|discriminate HF].
  cbn [negb] in HF. injection HF as <-.
  assert (LK1 : List.length (matvec K1 y1) = 3%nat).
  { unfold matvec. rewrite length_map. unfold is_3_3 in HK1.
    apply andb_prop in HK1. now apply Nat.eqb_eq. }
  assert (LK2 : List.length (matvec K2 y2) = 3%nat).
  { unfold matvec. rewrite length_map. unfold is_3_3 in HK2.
    apply andb_prop in HK2. now apply Nat.eqb_eq. }
  rewrite (bilinear_form_3 _ _ _ _ _ HJ2 HE HJ1 LK1 LK2).
  rewrite (matvec_matmul_3 _ _ _ HJ1 HK1 L1), (matvec_matmul_3 _ _ _ HJ2 HK2 L2).
  rewrite HI1, HI2, !matvec_identity_3 by assumption. reflexivity.
Qed.

End Essential.

Lemma fundamental_from_essential_constraint_witness :
  dot (matvec identity_3 [3; 4; 1])
      (matvec [[0; 0; 0]; [0; 0; -1]; [0; 1; 0]] (matvec identity_3 [1; 2; 1]))
  = dot [3; 4; 1] (matvec [[0; 0; 0]; [0; 0; -1]; [0; 1; 0]] [1; 2; 1]).
Proof.
  apply (fundamental_from_essential_constraint (fun M => M)
           [[0; 0; 0]; [0; 0; -1]; [0; 1; 0]] identity_3 identity_3
           [[0; 0; 0]; [0; 0; -1]; [0; 1; 0]] [1; 2; 1] [3; 4; 1]);
    try reflexivity.
  - vm_compute. replace (/ R1) with R1 by (change R1 with 1; field).
    repeat (apply (f_equal2 cons);
            [repeat (apply (f_equal2 cons); [ring|]); reflexivity|]).
    reflexivity.
  - vm_compute. replace (/ R1) with R1 by (change R1 with 1; field).
    repeat (apply (f_equal2 cons);
            [repeat (apply (f_equal2 cons); [ring|]); reflexivity|]).
    reflexivity.
  - vm_compute. replace (/ R1) with R1 by (change R1 with 1; field).
    apply (f_equal Ok).
    repeat (apply (f_equal2 cons);
            [repeat (apply (f_equal2 cons); [ring|]); reflexivity|]).
    reflexivity.
Defined.

Close Scope R_scope.

(** ** What the estimators return *)

Section EstimatorFacts.

Context {T : Type} `{Scalar T}.

Variable svd : matrix T -> matrix T * list T * matrix T.

Variable upper : string -> string.

Lemma run_7point_raises (points1 points2 : list (list (point T))) :
  exists e, run_7point svd points1 points2 = Raise e.
Proof.
  unfold run_7point.
  destruct (check_shape_B_7_2 points1) as [[]|e1]; cbn [bind]; [|eauto].
  destruct (check_shape_B_7_2 points2) as [[]|e2]; cbn [bind]; [|eauto].
  destruct (normalize_points points1 eps_default) as [points1_norm transform1].
  destruct (normalize_points points2 eps_default) as [points2_norm transform2].
  destruct (map _ (map2 design_matrix points1_norm points2_norm)) as [|v0 v];
    cbn [bind]; [eauto|].
  destruct (forallb _ v0); cbn [bind]; [|eauto].
  destruct (8 <? List.length v0); cbn [bind]; [|eauto].
  cbn. eauto.
Qed.

(** X29: find_fundamental with a method whose upper-case form is 7POINT never returns
    a matrix: it ends with an exception on every input. *)
Theorem find_fundamental_7point_raises (points1 points2 : list (list (point T)))
    (weights : option (list (list T))) (method : string) :
  upper method = "7POINT"%string ->
  exists e, find_fundamental svd upper points1 points2 weights method = Raise e.
Proof.
  intros E. unfold find_fundamental. rewrite E. cbn [String.eqb].
  replace (String.eqb "7POINT" "7POINT") with true by reflexivity.
  apply run_7point_raises.
Qed.

Lemma design_matrix_rows (points1_norm points2_norm : list (point T)) :
  points1_norm <> [] -> points2_norm <> [] ->
  List.length (hd [] (design_matrix points1_norm points2_norm)) = 9.
Proof.
  destruct points1_norm as [|p1 ps1]; [congruence|].
  destruct points2_norm as [|p2 ps2]; [congruence|]. reflexivity.
Qed.

Lemma run_8point_1_returns (points1_norm points2_norm : list (point T))
    (transform1 transform2 : matrix T) (weights : option (list T)) :
  (forall X, List.length X = 9 -> List.length (snd (svd X)) = 9) ->
  points1_norm <> [] -> points2_norm <> [] ->
  exists F, run_8point_1 svd points1_norm points2_norm transform1 transform2 weights
            = Ok F.
Proof.
  intros Hsvd H1 H2. unfold run_8point_1.
  set (D := design_matrix points1_norm points2_norm).
  assert (HT : List.length (transpose D) = 9).
  { unfold transpose. rewrite length_map, length_seq. now apply design_matrix_rows. }
  set (X := match weights with
            | Some w => matmul (matmul (transpose D) (diag_embed w)) D
            | None => matmul (transpose D) D
            end).
  assert (HX : List.length X = 9).
  { unfold X. destruct weights; unfold matmul; now rewrite !length_map. }
  specialize (Hsvd X HX).
  destruct (snd (svd X)) as [|r0 [|r1 [|r2 [|r3 [|r4 [|r5 [|r6 [|r7 [|r8 [|? ?]]]]]]]]]];
    try discriminate Hsvd.
  cbn [map view_3_3 bind]. eauto.
Qed.

Lemma run_8point_batch_returns (points1 points2 : list (list (point T)))
    (transform1 transform2 : list (matrix T)) (weights : option (list (list T))) :
  (forall X, List.length X = 9 -> List.length (snd (svd X)) = 9) ->
  Forall (fun pts => pts <> []) points1 -> Forall (fun pts => pts <> []) points2 ->
  List.length points2 = List.length points1 ->
  List.length transform1 = List.length points1 ->
  List.length transform2 = List.length points1 ->
  match weights with
  | Some w => List.length w = List.length points1
  | None => True
  end ->
  exists Fs,
    run_8point_batch svd points1 points2 transform1 transform2 weights = Ok Fs
    /\ List.length Fs = List.length points1.
Proof.
  intros Hsvd H1. revert points2 transform1 transform2 weights.
  induction H1 as [|p1 ps1 Hp1 _ IH];
    intros [|p2 ps2] [|t1 ts1] [|t2 ts2] weights H2 L2 Lt1 Lt2 Lw;
    try discriminate; try (exists []; split; reflexivity).
  inversion H2 as [|? ? Hp2 H2']; subst.
  cbn [List.length] in L2, Lt1, Lt2. injection L2 as L2. injection Lt1 as Lt1.
  injection Lt2 as Lt2.
  destruct weights as [[|w ws]|]; [discriminate Lw| |].
  - cbn [List.length] in Lw. injection Lw as Lw.
    destruct (run_8point_1_returns p1 p2 t1 t2 (Some w) Hsvd Hp1 Hp2) as (F & HF).
    destruct (IH ps2 ts1 ts2 (Some ws) H2' L2 Lt1 Lt2 Lw) as (Fs & HFs & HL).
    exists (F :: Fs). cbn [run_8point_batch]. rewrite HF. cbn [bind]. rewrite HFs.
    cbn [bind List.length]. split; congruence.
  - destruct (run_8point_1_returns p1 p2 t1 t2 None Hsvd Hp1 Hp2) as (F & HF).
    destruct (IH ps2 ts1 ts2 None H2' L2 Lt1 Lt2 I) as (Fs & HFs & HL).
    exists (F :: Fs). cbn [run_8point_batch]. rewrite HF. cbn [bind]. rewrite HFs.
    cbn [bind List.length]. split; congruence.
Qed.

Lemma shape_B_N_rectangular {A : Type} (t : list (list A)) (N : nat) :
  t <> [] -> Forall (fun row => List.length row = N) t ->
  shape_B_N t = (List.length t, N).
Proof.
  intros Hne Hrows. destruct t as [|row t]; [congruence|].
  inversion Hrows; subst. reflexivity.
Qed.

Lemma normalized_nonempty (points : list (list (point T))) (eps : T) (N : nat) :
  0 < N -> Forall (fun pts => List.length pts = N) points ->
  Forall (fun pts => pts <> [])
         (map fst (map (normalize_points_1 eps) points)).
Proof.
  intros HN HP. rewrite Forall_forall in *. intros q Hq.
  apply in_map_iff in Hq. destruct Hq as (r & <- & Hr).
  apply in_map_iff in Hr. destruct Hr as (pts & <- & Hpts).
  specialize (HP pts Hpts).
  unfold normalize_points_1, transform_points. cbn [fst].
  destruct pts; [cbn in HP; lia | discriminate].
Qed.

(** X28: On inputs of shape (B, N, 2) with B >= 1 (and weights of shape (B, N) if
    given), with an SVD routine whose V has nine rows for an input with nine
    rows, run_8point returns a stack of B matrices when N >= 8 and raises
    AssertionError when N < 8. *)
Theorem run_8point_returns (points1 points2 : list (list (point T)))
    (weights : option (list (list T))) (N : nat) :
  (forall X, List.length X = 9 -> List.length (snd (svd X)) = 9) ->
  points1 <> [] -> List.length points2 = List.length points1 ->
  Forall (fun pts => List.length pts = N) points1 ->
  Forall (fun pts => List.length pts = N) points2 ->
  match weights with
  | Some w => List.length w = List.length points1
              /\ Forall (fun row => List.length row = N) w
  | None => True
  end ->
  if 8 <=? N
  then exists Fs, run_8point svd points1 points2 weights = Ok (Fstack Fs)
                  /\ List.length Fs = List.length points1
  else run_8point svd points1 points2 weights = Raise AssertionError.
Proof.
  intros Hsvd Hne HB H1 H2 HW.
  assert (Hne2 : points2 <> []).
  { destruct points2; [|discriminate]. destruct points1; [congruence|discriminate HB]. }
  unfold run_8point.
  rewrite (shape_B_N_rectangular points1 N Hne H1),
          (shape_B_N_rectangular points2 N Hne2 H2).
  unfold shape_eqb. cbn [fst snd]. rewrite HB, !Nat.eqb_refl. cbn [andb negb].
  destruct (Nat.leb_spec 8 N) as [HN|HN].
  - replace (N <? 8) with false by (symmetry; apply Nat.ltb_ge; exact HN).
    assert (HG : match weights with
                 | Some w => if Nat.eqb (snd (shape_B_N w)) N then Ok tt
                             else Raise AssertionError
                 | None => Ok tt
                 end = Ok tt).
    { destruct weights as [w|]; [|reflexivity]. destruct HW as [Lw Hw].
      rewrite (shape_B_N_rectangular w N); [cbn [snd]; now rewrite Nat.eqb_refl| |exact Hw].
      destruct w; [|discriminate]. destruct points1; [congruence|discriminate Lw]. }
    rewrite HG. cbn [bind]. unfold normalize_points. cbv zeta.
    destruct (run_8point_batch_returns
                (map fst (map (normalize_points_1 eps_default) points1))
                (map fst (map (normalize_points_1 eps_default) points2))
                (map snd (map (normalize_points_1 eps_default) points1))
                (map snd (map (normalize_points_1 eps_default) points2))
                weights Hsvd) as (Fs & HFs & HL).
    + apply (normalized_nonempty points1 eps_default N); [lia | exact H1].
    + apply (normalized_nonempty points2 eps_default N); [lia | exact H2].
    + now rewrite !length_map.
    + now rewrite !length_map.
    + now rewrite !length_map.
    + destruct weights as [w|]; [|exact I]. rewrite !length_map. exact (proj1 HW).
    + exists Fs. rewrite HFs. cbn [bind]. split; [reflexivity|].
      now rewrite HL, !length_map.
  - replace (N <? 8) with true by (symmetry; apply Nat.ltb_lt; exact HN).
    reflexivity.
Qed.

End EstimatorFacts.

Lemma find_fundamental_7point_raises_witness :
  exists e,
    find_fundamental (fun M : matrix R => (M, [], M)) string_upper [] [] None "7point"
    = Raise e.
Proof.
  apply (find_fundamental_7point_raises (fun M : matrix R => (M, [], M)) string_upper
           [] [] None "7point").
  reflexivity.
Defined.

Lemma run_8point_returns_witness :
  if 8 <=? 8
  then exists Fs,
         run_8point (fun _ : matrix R => ([], [], repeat [] 9))
           [[(0, 0); (1, 0); (0, 1); (1, 1); (2, 1); (1, 2); (2, 3); (3, 3)]%R]
           [[(0, 1); (1, 1); (0, 2); (1, 3); (2, 2); (1, 4); (3, 3); (4, 3)]%R]
           None = Ok (Fstack Fs)
         /\ List.length Fs
            = List.length [[(0, 0); (1, 0); (0, 1); (1, 1); (2, 1); (1, 2); (2, 3); (3, 3)]%R]
  else run_8point (fun _ : matrix R => ([], [], repeat [] 9))
         [[(0, 0); (1, 0); (0, 1); (1, 1); (2, 1); (1, 2); (2, 3); (3, 3)]%R]
         [[(0, 1); (1, 1); (0, 2); (1, 3); (2, 2); (1, 4); (3, 3); (4, 3)]%R]
         None = Raise AssertionError.
Proof.
  apply (run_8point_returns (fun _ : matrix R => ([], [], repeat [] 9))
           [[(0, 0); (1, 0); (0, 1); (1, 1); (2, 1); (1, 2); (2, 3); (3, 3)]%R]
           [[(0, 1); (1, 1); (0, 2); (1, 3); (2, 2); (1, 4); (3, 3); (4, 3)]%R]
           None 8).
  - intros X _. reflexivity.
  - discriminate.
  - reflexivity.
  - repeat constructor.
  - repeat constructor.
  - exact I.
Defined.
